(** * BR1: the move-selection engine of the computer opponent

    A shallow embedding of [client/src/lib/aiPlayer.ts] and of the second
    tuning of the same engine kept in the repository (the file with the
    [riskTaking] trait), followed by the properties of the engine.

    Conventions of the embedding.
    - Coordinates and atom counts are JavaScript numbers that only ever hold
      integers: they are [Z].  Scores and personality traits hold fractions
      ([Math.random() * 20], [0.2 + Math.random() * 2.3]): they are
      rationals ([Q]).  The personality traits, the array indices
      ([Math.floor(Math.random() * k)]) and the size of the selection
      window ([Math.ceil(n * (0.1 + ...))]) are computed as the code
      computes them, every operation rounding to the nearest double
      ([double] below); the sums and products of scores are exact, an
      idealisation of the doubles of the code.
    - [undefined]/[null] are [None]; dereferencing them raises a
      [TypeError], which is the [Throw] outcome below.
    - [Math.random] is an oracle: its n-th call returns [Math_random n];
      the number of calls made so far is part of the state. *)

From Stdlib Require Import ZArith QArith Qround Qabs Qminmax Qpower Lia ZifyBool Lqa
  Orders OrdersTac.
From stdpp Require Import base tactics option list sorting gmap.

Local Open Scope Z_scope.

(** ** Data model *)

(** [PLAYER] of [constants.ts]: the four colours the engine enumerates in
    [getNextPlayer] and [possibleEnemies]. *)
Inductive PLAYER : Set := RED | BLUE | ORANGE | BLACK.

#[global] Instance PLAYER_eq_dec : EqDecision PLAYER.
Proof. solve_decision. Defined.

Definition PLAYER_code (p : PLAYER) : nat :=
  match p with RED => 0 | BLUE => 1 | ORANGE => 2 | BLACK => 3 end%nat.

Definition PLAYER_of_code (n : nat) : PLAYER :=
  match n with O => RED | 1%nat => BLUE | 2%nat => ORANGE | _ => BLACK end.

#[global] Instance PLAYER_countable : Countable PLAYER.
Proof. by apply (inj_countable' PLAYER_code PLAYER_of_code); intros []. Defined.

(** [GridCell]: [{ atoms: number; player: PLAYER | null }]. *)
Record GridCell : Set := mkCell { atoms : Z; player : option PLAYER }.

(** [HQCell]: [{ row; col; player; health }]. *)
Record HQCell : Set :=
  mkHQ { hq_row : Z; hq_col : Z; hq_player : PLAYER; health : Z }.

Inductive PowerUpType : Set := diamond | heart.

(** [PowerUpCell]: [{ row; col; type }]. *)
Record PowerUpCell : Set :=
  mkPowerUp { pu_row : Z; pu_col : Z; pu_type : PowerUpType }.

(** [AIMove]: [{ row; col; score }]. *)
Record AIMove : Set := mkMove { row : Z; col : Z; score : Q }.

(** A grid is [GridCell[][]]; nothing in the type makes it rectangular. *)
Abbreviation Grid := (list (list GridCell)).

(** The functions imported from [gameUtils.ts], which the engine consumes
    as black boxes, and the random source. *)
Class GameUtils := {
  calculateCriticalMass : Z → Z → Z → Z → Z;
  isAdjacentTo : Z → Z → Z → Z → bool;
}.

Class Entropy := { Math_random : nat → Q }.

(** ** Outcomes: a value or a thrown TypeError *)

Inductive result (A : Type) : Type :=
| Ok (a : A)
| Throw.
Arguments Ok {A} a.
Arguments Throw {A}.

#[global] Instance result_bind : MBind result := λ A B k m,
  match m with Ok a => k a | Throw => Throw end.

(** Dereferencing a possibly undefined value ([v.field]). *)
Definition deref {A} (v : option A) : result A :=
  match v with Some a => Ok a | None => Throw end.

(** [a[i]]: undefined outside [0 .. a.length-1]. *)
Definition idx {A} (a : list A) (i : Z) : option A :=
  if decide (0 ≤ i) then a !! Z.to_nat i else None.

(** [a.length]. *)
Definition len {A} (a : list A) : Z := Z.of_nat (length a).

(** [grid[r][c]] where [grid[r]] is known to be an array. *)
Definition cellAt (grid : Grid) (r c : Z) : option GridCell :=
  idx grid r ≫= λ rw, idx rw c.

(** [grid[0].length] at the places where [grid] is known to be non-empty
    (a loop over its rows is running, or a bound on the row was checked). *)
Definition gridCols (grid : Grid) : Z := from_option len 0 (idx grid 0).

(** The cells of a row (of the grid) paired with their index. *)
Definition indexed {A} (a : list A) : list (Z * A) :=
  imap (λ i x, (Z.of_nat i, x)) a.

(** [cell.player && cell.player !== currentPlayer]: the members of
    [PLAYER] are strings, hence truthy. *)
Definition isEnemy (cell : GridCell) (currentPlayer : PLAYER) : bool :=
  match player cell with
  | Some q => negb (bool_decide (q = currentPlayer))
  | None => false
  end.

(** [cell.player === currentPlayer]. *)
Definition ownedBy (cell : GridCell) (currentPlayer : PLAYER) : bool :=
  bool_decide (player cell = Some currentPlayer).

(** [grid[r][c].player === currentPlayer && grid[r][c].atoms > 0]. *)
Definition isPlayerDot (currentPlayer : PLAYER) (cell : GridCell) : bool :=
  ownedBy cell currentPlayer && (0 <? atoms cell).

(** A doubly nested scan [for r .. for c < grid[r].length] that stops at
    the first cell satisfying [f]. *)
Definition anyCell (f : Z → Z → GridCell → bool) (grid : Grid) : bool :=
  existsb (λ '(r, rw), existsb (λ '(c, cell), f r c cell) (indexed rw))
          (indexed grid).

(** ** Move validator *)

Section Validator.
Context {U : GameUtils}.

Definition hasPlayerDots (grid : Grid) (currentPlayer : PLAYER) : bool :=
  anyCell (λ _ _ cell, isPlayerDot currentPlayer cell) grid.

Definition hasAdjacentDot (grid : Grid) (row col : Z) (currentPlayer : PLAYER)
  : bool :=
  anyCell (λ r c cell, isPlayerDot currentPlayer cell && isAdjacentTo row col r c)
          grid.

(** [hqs.some(hq => hq.row === row && hq.col === col)]. *)
Definition isHQCell (hqs : list HQCell) (row col : Z) : bool :=
  existsb (λ hq, (hq_row hq =? row) && (hq_col hq =? col)) hqs.

(** [hqs.find(hq => hq.player === currentPlayer)]. *)
Definition findHQ (hqs : list HQCell) (currentPlayer : PLAYER) : option HQCell :=
  List.find (λ hq, bool_decide (hq_player hq = currentPlayer)) hqs.

Definition isValidMoveForAI (grid : Grid) (row col : Z) (currentPlayer : PLAYER)
    (isBaseMode : bool) (hqs : option (list HQCell)) : result bool :=
  (* the disjunction is evaluated left to right: grid[0] is only read when
     0 <= row < grid.length *)
  if (row <? 0) || (row >=? len grid) || (col <? 0) then Ok false else
  row0 ← deref (idx grid 0);
  if col >=? len row0 then Ok false else
  gridRow ← deref (idx grid row);
  let cell := idx gridRow col in
  if isBaseMode && from_option (λ hs, isHQCell hs row col) false hqs
  then Ok false else
  if negb isBaseMode then
    c ← deref cell;
    Ok (bool_decide (player c = None) || ownedBy c currentPlayer)
  else
    c ← deref cell;
    if isEnemy c currentPlayer then Ok false else
    match hqs ≫= λ hs, findHQ hs currentPlayer with
    | Some playerHQ =>
        if negb (hasPlayerDots grid currentPlayer)
        then Ok ((row =? hq_row playerHQ) || (col =? hq_col playerHQ))
        else
          let nearHQ := (Z.abs (row - hq_row playerHQ) <=? 1)
                        && (Z.abs (col - hq_col playerHQ) <=? 1) in
          Ok (nearHQ || hasAdjacentDot grid row col currentPlayer)
    | None => Ok true
    end.

End Validator.

(** ** Effects: calls to [Math.random], then the personality table *)

(** A computation that may call [Math.random] and may throw: the state is
    the number of calls made so far; it survives a throw. *)
Definition R (A : Type) : Type := nat → result A * nat.

#[global] Instance R_ret : MRet R := λ A a n, (Ok a, n).
#[global] Instance R_bind : MBind R := λ A B k m n,
  match m n with
  | (Ok a, n') => k a n'
  | (Throw, n') => (Throw, n')
  end.

(** [Math.random()]. *)
Definition random {E : Entropy} : R Q := λ n, (Ok (Math_random n), S n).

(** A computation without random draws, run inside [R]. *)
Definition liftR {A} (m : result A) : R A := λ n, (m, n).

(** [l.forEach(x => ...)] updating an accumulator. *)
Fixpoint forEachR {A B} (f : B → A → R B) (l : list A) (acc : B) : R B :=
  match l with
  | [] => mret acc
  | x :: l' => acc' ← f acc x; forEachR f l' acc'
  end.

Fixpoint forEach {A B} (f : B → A → result B) (l : list A) (acc : B)
  : result B :=
  match l with
  | [] => Ok acc
  | x :: l' => acc' ← f acc x; forEach f l' acc'
  end.

(** A scan with [break]: stops at the first element for which [f] is true. *)
Fixpoint scanUntil {A} (f : A → result bool) (l : list A) : result bool :=
  match l with
  | [] => Ok false
  | x :: l' => b ← f x; if b : bool then Ok true else scanUntil f l'
  end.

(** [for (let i = lo; i <= hi; i++)]. *)
Definition fromTo (lo hi : Z) : list Z :=
  (λ i, lo + Z.of_nat i) <$> seq 0 (Z.to_nat (hi - lo + 1)).

(** The cells [(r, c)] visited by two nested [for] loops, row-major. *)
Definition window (rlo rhi clo chi : Z) : list (Z * Z) :=
  r ← fromTo rlo rhi; c ← fromTo clo chi; [(r, c)].

(** [Math.abs(r1 - r2) + Math.abs(c1 - c2)]. *)
Definition manhattan (r1 c1 r2 c2 : Z) : Z := Z.abs (r1 - r2) + Z.abs (c1 - c2).

(** ** Neighbours and the chain-reaction simulator *)

Definition directions : list (Z * Z) := [(-1, 0); (1, 0); (0, -1); (0, 1)].

Definition getNeighborsForAI (row col rows cols : Z) : list (Z * Z) :=
  omap (λ '(dr, dc),
          let nr := row + dr in
          let nc := col + dc in
          if (0 <=? nr) && (nr <? rows) && (0 <=? nc) && (nc <? cols)
          then Some (nr, nc) else None)
       directions.

(** [grid[row][col] = cell] on a list of lists (no effect out of range). *)
Definition setCell (grid : Grid) (row col : Z) (cell : GridCell) : Grid :=
  if decide (0 ≤ row ∧ 0 ≤ col)
  then alter (λ rw, <[Z.to_nat col := cell]> rw) (Z.to_nat row) grid
  else grid.

Section Simulator.
Context {U : GameUtils}.

(** The part of [calculateChainReactionPotential] that follows the
    placement: it only reads [simulatedGrid]. *)
Definition chainPotentialOf (simulatedGrid : Grid) (row col rows cols : Z)
  : result Z :=
  cell ← deref (cellAt simulatedGrid row col);
  let criticalMass := calculateCriticalMass row col rows cols in
  if atoms cell >=? criticalMass then
    forEach (λ chainPotential '(nr, nc),
      neighborCell ← deref (cellAt simulatedGrid nr nc);
      let neighborCritical := calculateCriticalMass nr nc rows cols in
      if atoms neighborCell + 1 >=? neighborCritical then
        forEach (λ chainPotential '(nnr, nnc),
          secondCell ← deref (cellAt simulatedGrid nnr nnc);
          let secondCritical := calculateCriticalMass nnr nnc rows cols in
          if atoms secondCell + 1 >=? secondCritical
          then Ok (chainPotential + 2) else Ok chainPotential)
          (getNeighborsForAI nr nc rows cols) (chainPotential + 5)
      else Ok chainPotential)
      (getNeighborsForAI row col rows cols) 0
  else Ok 0.

(** [calculateChainReactionPotential] on grid values: the deep copy is the
    value itself, and the two assignments to the copied cell are
    [setCell].  The version that allocates the copy in a store of objects
    is [calculateChainReactionPotential_ref] below. *)
Definition calculateChainReactionPotential (grid : Grid) (row col : Z)
    (currentPlayer : PLAYER) : result Z :=
  let rows := len grid in
  row0 ← deref (idx grid 0);
  let cols := len row0 in
  cell ← deref (cellAt grid row col);
  let simulatedGrid :=
    setCell grid row col (mkCell (atoms cell + 1) (Some currentPlayer)) in
  chainPotentialOf simulatedGrid row col rows cols.

End Simulator.

(** ** Positional evaluator: the blocks shared by both tunings *)

Record GameState : Type := mkGameState {
  gs_grid : Grid;
  gs_currentPlayer : PLAYER;
  gs_isBaseMode : bool;
  gs_hqs : option (list HQCell);
  gs_powerUps : option (list PowerUpCell);
}.

Record StrategicEvaluation : Set := mkEvaluation {
  aggressiveScore : Q;
  defensiveScore : Q;
  powerUpScore : Q;
  chainReactionScore : Q;
  territoryScore : Q;
  baseThreatScore : Q;
}.

(** [powerUps.find(pu => pu.row === row && pu.col === col)]. *)
Definition findPowerUp (powerUps : list PowerUpCell) (row col : Z)
  : option PowerUpCell :=
  List.find (λ pu, (pu_row pu =? row) && (pu_col pu =? col)) powerUps.

Section Evaluator.
Context {U : GameUtils} {E : Entropy}.

(** 1. Power-up scoring.  [atPosition] is the value assigned when a
    power-up sits on the target, [perStep] the proximity factor. *)
Definition powerUpScoring (atPosition : PowerUpCell → Z) (perStep : Z)
    (gameState : GameState) (row col : Z) : Z :=
  match gs_isBaseMode gameState, gs_powerUps gameState with
  | true, Some powerUps =>
      let score0 := from_option atPosition 0 (findPowerUp powerUps row col) in
      fold_left (λ score powerUp,
                   let distanceToPowerUp :=
                     Z.abs (pu_row powerUp - row) + Z.abs (pu_col powerUp - col) in
                   if distanceToPowerUp <=? 3
                   then score + (4 - distanceToPowerUp) * perStep else score)
                powerUps score0
  | _, _ => 0
  end.

Definition isCorner (row col rows cols : Z) : bool :=
  ((row =? 0) || (row =? rows - 1)) && ((col =? 0) || (col =? cols - 1)).

Definition isEdge (row col rows cols : Z) : bool :=
  (row =? 0) || (row =? rows - 1) || (col =? 0) || (col =? cols - 1).

(** The classic-mode penalty for enemy neighbours: one random draw per
    enemy-owned orthogonal neighbour. *)
Definition enemyNeighborPenalty (grid : Grid) (neighbors : list (Z * Z))
    (currentPlayer : PLAYER) : R Q :=
  forEachR (λ penalty '(nr, nc),
    neighborCell ← liftR (deref (cellAt grid nr nc));
    if isEnemy neighborCell currentPlayer
    then r ← random; mret (penalty + (10 + r * 10))%Q
    else mret penalty)
    neighbors 0%Q.

Definition hasOwnNeighbor (grid : Grid) (neighbors : list (Z * Z))
    (currentPlayer : PLAYER) : result bool :=
  forEach (λ found '(nr, nc),
    neighborCell ← deref (cellAt grid nr nc);
    Ok (if ownedBy neighborCell currentPlayer then true else found))
    neighbors false.

(** 2. Position scoring: returns what is added to [territoryScore] and what
    is subtracted from [aggressiveScore]. *)
Definition positionScoring (grid : Grid) (row col rows cols : Z)
    (currentPlayer : PLAYER) (gameState : GameState) : R (Q * Q) :=
  if negb (gs_isBaseMode gameState) then
    r1 ← random; r2 ← random; r3 ← random;
    let cornerBonus := (20 + r1 * 20)%Q in
    let edgeBonus := (8 + r2 * 10)%Q in
    let centerBonus := (2 + r3 * 8)%Q in
    let territory :=
      if isCorner row col rows cols then cornerBonus
      else if isEdge row col rows cols then edgeBonus else centerBonus in
    let neighbors := getNeighborsForAI row col rows cols in
    penalty ← enemyNeighborPenalty grid neighbors currentPlayer;
    own ← liftR (hasOwnNeighbor grid neighbors currentPlayer);
    isolationBonus ←
      (if negb own then r ← random; mret (0 + (8 + r * 12))%Q else mret 0%Q);
    mret ((0 + territory + isolationBonus)%Q, penalty)
  else
    r1 ← random; r2 ← random; r3 ← random;
    let cornerBonus := (1 + r1 * 6)%Q in
    let edgeBonus := (3 + r2 * 6)%Q in
    let centerBonus := (1 + r3 * 6)%Q in
    let territory :=
      if isCorner row col rows cols then cornerBonus
      else if isEdge row col rows cols then edgeBonus else centerBonus in
    mret ((0 + territory)%Q, 0%Q).

(** The 5x5 proximity scan of the aggressive block (base mode only). *)
Definition enemyProximityScore (grid : Grid) (row col rows cols : Z)
    (currentPlayer : PLAYER) (gameState : GameState) : result Z :=
  if gs_isBaseMode gameState then
    forEach (λ score '(r, c),
      targetCell ← deref (cellAt grid r c);
      if isEnemy targetCell currentPlayer then
        let distance := Z.abs (r - row) + Z.abs (c - col) in
        Ok (score + (3 - distance) * atoms targetCell * 2)
      else Ok score)
      (window (Z.max 0 (row - 2)) (Z.min (rows - 1) (row + 2))
              (Z.max 0 (col - 2)) (Z.min (cols - 1) (col + 2)))
      0
  else Ok 0.

(** 4. Base-threat scoring.  In [aiPlayer.ts] the explosion bonus is
    [hq.player === currentPlayer ? 120 : 40] inside the branch
    [hq.player !== currentPlayer], hence 40 as in the other tuning. *)
Definition baseThreatScoring (cell : GridCell) (criticalMass row col : Z)
    (currentPlayer : PLAYER) (gameState : GameState) : Z :=
  match gs_isBaseMode gameState, gs_hqs gameState with
  | true, Some hqs =>
      fold_left (λ score hq,
        if negb (bool_decide (hq_player hq = currentPlayer)) then
          let distanceToHQ := Z.abs (hq_row hq - row) + Z.abs (hq_col hq - col) in
          if distanceToHQ <=? 3 then
            let score := score + (4 - distanceToHQ) * 20 in
            if (atoms cell + 1 >=? criticalMass) && (distanceToHQ <=? 2)
            then score + (if bool_decide (hq_player hq = currentPlayer)
                          then 120 else 40)
            else score
          else score
        else score) hqs 0
  | _, _ => 0
  end.

(** 5. Defensive scoring. *)
Definition defensiveScoring (grid : Grid) (cell : GridCell)
    (row col rows cols : Z) (currentPlayer : PLAYER) (gameState : GameState)
  : result Z :=
  match gs_isBaseMode gameState, gs_hqs gameState with
  | true, Some hqs =>
      match findHQ hqs currentPlayer with
      | Some ourHQ =>
          let distanceToOurHQ :=
            Z.abs (hq_row ourHQ - row) + Z.abs (hq_col ourHQ - col) in
          '(enemyThreatNearBase, criticalThreats) ←
            forEach (λ '(threat, critical) '(r, c),
              threatCell ← deref (cellAt grid r c);
              if isEnemy threatCell currentPlayer then
                let threatDistance :=
                  Z.abs (r - hq_row ourHQ) + Z.abs (c - hq_col ourHQ) in
                let threatMultiplier := Z.max 1 (4 - threatDistance) in
                let threat := threat + atoms threatCell * threatMultiplier * 8 in
                if (threatDistance <=? 2) && (atoms threatCell >=? 2)
                then Ok (threat, critical + atoms threatCell * 15)
                else Ok (threat, critical)
              else Ok (threat, critical))
              (window (Z.max 0 (hq_row ourHQ - 3))
                      (Z.min (rows - 1) (hq_row ourHQ + 3))
                      (Z.max 0 (hq_col ourHQ - 3))
                      (Z.min (cols - 1) (hq_col ourHQ + 3)))
              (0, 0);
          let score :=
            if 0 <? enemyThreatNearBase then
              let defensiveUrgency := Z.min distanceToOurHQ 4 in
              let s := 0 + enemyThreatNearBase * (5 - defensiveUrgency) * 2 in
              let s := if (0 <? criticalThreats) && (distanceToOurHQ <=? 3)
                       then s + criticalThreats * 3 else s in
              let s := if isEnemy cell currentPlayer then s + 40 else s in
              if distanceToOurHQ <=? 2 then s + 30 else s
            else 0 in
          Ok (if health ourHQ <=? 2 then score * 2 else score)
      | None => Ok 0
      end
  | _, _ => Ok 0
  end.

End Evaluator.

(** ** The state of a [PersonalityBasedAI] instance *)

(** The personality table ([Map<PLAYER, AIPersonality>]) and the number of
    calls made to [Math.random]. *)
Record world (P : Type) : Type :=
  mkWorld { personalities : gmap PLAYER P; calls : nat }.
Arguments mkWorld {P} _ _.
Arguments personalities {P} _.
Arguments calls {P} _.

Definition M (P A : Type) : Type := world P → result A * world P.

#[global] Instance M_ret {P} : MRet (M P) := λ A a w, (Ok a, w).
#[global] Instance M_bind {P} : MBind (M P) := λ A B k m w,
  match m w with
  | (Ok a, w') => k a w'
  | (Throw, w') => (Throw, w')
  end.

(** A top-level function (no access to the table) called from a method. *)
Definition liftM {P A} (m : R A) : M P A := λ w,
  let '(a, n) := m (calls w) in (a, mkWorld (personalities w) n).

(** [resetPersonalities]: [this.personalities.clear()]. *)
Definition resetPersonalities {P} (w : world P) : world P :=
  mkWorld ∅ (calls w).

(** ** Sorting candidates: [validMoves.sort((a, b) => b.score - a.score)] *)

(** [Array.prototype.sort] is stable: the result is in descending order of
    score and moves of equal score keep their relative order. *)
Fixpoint insertByScore (m : AIMove) (l : list AIMove) : list AIMove :=
  match l with
  | [] => [m]
  | m' :: l' =>
      if Qle_bool (score m') (score m) then m :: m' :: l'
      else m' :: insertByScore m l'
  end.

Definition sortByScore (l : list AIMove) : list AIMove :=
  foldr insertByScore [] l.

(** [{ ...move, score: s }] and [move.score = s]. *)
Definition withScore (m : AIMove) (s : Q) : AIMove := mkMove (row m) (col m) s.

(** ** Arithmetic on doubles

    A JavaScript number is an IEEE 754 binary64 value: a literal, a sum
    or a product is the double nearest to the exact result, the one with
    an even significand when two are equally near. *)

(** [floor (log2 x)] for [x > 0]. *)
Definition ilog2 (x : Q) : Z :=
  let d := Z.log2 (Qnum x) - Z.log2 (Z.pos (Qden x)) in
  if Qle_bool (2 ^ d) x then d else d - 1.

(** The distance between two consecutive doubles around [x > 0]:
    53 significant bits, the smallest exponent being -1022. *)
Definition ulp (x : Q) : Q := (2 ^ (Z.max (ilog2 x) (-1022) - 52))%Q.

(** The integer nearest to [q], the even one of two equally near. *)
Definition roundEven (q : Q) : Z :=
  let f := Qfloor q in
  match (q - inject_Z f ?= 1 # 2)%Q with
  | Lt => f
  | Gt => f + 1
  | Eq => if Z.even f then f else f + 1
  end.

(** The double nearest to [x].  (Beyond the largest double, 2^1024 -
    2^970, the code would hold an infinity; no number of that size
    arises: the operands below are a trait, a draw from [0, 1) and the
    length of an array.) *)
Definition double (x : Q) : Q :=
  match (x ?= 0)%Q with
  | Eq => 0%Q
  | Gt => (ulp x * inject_Z (roundEven (x / ulp x)))%Q
  | Lt => (- (ulp (- x) * inject_Z (roundEven (- x / ulp (- x)))))%Q
  end.

(** [x * y] and [x + y] on doubles. *)
Definition fmul (x y : Q) : Q := double (x * y).

Definition fadd (x y : Q) : Q := double (x + y).

(** Half the gap between [1] and the next double: the relative error of
    one rounding. *)
Definition unitRoundoff : Q := (2 ^ (-53))%Q.

(** What [Math.random()] returns: a double of the interval from [0]
    (included) to [1] (excluded). *)
Definition unitDouble (u : Q) : bool :=
  Qle_bool 0 u && negb (Qle_bool 1 u) && Qeq_bool (double u) u.

(** [Math.floor(Math.random() * n)] used as an array index. *)
Definition randomIndex {E : Entropy} (n : Z) : R Z :=
  r ← random; mret (Qfloor (fmul r (inject_Z n))).

Inductive AI_STRATEGY : Set := SMART.

(** ** The tuning with the [riskTaking] trait *)

Module Simple.
Section Engine.
Context {U : GameUtils} {E : Entropy}.

Record AIPersonality : Set := mkPersonality {
  aggressiveness : Q;
  defensiveness : Q;
  riskTaking : Q;
  powerUpHunting : Q;
  territorialness : Q;
  cornerPreference : Q;
  spreadTendency : Q;
}.

Definition evaluateStrategicMove (grid : Grid) (row col : Z)
    (currentPlayer : PLAYER) (gameState : GameState) : R StrategicEvaluation :=
  let rows := len grid in
  row0 ← liftR (deref (idx grid 0));
  let cols := len row0 in
  gridRow ← liftR (deref (idx grid row));
  let cell := idx gridRow col in
  let criticalMass := calculateCriticalMass row col rows cols in
  (* 1. power-up scoring *)
  let powerUpScore :=
    powerUpScoring (λ pu, match pu_type pu with diamond => 150 | heart => 150 end)
                   25 gameState row col in
  (* 2. position scoring *)
  '(territory, penalty) ←
    positionScoring grid row col rows cols currentPlayer gameState;
  (* 3. aggressive scoring *)
  c ← liftR (deref cell);
  capture ← liftR (
    if atoms c + 1 >=? criticalMass then
      forEach (λ aggressive '(nr, nc),
        neighborCell ← deref (cellAt grid nr nc);
        if isEnemy neighborCell currentPlayer
        then Ok (aggressive + 15 * atoms neighborCell) else Ok aggressive)
        (getNeighborsForAI row col rows cols) 0
    else Ok 0);
  proximity ← liftR (enemyProximityScore grid row col rows cols currentPlayer gameState);
  (* 4. base threat, 5. defence, 6. chain reaction *)
  let baseThreat := baseThreatScoring c criticalMass row col currentPlayer gameState in
  defensive ← liftR (defensiveScoring grid c row col rows cols currentPlayer gameState);
  chainPotential ← liftR (calculateChainReactionPotential grid row col currentPlayer);
  mret {| aggressiveScore := 0 - penalty + inject_Z capture + inject_Z proximity;
          defensiveScore := inject_Z defensive;
          powerUpScore := inject_Z powerUpScore;
          chainReactionScore := inject_Z (chainPotential * 10);
          territoryScore := territory;
          baseThreatScore := inject_Z baseThreat |}%Q.

Definition generateAIPersonality : R AIPersonality :=
  r1 ← random; r2 ← random; r3 ← random; r4 ← random;
  r5 ← random; r6 ← random; r7 ← random;
  mret {| aggressiveness := fadd (double 0.2) (fmul r1 (double 2.3));
          defensiveness := fadd (double 0.2) (fmul r2 (double 2.3));
          riskTaking := fadd (double 0.2) (fmul r3 (double 2.3));
          powerUpHunting := fadd (double 0.8) (fmul r4 (double 2.2));
          territorialness := fadd (double 0.2) (fmul r5 (double 2.3));
          cornerPreference := fadd (double 0.1) (fmul r6 (double 1.9));
          spreadTendency := fadd (double 0.2) (fmul r7 (double 2.3)) |}%Q.

Definition getPersonality (player : PLAYER) : M AIPersonality AIPersonality :=
  λ w,
  match personalities w !! player with
  | Some personality => (Ok personality, w)
  | None =>
      match generateAIPersonality (calls w) with
      | (Ok personality, n) =>
          (Ok personality, mkWorld (<[player := personality]> (personalities w)) n)
      | (Throw, n) => (Throw, mkWorld (personalities w) n)
      end
  end.

Definition evaluateMove (grid : Grid) (row col : Z) (currentPlayer : PLAYER)
    (gameState : GameState) : M AIPersonality Q :=
  evaluation ← liftM (evaluateStrategicMove grid row col currentPlayer gameState);
  personality ← getPersonality currentPlayer;
  let baseScore := (0
    + powerUpScore evaluation * powerUpHunting personality * 1.8
    + territoryScore evaluation * territorialness personality
        * cornerPreference personality * 0.8
    + defensiveScore evaluation * defensiveness personality * 2.0
    + aggressiveScore evaluation * aggressiveness personality * 1.5
    + baseThreatScore evaluation * aggressiveness personality
        * riskTaking personality * 1.2
    + chainReactionScore evaluation * riskTaking personality * 1.3)%Q in
  let baseRandomness := (riskTaking personality * 0.3)%Q in
  r1 ← liftM random;
  let randomness := ((r1 - 0.5) * 2 * baseRandomness)%Q in
  let baseScore :=
    (baseScore + randomness * Qmax 15 (Qabs baseScore * 0.2))%Q in
  r2 ← liftM random;
  let chaosBonus := ((r2 - 0.5) * 25 * riskTaking personality)%Q in
  mret (baseScore + chaosBonus)%Q.

(** [Math.max(1, Math.ceil(n * (0.1 + riskTaking * 0.4)))]: the literals
    are the doubles nearest to 0.4 and 0.1. *)
Definition topMoves (personality : AIPersonality) (n : Z) : Z :=
  let selectionRandomness := fmul (riskTaking personality) (double 0.4) in
  Z.max 1 (Qceiling (fmul (inject_Z n) (fadd (double 0.1) selectionRandomness))).

(** The last statements of [getBestMove]: the index drawn, the element
    read at that index and the [console.log] that dereferences it. *)
Definition selectFromTop (personality : AIPersonality) (validMoves : list AIMove)
  : R AIMove :=
  let topMoves := topMoves personality (len validMoves) in
  bestMoveIndex ← randomIndex (Z.min topMoves (len validMoves));
  liftR (deref (idx validMoves bestMoveIndex)).

(** The generation loop of [getBestMove]: every legal cell, row-major,
    scored as soon as it is found legal. *)
Definition scoreValidMoves (grid : Grid) (rows cols : Z) (currentPlayer : PLAYER)
    (isBaseMode : bool) (hqs : option (list HQCell)) (gameState : GameState)
  : M AIPersonality (list AIMove) :=
  moves ← mapM (λ '(row, col),
      valid ← liftM (liftR (isValidMoveForAI grid row col currentPlayer isBaseMode hqs));
      if valid : bool then
        score ← evaluateMove grid row col currentPlayer gameState;
        mret (Some (mkMove row col score))
      else mret None)
    (window 0 (rows - 1) 0 (cols - 1));
  mret (omap id moves).

Definition getBestMove (grid : Grid) (currentPlayer : PLAYER) (isBaseMode : bool)
    (hqs : option (list HQCell)) (powerUps : option (list PowerUpCell))
  : M AIPersonality (option AIMove) :=
  personality ← getPersonality currentPlayer;
  let gameState := mkGameState grid currentPlayer isBaseMode hqs powerUps in
  let rows := len grid in
  row0 ← liftM (liftR (deref (idx grid 0)));
  let cols := len row0 in
  validMoves ← scoreValidMoves grid rows cols currentPlayer isBaseMode hqs gameState;
  if len validMoves =? 0 then mret None else
  let validMoves := sortByScore validMoves in
  bestMove ← liftM (selectFromTop personality validMoves);
  mret (Some bestMove).

(** [getAIMove]: the [try]/[catch] turns a throw into [null]. *)
Definition getAIMove (grid : Grid) (currentPlayer : PLAYER) (isBaseMode : bool)
    (hqs : option (list HQCell)) (strategy : AI_STRATEGY)
    (powerUps : option (list PowerUpCell))
  : world AIPersonality → option AIMove * world AIPersonality := λ w,
  match getBestMove grid currentPlayer isBaseMode hqs powerUps w with
  | (Ok move, w') => (move, w')
  | (Throw, w') => (None, w')
  end.

End Engine.
End Simple.

(** ** The tuning of [aiPlayer.ts]: rival targeting and overrides *)

Module Rival.
Section Engine.
Context {U : GameUtils} {E : Entropy}.

Record AIPersonality : Set := mkPersonality {
  aggressiveness : Q;
  defensiveness : Q;
  baseHuntingThirst : Q;
  powerUpHunting : Q;
  territorialness : Q;
  cornerPreference : Q;
  spreadTendency : Q;
  targetEnemy : option PLAYER;
}.

(** The explosion branch of the aggressive block: the damage added to
    [aggressiveScore] and [immediateExplosionBonus]. *)
Definition immediateExplosion (grid : Grid) (cell : GridCell)
    (criticalMass row col rows cols : Z) (currentPlayer : PLAYER)
  : result (Z * Z) :=
  if atoms cell + 1 >=? criticalMass then
    '(damage, bonus) ←
      forEach (λ '(damage, bonus) '(nr, nc),
        neighborCell ← deref (cellAt grid nr nc);
        if isEnemy neighborCell currentPlayer then
          let immediateDamage := atoms neighborCell * 100 in
          Ok (damage + immediateDamage, bonus + 1000)
        else Ok (damage, bonus))
        (getNeighborsForAI row col rows cols) (0, 0);
    Ok (damage, bonus + 200)
  else Ok (0, 0).

Definition placementStrategyScore (grid : Grid) (cell : GridCell)
    (criticalMass row col rows cols : Z) (currentPlayer : PLAYER) : result Z :=
  let score := if isEnemy cell currentPlayer then 0 - 300 else 0 in
  forEach (λ score '(nr, nc),
    neighborCell ← deref (cellAt grid nr nc);
    if isEnemy neighborCell currentPlayer then
      let neighborCriticalMass := calculateCriticalMass nr nc rows cols in
      let ourTimeToExplode := criticalMass - (atoms cell + 1) in
      let enemyTimeToExplode := neighborCriticalMass - atoms neighborCell in
      if (ourTimeToExplode <=? enemyTimeToExplode) && (ourTimeToExplode >=? 0)
      then Ok (score + (enemyTimeToExplode - ourTimeToExplode + 1) * 150)
      else Ok score
    else Ok score)
    (getNeighborsForAI row col rows cols) score.

Definition evaluateStrategicMove (grid : Grid) (row col : Z)
    (currentPlayer : PLAYER) (gameState : GameState) : R StrategicEvaluation :=
  let rows := len grid in
  row0 ← liftR (deref (idx grid 0));
  let cols := len row0 in
  gridRow ← liftR (deref (idx grid row));
  let cell := idx gridRow col in
  let criticalMass := calculateCriticalMass row col rows cols in
  (* 1. power-up scoring *)
  let powerUpScore := powerUpScoring (λ _, 5000) 500 gameState row col in
  (* 2. position scoring *)
  '(territory, penalty) ←
    positionScoring grid row col rows cols currentPlayer gameState;
  (* 3. immediate damage, placement strategy, proximity *)
  c ← liftR (deref cell);
  '(damage, immediateExplosionBonus) ←
    liftR (immediateExplosion grid c criticalMass row col rows cols currentPlayer);
  placement ←
    liftR (placementStrategyScore grid c criticalMass row col rows cols currentPlayer);
  proximity ← liftR (enemyProximityScore grid row col rows cols currentPlayer gameState);
  (* 4. base threat, 5. defence, 6. chain reaction *)
  let baseThreat := baseThreatScoring c criticalMass row col currentPlayer gameState in
  defensive ← liftR (defensiveScoring grid c row col rows cols currentPlayer gameState);
  chainPotential ← liftR (calculateChainReactionPotential grid row col currentPlayer);
  mret {| aggressiveScore :=
            0 - penalty + inject_Z damage + inject_Z immediateExplosionBonus
            + inject_Z (proximity + placement);
          defensiveScore := inject_Z defensive;
          powerUpScore := inject_Z powerUpScore;
          chainReactionScore := inject_Z (chainPotential * 10);
          territoryScore := territory;
          baseThreatScore := inject_Z baseThreat |}%Q.

Definition allPlayers : list PLAYER := [RED; BLUE; ORANGE; BLACK].

Definition generateAIPersonality : R AIPersonality :=
  i ← randomIndex (len allPlayers);
  let targetEnemy := idx allPlayers i in
  r1 ← random; r2 ← random; r3 ← random; r4 ← random;
  r5 ← random; r6 ← random; r7 ← random;
  mret {| aggressiveness := fadd (double 1.2) (fmul r1 (double 1.8));
          defensiveness := fadd (double 0.8) (fmul r2 (double 2.2));
          baseHuntingThirst := fadd (double 1.0) (fmul r3 (double 2.0));
          powerUpHunting := fadd (double 2.5) (fmul r4 (double 0.5));
          territorialness := fadd (double 0.8) (fmul r5 (double 1.7));
          cornerPreference := fadd (double 0.3) (fmul r6 (double 1.2));
          spreadTendency := fadd (double 1.0) (fmul r7 (double 1.5));
          targetEnemy := targetEnemy |}%Q.

(** [personality.targetEnemy = e]. *)
Definition withTarget (p : AIPersonality) (e : option PLAYER) : AIPersonality :=
  mkPersonality (aggressiveness p) (defensiveness p) (baseHuntingThirst p)
    (powerUpHunting p) (territorialness p) (cornerPreference p)
    (spreadTendency p) e.

(** The entry created by [getPersonality] for a player not in the table. *)
Definition freshPersonality (player : PLAYER) : R AIPersonality :=
  personality ← generateAIPersonality;
  let possibleEnemies := filter (λ p, p ≠ player) allPlayers in
  i ← randomIndex (len possibleEnemies);
  mret (withTarget personality (idx possibleEnemies i)).

Definition getPersonality (player : PLAYER) : M AIPersonality AIPersonality :=
  λ w,
  match personalities w !! player with
  | Some personality => (Ok personality, w)
  | None =>
      match freshPersonality player (calls w) with
      | (Ok personality, n) =>
          (Ok personality, mkWorld (<[player := personality]> (personalities w)) n)
      | (Throw, n) => (Throw, mkWorld (personalities w) n)
      end
  end.

(** The whole-board material count of [evaluateMove(grid, -1, -1, ...)]. *)
Definition fullBoardScore (grid : Grid) (currentPlayer : PLAYER) : result Z :=
  forEach (λ totalScore '(r, c),
    cell ← deref (cellAt grid r c);
    if ownedBy cell currentPlayer
    then Ok (totalScore + atoms cell * 10) else Ok totalScore)
    (window 0 (len grid - 1) 0 (gridCols grid - 1)) 0.

Definition evaluateMove (grid : Grid) (row col : Z) (currentPlayer : PLAYER)
    (gameState : GameState) : M AIPersonality Q :=
  if (row =? -1) && (col =? -1) then
    totalScore ← liftM (liftR (fullBoardScore grid currentPlayer));
    mret (inject_Z totalScore)
  else
  evaluation ← liftM (evaluateStrategicMove grid row col currentPlayer gameState);
  personality ← getPersonality currentPlayer;
  let targetHQ :=
    match gs_isBaseMode gameState, gs_hqs gameState, targetEnemy personality with
    | true, Some hqs, Some target => findHQ hqs target
    | _, _, _ => None
    end in
  let targetEnemyBonus :=
    match targetHQ with
    | Some targetHQ =>
        let distanceToTarget :=
          Z.abs (hq_row targetHQ - row) + Z.abs (hq_col targetHQ - col) in
        if distanceToTarget <=? 3
        then (inject_Z (4 - distanceToTarget) * 50 * baseHuntingThirst personality)%Q
        else 0%Q
    | None => 0%Q
    end in
  let baseThreat :=
    match targetHQ with
    | Some targetHQ =>
        if bool_decide (Some (hq_player targetHQ) = targetEnemy personality)
        then (baseThreatScore evaluation * 2)%Q else baseThreatScore evaluation
    | None => baseThreatScore evaluation
    end in
  let powerUpMultiplier := Qmax 1.0 (powerUpHunting personality) in
  let baseScore := (0
    + powerUpScore evaluation * powerUpMultiplier
    + aggressiveScore evaluation * aggressiveness personality * 2.5
    + baseThreat * aggressiveness personality * baseHuntingThirst personality * 2.0
    + defensiveScore evaluation * defensiveness personality * 2.0
    + territoryScore evaluation * territorialness personality
        * cornerPreference personality * 0.5
    + chainReactionScore evaluation * baseHuntingThirst personality * 1.3
    + targetEnemyBonus)%Q in
  let baseRandomness := (baseHuntingThirst personality * 0.3)%Q in
  r1 ← liftM random;
  let randomness := ((r1 - 0.5) * 2 * baseRandomness)%Q in
  let baseScore :=
    (baseScore + randomness * Qmax 15 (Qabs baseScore * 0.2))%Q in
  r2 ← liftM random;
  let chaosBonus := ((r2 - 0.5) * 25 * baseHuntingThirst personality)%Q in
  mret (baseScore + chaosBonus)%Q.

Definition getValidMoves (grid : Grid) (player : PLAYER) (isBaseMode : bool)
    (hqs : option (list HQCell)) : result (list AIMove) :=
  forEach (λ moves '(row, col),
    valid ← isValidMoveForAI grid row col player isBaseMode hqs;
    Ok (if valid : bool then moves ++ [mkMove row col 0] else moves))
    (window 0 (len grid - 1) 0 (gridCols grid - 1)) [].

Definition simulateMove (grid : Grid) (row col : Z) (player : PLAYER)
  : result Grid :=
  cell ← deref (cellAt grid row col);
  Ok (setCell grid row col (mkCell (atoms cell + 1) (Some player))).

Definition getNextPlayer (current : PLAYER) : PLAYER :=
  match current with
  | RED => BLUE
  | BLUE => ORANGE
  | ORANGE => BLACK
  | BLACK => RED
  end.

(** Override 1: the first legal move that sits on a power-up. *)
Definition powerUpMove (validMoves : list AIMove) (powerUps : list PowerUpCell)
  : option AIMove :=
  List.find (λ move, bool_decide (is_Some (findPowerUp powerUps (row move) (col move))))
            validMoves.

(** Override 2: is an enemy cell with two atoms or more within two rows
    and columns of our base? *)
Definition criticalThreat (grid : Grid) (ourHQ : HQCell) (currentPlayer : PLAYER)
  : result bool :=
  scanUntil (λ '(r, c),
      threatCell ← deref (cellAt grid r c);
      Ok (isEnemy threatCell currentPlayer && (atoms threatCell >=? 2)))
    (window (Z.max 0 (hq_row ourHQ - 2)) (Z.min (len grid - 1) (hq_row ourHQ + 2))
            (Z.max 0 (hq_col ourHQ - 2))
            (Z.min (gridCols grid - 1) (hq_col ourHQ + 2))).

Definition defensiveBoost (ourHQ : HQCell) (move : AIMove) : AIMove :=
  let distanceToHQ :=
    Z.abs (row move - hq_row ourHQ) + Z.abs (col move - hq_col ourHQ) in
  if distanceToHQ <=? 2 then withScore move (score move + 2000)%Q else move.

Definition emergencyDefense (grid : Grid) (currentPlayer : PLAYER)
    (isBaseMode : bool) (hqs : option (list HQCell)) (validMoves : list AIMove)
  : result (list AIMove) :=
  match isBaseMode, hqs with
  | true, Some hqs =>
      match findHQ hqs currentPlayer with
      | Some ourHQ =>
          threat ← criticalThreat grid ourHQ currentPlayer;
          if threat : bool
          then Ok (sortByScore (defensiveBoost ourHQ <$> validMoves))
          else Ok validMoves
      | None => Ok validMoves
      end
  | _, _ => Ok validMoves
  end.

(** [Math.max(1, Math.min(3, validMoves.length))]. *)
Definition topMoveCount (n : Z) : Z := Z.max 1 (Z.min 3 n).

Definition selectFromTop (validMoves : list AIMove) : R AIMove :=
  bestMoveIndex ← randomIndex (topMoveCount (len validMoves));
  liftR (deref (idx validMoves bestMoveIndex)).

Definition getBestMove (grid : Grid) (currentPlayer : PLAYER) (isBaseMode : bool)
    (hqs : option (list HQCell)) (powerUps : option (list PowerUpCell))
  : M AIPersonality (option AIMove) :=
  personality ← getPersonality currentPlayer;
  let gameState := mkGameState grid currentPlayer isBaseMode hqs powerUps in
  validMoves ← liftM (liftR (getValidMoves grid currentPlayer isBaseMode hqs));
  if len validMoves =? 0 then mret None else
  match (if isBaseMode then powerUps ≫= powerUpMove validMoves else None) with
  | Some move => mret (Some (withScore move 10000))
  | None =>
      validMoves ← mapM (λ move,
          score ← evaluateMove grid (row move) (col move) currentPlayer gameState;
          mret (withScore move score)) validMoves;
      let validMoves := sortByScore validMoves in
      validMoves ← liftM (liftR (emergencyDefense grid currentPlayer isBaseMode hqs validMoves));
      bestMove ← liftM (selectFromTop validMoves);
      mret (Some bestMove)
  end.

Definition getAIMove (grid : Grid) (currentPlayer : PLAYER) (isBaseMode : bool)
    (hqs : option (list HQCell)) (strategy : AI_STRATEGY)
    (powerUps : option (list PowerUpCell))
  : world AIPersonality → option AIMove * world AIPersonality := λ w,
  match getBestMove grid currentPlayer isBaseMode hqs powerUps w with
  | (Ok move, w') => (move, w')
  | (Throw, w') => (None, w')
  end.

End Engine.
End Rival.

(** ** The grid as objects in a store

    The functions above take grids as values.  The two functions of the
    engine that assign to a cell or to an array element do so on a copy
    made with [grid.map(row => row.map(cell => ({ ...cell })))]; to state
    that the caller's grid is left alone, arrays and cells are objects in a
    store and a grid is a reference. *)

Abbreviation loc := positive.

Inductive object : Type :=
| ObjCell (cell : GridCell)
| ObjArray (elems : list loc).

Abbreviation store := (gmap loc object).

Definition H (A : Type) : Type := store → result A * store.

#[global] Instance H_ret : MRet H := λ A a σ, (Ok a, σ).
#[global] Instance H_bind : MBind H := λ A B k m σ,
  match m σ with
  | (Ok a, σ') => k a σ'
  | (Throw, σ') => (Throw, σ')
  end.

Definition liftH {A} (m : result A) : H A := λ σ, (m, σ).

(** A new object: an object or array literal, or the array made by [map]. *)
Definition alloc (o : object) : H loc := λ σ,
  let l := fresh (dom σ) in (Ok l, <[l := o]> σ).

Definition readArray (l : loc) : H (list loc) := λ σ,
  match σ !! l with
  | Some (ObjArray elems) => (Ok elems, σ)
  | _ => (Throw, σ)
  end.

Definition readCell (l : loc) : H GridCell := λ σ,
  match σ !! l with
  | Some (ObjCell cell) => (Ok cell, σ)
  | _ => (Throw, σ)
  end.

Definition putObject (l : loc) (o : object) : H unit := λ σ,
  (Ok (), <[l := o]> σ).

(** [cell.field = v]: the object at [l] is replaced by its updated value. *)
Definition writeCell (l : loc) (cell : GridCell) : H unit :=
  putObject l (ObjCell cell).

(** [a[i] = v] for [i] within the array. *)
Definition writeElem (l : loc) (i : Z) (v : loc) : H unit :=
  elems ← readArray l;
  if decide (0 ≤ i)
  then putObject l (ObjArray (<[Z.to_nat i := v]> elems))
  else mret ().

(** [a[i]] followed by a dereference. *)
Definition readElem (l : loc) (i : Z) : H loc :=
  elems ← readArray l; liftH (deref (idx elems i)).

(** [({ ...cell })]. *)
Definition copyCell (l : loc) : H loc :=
  cell ← readCell l; alloc (ObjCell cell).

(** [row.map(cell => ({ ...cell }))]. *)
Definition copyRow (l : loc) : H loc :=
  cells ← readArray l; cells' ← mapM copyCell cells; alloc (ObjArray cells').

(** [grid.map(row => row.map(cell => ({ ...cell })))]. *)
Definition copyGrid (g : loc) : H loc :=
  rows ← readArray g; rows' ← mapM copyRow rows; alloc (ObjArray rows').

(** Reading a whole grid: the value the functions on grids work with. *)
Definition readGrid (g : loc) : H Grid :=
  rows ← readArray g;
  mapM (λ r, cells ← readArray r; mapM readCell cells) rows.

Definition snapshot (σ : store) (g : loc) : option Grid :=
  match readGrid g σ with (Ok grid, _) => Some grid | (Throw, _) => None end.

Section Simulator_ref.
Context {U : GameUtils}.

Definition calculateChainReactionPotential_ref (grid : loc) (row col : Z)
    (currentPlayer : PLAYER) : H Z :=
  rowsArr ← readArray grid;
  let rows := len rowsArr in
  row0 ← readElem grid 0;
  row0Arr ← readArray row0;
  let cols := len row0Arr in
  simulatedGrid ← copyGrid grid;
  simRow ← readElem simulatedGrid row;
  cell ← readElem simRow col;
  (* cell.atoms++ *)
  c ← readCell cell;
  _ ← writeCell cell (mkCell (atoms c + 1) (player c));
  (* cell.player = currentPlayer *)
  c ← readCell cell;
  _ ← writeCell cell (mkCell (atoms c) (Some currentPlayer));
  (* what follows only reads simulatedGrid *)
  sim ← readGrid simulatedGrid;
  liftH (chainPotentialOf sim row col rows cols).

End Simulator_ref.

(** [simulateMove]: the copy, then
    [newGrid[row][col] = { atoms: (newGrid[row][col].atoms || 0) + 1, player }]. *)
Definition simulateMove_ref (grid : loc) (row col : Z) (player : PLAYER) : H loc :=
  newGrid ← copyGrid grid;
  newRow ← readElem newGrid row;
  old ← readElem newRow col;
  c ← readCell old;
  cell ← alloc (ObjCell (mkCell (atoms c + 1) (Some player)));
  _ ← writeElem newRow col cell;
  mret newGrid.

(** Allocating a grid value in the store (how the host's grid comes to be
    an object). *)
Definition allocGrid (grid : Grid) : H loc :=
  rows ← mapM (λ rw, cells ← mapM (λ c, alloc (ObjCell c)) rw;
                     alloc (ObjArray cells)) grid;
  alloc (ObjArray rows).

(** ** Adversarial search on grid references

    [minimax] of [aiPlayer.ts]: every ply works on the grid returned by
    [simulateMove].  Scores are the whole-board material counts, with the
    two infinities the search starts from. *)

Inductive ext : Set := NegInf | Fin (z : Z) | PosInf.

(** [a <= b] on numbers with infinities. *)
Definition ext_le (a b : ext) : bool :=
  match a, b with
  | NegInf, _ | _, PosInf => true
  | Fin x, Fin y => x <=? y
  | _, _ => false
  end.

(** [Math.max] and [Math.min]. *)
Definition ext_max (a b : ext) : ext := if ext_le a b then b else a.
Definition ext_min (a b : ext) : ext := if ext_le a b then a else b.

Section Search_ref.
Context {U : GameUtils}.

Fixpoint minimax_ref (depth : nat) (grid : loc) (isMaximizing : bool)
    (alpha beta : ext) (currentPlayer : PLAYER) (gameState : GameState)
  : H ext :=
  match depth with
  | O =>
      g ← readGrid grid;
      totalScore ← liftH (Rival.fullBoardScore g currentPlayer);
      mret (Fin totalScore)
  | S depth' =>
      g ← readGrid grid;
      validMoves ← liftH (Rival.getValidMoves g currentPlayer
                            (gs_isBaseMode gameState) (gs_hqs gameState));
      if isMaximizing then
        (fix loop (moves : list AIMove) (maxEval alpha : ext) : H ext :=
           match moves with
           | [] => mret maxEval
           | move :: moves' =>
               newGrid ← simulateMove_ref grid (row move) (col move) currentPlayer;
               evaluation ← minimax_ref depth' newGrid false alpha beta
                              (Rival.getNextPlayer currentPlayer) gameState;
               let maxEval := ext_max maxEval evaluation in
               let alpha := ext_max alpha evaluation in
               if ext_le beta alpha then mret maxEval
               else loop moves' maxEval alpha
           end) validMoves NegInf alpha
      else
        (fix loop (moves : list AIMove) (minEval beta : ext) : H ext :=
           match moves with
           | [] => mret minEval
           | move :: moves' =>
               newGrid ← simulateMove_ref grid (row move) (col move) currentPlayer;
               evaluation ← minimax_ref depth' newGrid true alpha beta
                              (Rival.getNextPlayer currentPlayer) gameState;
               let minEval := ext_min minEval evaluation in
               let beta := ext_min beta evaluation in
               if ext_le beta alpha then mret minEval
               else loop moves' minEval beta
           end) validMoves PosInf beta
  end.

End Search_ref.

(** ** A geometry and a random source to run the engine

    The theorems hold for every [GameUtils] and every [Entropy]; the
    following instances serve to evaluate the engine on boards of at least
    two rows and two columns. *)

(** Modelled from the spec: [calculateCriticalMass] of [gameUtils.ts], a
    function of the position and of the size of the grid with lower
    thresholds on corners and edges than inside (4 for the centre of a 3x3
    board): the number of orthogonal neighbours, that is 2 on a corner, 3
    on an edge and 4 inside. *)
Definition neighbourCountMass (row col rows cols : Z) : Z :=
  len (getNeighborsForAI row col rows cols).

(** Modelled from the spec: [isAdjacentTo] of [gameUtils.ts], the
    8-neighbour adjacency of two distinct cells. *)
Definition touching (row1 col1 row2 col2 : Z) : bool :=
  (Z.abs (row1 - row2) <=? 1) && (Z.abs (col1 - col2) <=? 1)
  && negb ((row1 =? row2) && (col1 =? col2)).

Definition boardGeometry : GameUtils :=
  {| calculateCriticalMass := neighbourCountMass; isAdjacentTo := touching |}.

(** A random source that always returns the same value. *)
Definition constantEntropy (q : Q) : Entropy := {| Math_random := λ _, q |}.

Definition emptyCell : GridCell := mkCell 0 None.

Definition emptyGrid (rows cols : nat) : Grid :=
  replicate rows (replicate cols emptyCell).

(** No personality created yet, no random number drawn yet. *)
Definition newGame {P} : world P := mkWorld ∅ 0.

(** ** Adversarial search on grid values

    [minimax] with [simulateMove] on grid values: statement for statement
    the search of [minimax_ref], without the store. *)

Section Search.
Context {U : GameUtils}.

Fixpoint minimax (depth : nat) (grid : Grid) (isMaximizing : bool)
    (alpha beta : ext) (currentPlayer : PLAYER) (gameState : GameState)
  : result ext :=
  match depth with
  | O =>
      totalScore ← Rival.fullBoardScore grid currentPlayer;
      Ok (Fin totalScore)
  | S depth' =>
      validMoves ← Rival.getValidMoves grid currentPlayer
                     (gs_isBaseMode gameState) (gs_hqs gameState);
      if isMaximizing then
        (fix loop (moves : list AIMove) (maxEval alpha : ext) : result ext :=
           match moves with
           | [] => Ok maxEval
           | move :: moves' =>
               newGrid ← Rival.simulateMove grid (row move) (col move) currentPlayer;
               evaluation ← minimax depth' newGrid false alpha beta
                              (Rival.getNextPlayer currentPlayer) gameState;
               let maxEval := ext_max maxEval evaluation in
               let alpha := ext_max alpha evaluation in
               if ext_le beta alpha then Ok maxEval
               else loop moves' maxEval alpha
           end) validMoves NegInf alpha
      else
        (fix loop (moves : list AIMove) (minEval beta : ext) : result ext :=
           match moves with
           | [] => Ok minEval
           | move :: moves' =>
               newGrid ← Rival.simulateMove grid (row move) (col move) currentPlayer;
               evaluation ← minimax depth' newGrid true alpha beta
                              (Rival.getNextPlayer currentPlayer) gameState;
               let minEval := ext_min minEval evaluation in
               let beta := ext_min beta evaluation in
               if ext_le beta alpha then Ok minEval
               else loop moves' minEval beta
           end) validMoves PosInf beta
  end.

(** The value of the same game tree when no branch is cut: the maximum
    (at a maximizing node) or the minimum of the values of all the
    children, the whole-board count at depth 0.  This is what [minimax]
    is compared with. *)
Fixpoint searchValue (depth : nat) (grid : Grid) (isMaximizing : bool)
    (currentPlayer : PLAYER) (gameState : GameState) : result ext :=
  match depth with
  | O =>
      totalScore ← Rival.fullBoardScore grid currentPlayer;
      Ok (Fin totalScore)
  | S depth' =>
      validMoves ← Rival.getValidMoves grid currentPlayer
                     (gs_isBaseMode gameState) (gs_hqs gameState);
      (fix best (moves : list AIMove) : result ext :=
         match moves with
         | [] => Ok (if isMaximizing then NegInf else PosInf)
         | move :: moves' =>
             newGrid ← Rival.simulateMove grid (row move) (col move) currentPlayer;
             value ← searchValue depth' newGrid (negb isMaximizing)
                       (Rival.getNextPlayer currentPlayer) gameState;
             rest ← best moves';
             Ok (if isMaximizing then ext_max value rest else ext_min value rest)
         end) validMoves
  end.

End Search.

(** ** Vocabulary of the statements *)

Definition outOfBounds (grid : Grid) (row col : Z) : Prop :=
  row < 0 ∨ len grid ≤ row ∨ col < 0 ∨ gridCols grid ≤ col.

(** The player has no cell with atoms on the grid. *)
Definition noPlayerDots (grid : Grid) (p : PLAYER) : Prop :=
  ∀ r c cell, cellAt grid r c = Some cell → player cell = Some p → atoms cell ≤ 0.

(** Every row is as long as the first one. *)
Definition rectangular (grid : Grid) : Prop :=
  Forall (λ rw, len rw = gridCols grid) grid.

(** [grid'] has the shape of [grid] and no fewer atoms in any cell. *)
Definition atomsLe (grid grid' : Grid) : Prop :=
  ∀ r c, match cellAt grid r c, cellAt grid' r c with
         | Some x, Some x' => atoms x ≤ atoms x'
         | None, None => True
         | _, _ => False
         end.

(** No cell within two rows and two columns of [(row, col)] belongs to
    an opponent of [p]. *)
Definition noEnemyAround (grid : Grid) (row col : Z) (p : PLAYER) : Prop :=
  ∀ r c cell, Z.abs (r - row) ≤ 2 → Z.abs (c - col) ≤ 2 →
              cellAt grid r c = Some cell → isEnemy cell p = false.

(** [m] returns a value, whatever the number of draws made so far. *)
Definition returns {A} (m : R A) : Prop := ∀ n, ∃ a n', m n = (Ok a, n').


#[global] Instance result_eq_dec {A} `{EqDecision A} : EqDecision (result A).
Proof. solve_decision. Defined.

Section Legality.
Context {U : GameUtils}.

(** A move is legal when the validator approves its coordinates. *)
Definition legal (grid : Grid) (p : PLAYER) (mode : bool)
    (hqs : option (list HQCell)) (m : AIMove) : Prop :=
  isValidMoveForAI grid (row m) (col m) p mode hqs = Ok true.

Definition legalCell (grid : Grid) (p : PLAYER) (mode : bool)
    (hqs : option (list HQCell)) (rc : Z * Z) : Prop :=
  isValidMoveForAI grid rc.1 rc.2 p mode hqs = Ok true.

#[global] Instance legalCell_dec grid p mode hqs rc :
  Decision (legalCell grid p mode hqs rc).
Proof. unfold legalCell. apply _. Defined.

End Legality.

(** Every move of [l'] sits on the cell of some move of [l]. *)
Definition cellsWithin (l l' : list AIMove) : Prop :=
  ∀ m', m' ∈ l' → ∃ m, m ∈ l ∧ row m' = row m ∧ col m' = col m.

(** Whatever [m] returns, every object of the store it started from is
    still there, unchanged. *)
Definition grows {A} (m : H A) : Prop := ∀ σ, σ ⊆ (m σ).2.

(** An array of the copy: allocated after [σ0], and so are its elements. *)
Definition freshRow (σ0 σ : store) (l : loc) : Prop :=
  σ0 !! l = None ∧
  ∃ cells, σ !! l = Some (ObjArray cells) ∧ Forall (λ c, σ0 !! c = None) cells.

(** A grid made of objects none of which existed in [σ0]. *)
Definition freshGrid (σ0 σ : store) (g : loc) : Prop :=
  σ0 !! g = None ∧
  ∃ rows, σ !! g = Some (ObjArray rows) ∧ Forall (freshRow σ0 σ) rows.

(** The cells at [cells] hold the row [rw]. *)
Definition cellsRep (σ : store) (cells : list loc) (rw : list GridCell) : Prop :=
  Forall2 (λ l c, σ !! l = Some (ObjCell c)) cells rw.

(** The arrays at [rows] hold the rows [cellss] of cell references. *)
Definition rowsRep (σ : store) (rows : list loc) (cellss : list (list loc)) : Prop :=
  Forall2 (λ l cells, σ !! l = Some (ObjArray cells)) rows cellss.

(** [g] is a grid object holding [grid], through the references [rows]
    and [cellss]. *)
Definition gridRep (σ : store) (g : loc) (rows : list loc)
    (cellss : list (list loc)) (grid : Grid) : Prop :=
  σ !! g = Some (ObjArray rows) ∧ rowsRep σ rows cellss
  ∧ Forall2 (cellsRep σ) cellss grid.

(** The player owns the cell [(r, c)] and it holds atoms. *)
Definition ownDotAt (grid : Grid) (p : PLAYER) (r c : Z) : Prop :=
  ∃ d, cellAt grid r c = Some d ∧ player d = Some p ∧ 0 < atoms d.

(** Some headquarters of the list sits on [(row, col)]. *)
Definition onHQ (hqs : option (list HQCell)) (row col : Z) : Prop :=
  ∃ hs hq, hqs = Some hs ∧ hq ∈ hs ∧ hq_row hq = row ∧ hq_col hq = col.

(** Two grids of the same shape with the same atom counts, whoever owns
    the cells. *)
Definition sameAtoms (grid grid' : Grid) : Prop :=
  Forall2 (Forall2 (λ x y, atoms x = atoms y)) grid grid'.

(** Every number drawn is a double of [0, 1), as [Math.random] promises. *)
Definition unitRandom (E : Entropy) : Prop :=
  ∀ k, unitDouble (Math_random k) = true.

(** Once [player] has an entry, running [m] leaves the table as it is,
    whether [m] returns or throws. *)
Definition keepsTable {P A} (player : PLAYER) (m : M P A) : Prop :=
  ∀ w r w', is_Some (personalities w !! player) → m w = (r, w') →
            personalities w' = personalities w.

(** The Manhattan distance from a power-up to a cell. *)
Definition powerUpDistance (pu : PowerUpCell) (row col : Z) : Z :=
  Z.abs (pu_row pu - row) + Z.abs (pu_col pu - col).

(** The headquarters of the list that belong to an opponent of [p]. *)
Definition enemyHQs (hqs : list HQCell) (p : PLAYER) : list HQCell :=
  filter (λ hq, hq_player hq ≠ p) hqs.

(** The Manhattan distance from a headquarters to a cell. *)
Definition hqDistance (hq : HQCell) (row col : Z) : Z :=
  Z.abs (hq_row hq - row) + Z.abs (hq_col hq - col).

(** No cell of the grid holds a negative number of atoms. *)
Definition atomsNonneg (grid : Grid) : Prop :=
  ∀ r c cell, cellAt grid r c = Some cell → 0 ≤ atoms cell.

(** An opponent of [p] owns a cell with atoms within three rows and three
    columns of the headquarters [hq]. *)
Definition enemyNearHQ (grid : Grid) (hq : HQCell) (p : PLAYER) : Prop :=
  ∃ r c cell, Z.abs (r - hq_row hq) ≤ 3 ∧ Z.abs (c - hq_col hq) ≤ 3
              ∧ cellAt grid r c = Some cell ∧ isEnemy cell p = true
              ∧ 0 < atoms cell.

(** Row-major order on moves: the order in which the two nested loops of
    [getValidMoves] visit the cells. *)
Definition rowMajor (a b : AIMove) : Prop :=
  row a < row b ∨ (row a = row b ∧ col a < col b).

(** The number of atoms on the cells owned by [p]. *)
Definition material (grid : Grid) (p : PLAYER) : Z :=
  foldr Z.add 0 ((λ c, if ownedBy c p then atoms c else 0) <$> concat grid).

(** The loop of the maximizing branch of [minimax], the recursive call
    being [child newGrid alpha]. *)
Definition maxLoop (grid : Grid) (currentPlayer : PLAYER)
    (child : Grid → ext → result ext) (beta : ext)
  : list AIMove → ext → ext → result ext :=
  fix loop (moves : list AIMove) (maxEval alpha : ext) : result ext :=
    match moves with
    | [] => Ok maxEval
    | move :: moves' =>
        newGrid ← Rival.simulateMove grid (row move) (col move) currentPlayer;
        evaluation ← child newGrid alpha;
        let maxEval := ext_max maxEval evaluation in
        let alpha := ext_max alpha evaluation in
        if ext_le beta alpha then Ok maxEval
        else loop moves' maxEval alpha
    end.

(** The loop of the minimizing branch, the recursive call being
    [child newGrid beta]. *)
Definition minLoop (grid : Grid) (currentPlayer : PLAYER)
    (child : Grid → ext → result ext) (alpha : ext)
  : list AIMove → ext → ext → result ext :=
  fix loop (moves : list AIMove) (minEval beta : ext) : result ext :=
    match moves with
    | [] => Ok minEval
    | move :: moves' =>
        newGrid ← Rival.simulateMove grid (row move) (col move) currentPlayer;
        evaluation ← child newGrid beta;
        let minEval := ext_min minEval evaluation in
        let beta := ext_min beta evaluation in
        if ext_le beta alpha then Ok minEval
        else loop moves' minEval beta
    end.

(** The best of the values of all the children, [value newGrid] being the
    value of a child. *)
Definition bestOf (grid : Grid) (currentPlayer : PLAYER) (isMaximizing : bool)
    (value : Grid → result ext) : list AIMove → result ext :=
  fix best (moves : list AIMove) : result ext :=
    match moves with
    | [] => Ok (if isMaximizing then NegInf else PosInf)
    | move :: moves' =>
        newGrid ← Rival.simulateMove grid (row move) (col move) currentPlayer;
        value ← value newGrid;
        rest ← best moves';
        Ok (if isMaximizing then ext_max value rest else ext_min value rest)
    end.

(** What a search with the window from [alpha] to [beta] tells about the
    value [v] of the tree when it returns [r]: [r] is the value when it
    falls inside the window, a bound on it otherwise. *)
Definition prunedWithin (alpha beta r v : ext) : Prop :=
  (ext_le r alpha = true → ext_le v r = true)
  ∧ (ext_le beta r = true → ext_le r v = true)
  ∧ (ext_le r alpha = false → ext_le beta r = false → r = v).

(** ** Sample positions *)

Definition blueDot : GridCell := mkCell 1 (Some BLUE).

Definition redDot : GridCell := mkCell 1 (Some RED).

(** A 2x2 board on which every cell holds a blue atom. *)
Definition allBlue : Grid := [[blueDot; blueDot]; [blueDot; blueDot]].

(** A 3x3 board with a red atom in the corner and a blue one next to it. *)
Definition cornerDuel : Grid :=
  [[redDot; blueDot; emptyCell];
   [emptyCell; emptyCell; emptyCell];
   [emptyCell; emptyCell; emptyCell]].

(** A 3x3 board, empty but for one blue atom above the centre. *)
Definition blueAboveCentre : Grid :=
  [[emptyCell; blueDot; emptyCell];
   [emptyCell; emptyCell; emptyCell];
   [emptyCell; emptyCell; emptyCell]].

(** The two headquarters of a duel on a 3x3 board: red in the top-left
    corner, blue in the bottom-right one. *)
Definition duelHQs : list HQCell := [mkHQ 0 0 RED 5; mkHQ 2 2 BLUE 5].

(** A power-up on the top edge, next to the red headquarters. *)
Definition edgePowerUp : PowerUpCell := mkPowerUp 0 1 diamond.



(** The personality of the middle of the window sizes: [riskTaking] 0.5. *)
Definition moderate : Simple.AIPersonality :=
  Simple.mkPersonality 1 1 0.5 1 1 1 1.


(** The host's store: the 2x2 empty board, allocated cell by cell. *)
Definition hostStore : store := (allocGrid (emptyGrid 2 2) ∅).2.

(** The reference of that board in [hostStore]. *)
Definition hostGrid : loc :=
  match (allocGrid (emptyGrid 2 2) ∅).1 with Ok g => g | Throw => 1%positive end.

(** The board [cornerDuel] with the owners of the two atoms exchanged. *)
Definition cornerDuelSwapped : Grid :=
  [[blueDot; redDot; emptyCell];
   [emptyCell; emptyCell; emptyCell];
   [emptyCell; emptyCell; emptyCell]].

(** The first position of a duel in base mode: an empty 3x3 board, the
    two headquarters and a power-up next to the red one. *)
Definition duelOpening : GameState :=
  mkGameState (emptyGrid 3 3) RED true (Some duelHQs) (Some [edgePowerUp]).

(** ** Proof automation *)

(** Stepping through a computation known to have returned normally. *)
Ltac step_result H :=
  repeat (simpl in H;
          lazymatch type of H with
          | (?m ≫= _) = _ => destruct m eqn:?; simpl in H
          | (if ?b then _ else _) = _ => destruct b eqn:?
          | match ?x with _ => _ end = _ => destruct x eqn:?
          end; try discriminate H).

Ltac case_if H :=
  lazymatch type of H with
  | (if ?b then _ else _) = _ => destruct b eqn:?
  end.

(** The order on numbers with infinities is total: the facts the [order]
    tactic works from. *)
Module ExtOrder <: TotalOrder.
Definition t := ext.
Definition eq := @eq ext.
Definition lt (a b : ext) : Prop := ext_le b a = false.
Definition le (a b : ext) : Prop := ext_le a b = true.
Definition eq_equiv : Equivalence eq := eq_equivalence.
Lemma lt_strorder : StrictOrder lt.
Proof.
  split.
  - intros a. unfold complement, lt. destruct a; simpl; try done. lia.
  - intros a b c. unfold lt. destruct a, b, c; simpl; try done. lia.
Qed.
Lemma lt_compat : Proper (eq ==> eq ==> iff) lt.
Proof. by intros a a' -> b b' ->. Qed.
Lemma le_lteq (a b : ext) : le a b ↔ lt a b ∨ eq a b.
Proof.
  unfold le, lt, eq. destruct a as [|x|], b as [|y|]; simpl;
    try (split; [intros _; by right | done]);
    try (split; [intros _; by left | done]);
    try (split; [done | by intros [|]]).
  split.
  - intros H. destruct (decide (x = y)) as [->|]; [by right | left; lia].
  - intros [H|[= ->]]; lia.
Qed.
Lemma lt_total (a b : ext) : lt a b ∨ eq a b ∨ lt b a.
Proof.
  unfold lt, eq. destruct a as [|x|], b as [|y|]; simpl;
    try (by left); try (by right; left); try (by right; right).
  destruct (Z.lt_total x y) as [|[->|]];
    [left; lia | right; by left | right; right; lia].
Qed.
End ExtOrder.

Module ExtOrderTac := !MakeOrderTac ExtOrder ExtOrder.

(** Comparisons of numbers with infinities, decided from the comparisons
    in the context. *)
Ltac ext_order :=
  repeat match goal with
         | H : ext_le ?a ?b = true |- _ => change (ExtOrder.le a b) in H
         | H : ext_le ?a ?b = false |- _ => change (ExtOrder.lt b a) in H
         | H : @Logic.eq ext ?a ?b |- _ => change (ExtOrder.eq a b) in H
         end;
  try match goal with
  | |- ext_le ?a ?b = true => change (ExtOrder.le a b)
  | |- ext_le ?a ?b = false => change (ExtOrder.lt b a)
  | |- @Logic.eq ext ?a ?b => change (ExtOrder.eq a b)
  end;
  ExtOrderTac.order.

(** Unfolding [Math.max] and [Math.min] into the two cases of their
    comparison. *)
Ltac ext_cases :=
  unfold ext_max, ext_min in *;
  repeat match goal with
         | |- context [if ext_le ?a ?b then _ else _] =>
             destruct (ext_le a b) eqn:?
         | H : context [if ext_le ?a ?b then _ else _] |- _ =>
             destruct (ext_le a b) eqn:?
         end.

(** Using the implications of the context whose premise is a comparison. *)
Ltac ext_use :=
  repeat match goal with
         | H : ext_le ?a ?b = _ → _ |- _ =>
             destruct (ext_le a b) eqn:?;
             first [specialize (H eq_refl) | clear H]
         | H : true = true → _ |- _ => specialize (H eq_refl)
         | H : false = false → _ |- _ => specialize (H eq_refl)
         | H : true = false → _ |- _ => clear H
         | H : false = true → _ |- _ => clear H
         | H : _ ∧ _ |- _ => destruct H
         | H : _ ∨ _ |- _ => destruct H
         end.

Ltac ext_solve :=
  intros; ext_cases; ext_use; repeat split;
  first [done | ext_order | left; ext_order | right; ext_order].

(** * Properties *)

(** * Generic facts on the loops and the monads *)

Lemma forEach_invariant {A B} (P : B → Prop) (f : B → A → result B) l acc r :
  P acc → (∀ a x b, x ∈ l → P a → f a x = Ok b → P b) →
  forEach f l acc = Ok r → P r.
Proof.
  revert acc. induction l as [|x l IH]; intros acc Hacc Hstep Hr; simpl in Hr.
  - by injection Hr as <-.
  - destruct (f acc x) as [acc'|] eqn:Hf; [|done]. simpl in Hr.
    eapply IH; [| |done].
    + eapply Hstep; [|done..]. left.
    + intros a y b Hy. apply Hstep. by right.
Qed.

Lemma M_bind_Ok {P A B} (m : M P A) (k : A → M P B) w b w' :
  (m ≫= k) w = (Ok b, w') ↔ ∃ a w1, m w = (Ok a, w1) ∧ k a w1 = (Ok b, w').
Proof.
  unfold mbind, M_bind. destruct (m w) as [[a|] w1]; split.
  - intros Hk. by exists a, w1.
  - by intros (a' & w1' & [= -> ->] & Hk).
  - done.
  - by intros (a' & w1' & [=] & _).
Qed.

Lemma M_bind_run {P A B} (m : M P A) (k : A → M P B) w a w1 :
  m w = (Ok a, w1) → (m ≫= k) w = k a w1.
Proof. intros Hm. unfold mbind, M_bind. by rewrite Hm. Qed.

Lemma liftM_liftR {P A} (x : result A) (w : world P) :
  liftM (liftR x) w = (x, w).
Proof. by destruct w. Qed.

Lemma R_bind_Ok {A B} (m : R A) (k : A → R B) n b n' :
  (m ≫= k) n = (Ok b, n') ↔ ∃ a n1, m n = (Ok a, n1) ∧ k a n1 = (Ok b, n').
Proof.
  unfold mbind, R_bind. destruct (m n) as [[a|] n1]; split.
  - intros Hk. by exists a, n1.
  - by intros (a' & n1' & [= -> ->] & Hk).
  - done.
  - by intros (a' & n1' & [=] & _).
Qed.

Lemma liftM_Ok {P A} (m : R A) (w : world P) a w' :
  liftM m w = (Ok a, w') ↔
  ∃ n, m (calls w) = (Ok a, n) ∧ w' = mkWorld (personalities w) n.
Proof.
  unfold liftM. destruct (m (calls w)) as [r n]. split.
  - intros [= -> <-]. by exists n.
  - by intros (n' & [= -> ->] & ->).
Qed.

Lemma liftR_Ok {A} (m : result A) n a n' :
  liftR m n = (Ok a, n') ↔ m = Ok a ∧ n' = n.
Proof. unfold liftR. split; [by intros [= -> ->] | by intros [-> ->]]. Qed.

Lemma mapM_M_Forall2 {P A B} (Q : A → B → Prop) (f : A → M P B) l w r w' :
  (∀ x w1 y w2, x ∈ l → f x w1 = (Ok y, w2) → Q x y) →
  mapM f l w = (Ok r, w') → Forall2 Q l r.
Proof.
  revert w r. induction l as [|x l IH]; intros w r Hf Hr.
  - injection Hr as <- <-. constructor.
  - change (mapM f (x :: l)) with (y ← f x; k ← mapM f l; mret (y :: k)) in Hr.
    apply M_bind_Ok in Hr as (y & w1 & Hy & Hr).
    apply M_bind_Ok in Hr as (ys & w2 & Hys & Hr).
    injection Hr as <- <-. constructor.
    + eapply Hf; [left | done].
    + eapply IH; [|done]. intros ? ? ? ? ?. apply Hf. by right.
Qed.

Lemma elem_of_fromTo lo hi i : i ∈ fromTo lo hi ↔ lo ≤ i ≤ hi.
Proof.
  unfold fromTo. rewrite list_elem_of_fmap. setoid_rewrite elem_of_seq. split.
  - intros (n & -> & Hn). lia.
  - intros Hi. exists (Z.to_nat (i - lo)). lia.
Qed.

Lemma elem_of_window rlo rhi clo chi r c :
  (r, c) ∈ window rlo rhi clo chi ↔ rlo ≤ r ≤ rhi ∧ clo ≤ c ≤ chi.
Proof.
  unfold window. rewrite list_elem_of_bind. split.
  - intros (r' & Hc & Hr%elem_of_fromTo).
    apply list_elem_of_bind in Hc as (c' & Hrc & Hc%elem_of_fromTo).
    apply list_elem_of_singleton in Hrc as [= -> ->]. done.
  - intros [Hr Hc]. exists r. split; [|by apply elem_of_fromTo].
    apply list_elem_of_bind. exists c. split; [|by apply elem_of_fromTo].
    by apply list_elem_of_singleton.
Qed.

Lemma insertByScore_perm m l : insertByScore m l ≡ₚ m :: l.
Proof.
  induction l as [|m' l IH]; simpl; [done|].
  destruct (Qle_bool (score m') (score m)); [done|].
  rewrite IH. apply Permutation_swap.
Qed.

Lemma sortByScore_perm l : sortByScore l ≡ₚ l.
Proof.
  induction l as [|m l IH]; simpl; [done|].
  by rewrite insertByScore_perm, IH.
Qed.

Lemma deref_idx_elem_of {A} (a : list A) i x : deref (idx a i) = Ok x → x ∈ a.
Proof.
  unfold idx. case_decide; [|done].
  destruct (a !! Z.to_nat i) eqn:E; [|done]. intros [= ->].
  by eapply list_elem_of_lookup_2.
Qed.

(** ** The move validator *)

Section ValidatorFacts.
Context {U : GameUtils}.

Lemma idx_Some {A} (a : list A) i x : idx a i = Some x → 0 ≤ i < len a.
Proof.
  unfold idx, len. case_decide; [|done]. intros Hl%lookup_lt_Some. lia.
Qed.

Lemma idx_is_Some {A} (a : list A) i : 0 ≤ i < len a → is_Some (idx a i).
Proof.
  unfold idx, len. intros ?. rewrite decide_True by lia.
  apply lookup_lt_is_Some. lia.
Qed.

Lemma isValidMoveForAI_outOfBounds grid row col p mode hqs :
  outOfBounds grid row col → isValidMoveForAI grid row col p mode hqs = Ok false.
Proof.
  unfold outOfBounds, isValidMoveForAI, gridCols. intros Hb.
  destruct (row <? 0) eqn:E1; [done|].
  destruct (row >=? len grid) eqn:E2; [done|].
  destruct (col <? 0) eqn:E3; [done|]. simpl.
  destruct (idx_is_Some grid 0) as [row0 E0]; [lia|]. rewrite E0 in *. simpl in *.
  destruct (col >=? len row0) eqn:E4; [done|]. lia.
Qed.

Lemma isValidMoveForAI_inBounds grid row col p mode hqs b :
  isValidMoveForAI grid row col p mode hqs = Ok b → b = true →
  0 ≤ row < len grid ∧ 0 ≤ col < gridCols grid.
Proof.
  intros Hv ->.
  destruct (decide (outOfBounds grid row col)) as [Ho|Hn].
  - rewrite isValidMoveForAI_outOfBounds in Hv; done.
  - unfold outOfBounds in Hn. lia.
Qed.

Lemma idx_of_nat {A} (a : list A) (i : nat) : idx a (Z.of_nat i) = a !! i.
Proof. unfold idx. rewrite decide_True by lia. by rewrite Nat2Z.id. Qed.

Lemma elem_of_indexed {A} (a : list A) i x :
  (i, x) ∈ indexed a ↔ idx a i = Some x.
Proof.
  unfold indexed. rewrite elem_of_lookup_imap. split.
  - intros (n & y & [= -> ->] & Hn). by rewrite idx_of_nat.
  - intros Hi. pose proof (idx_Some _ _ _ Hi) as Hr. unfold idx in Hi.
    rewrite decide_True in Hi by lia.
    exists (Z.to_nat i), x. split; [f_equal; lia | done].
Qed.

Lemma anyCell_true f (grid : Grid) :
  anyCell f grid = true ↔
  ∃ r c cell, cellAt grid r c = Some cell ∧ f r c cell = true.
Proof.
  unfold anyCell, cellAt. rewrite existsb_exists. split.
  - intros ([r rw] & Hin & Hex).
    apply existsb_exists in Hex as ([c cell] & Hin' & Hf).
    apply list_elem_of_In, elem_of_indexed in Hin.
    apply list_elem_of_In, elem_of_indexed in Hin'.
    exists r, c, cell. by rewrite Hin.
  - intros (r & c & cell & Hc & Hf).
    destruct (idx grid r) as [rw|] eqn:Hr; [|done]. simpl in Hc.
    exists (r, rw). split; [by apply list_elem_of_In, elem_of_indexed|].
    apply existsb_exists. exists (c, cell).
    split; [by apply list_elem_of_In, elem_of_indexed | done].
Qed.

Lemma hasPlayerDots_false grid p :
  noPlayerDots grid p → hasPlayerDots grid p = false.
Proof.
  intros Hno. apply not_true_is_false. unfold hasPlayerDots.
  rewrite anyCell_true. intros (r & c & cell & Hc & Hd).
  unfold isPlayerDot, ownedBy in Hd.
  apply andb_true_iff in Hd as [Ho Ha]. apply bool_decide_eq_true in Ho.
  specialize (Hno r c cell Hc Ho). lia.
Qed.

Lemma noPlayerDots_iff grid p :
  noPlayerDots grid p ↔ hasPlayerDots grid p = false.
Proof.
  split; [apply hasPlayerDots_false|].
  intros Hf r c cell Hc Hp.
  destruct (decide (atoms cell ≤ 0)) as [|Hgt]; [done|]. exfalso.
  apply not_true_iff_false in Hf. apply Hf. unfold hasPlayerDots.
  apply anyCell_true. exists r, c, cell. split; [done|].
  unfold isPlayerDot, ownedBy. rewrite bool_decide_eq_true_2 by done. simpl. lia.
Qed.

Lemma isHQCell_true hqs row col :
  isHQCell hqs row col = true ↔ ∃ hq, hq ∈ hqs ∧ hq_row hq = row ∧ hq_col hq = col.
Proof.
  unfold isHQCell. rewrite existsb_exists. setoid_rewrite list_elem_of_In.
  split; intros (hq & Hin & Hq); exists hq; (split; [done|]); lia.
Qed.

(** [C2] Legality soundness.  [isValidMoveForAI] answers [false] for
    every coordinate outside the grid; in base mode, for every coordinate
    on which some headquarters of the list sits, whoever owns it; and in
    classic mode, for every cell owned by a player other than the current
    one. *)
Theorem isValidMoveForAI_sound grid row col currentPlayer isBaseMode hqs :
  (outOfBounds grid row col →
     isValidMoveForAI grid row col currentPlayer isBaseMode hqs = Ok false)
  ∧ (isBaseMode = true →
     (∃ hs hq, hqs = Some hs ∧ hq ∈ hs ∧ hq_row hq = row ∧ hq_col hq = col) →
     isValidMoveForAI grid row col currentPlayer isBaseMode hqs = Ok false)
  ∧ (isBaseMode = false →
     (∃ cell other, cellAt grid row col = Some cell ∧ player cell = Some other
                    ∧ other ≠ currentPlayer) →
     isValidMoveForAI grid row col currentPlayer isBaseMode hqs = Ok false).
Proof.
  split; [apply isValidMoveForAI_outOfBounds|].
  split.
  - intros -> (hs & hq & -> & Hin & Hr & Hc).
    destruct (decide (outOfBounds grid row col)) as [Ho|Hn];
      [by apply isValidMoveForAI_outOfBounds|].
    unfold outOfBounds, gridCols in Hn. unfold isValidMoveForAI.
    destruct (idx_is_Some grid 0) as [row0 E0]; [lia|].
    destruct (idx_is_Some grid row) as [gridRow Er]; [lia|].
    rewrite E0, Er in *. simpl in *.
    assert (isHQCell hs row col = true) as -> by (apply isHQCell_true; eauto).
    repeat case_match; done.
  - intros -> (cell & other & Hcell & Hp & Hne).
    destruct (decide (outOfBounds grid row col)) as [Ho|Hn];
      [by apply isValidMoveForAI_outOfBounds|].
    unfold outOfBounds, gridCols in Hn. unfold isValidMoveForAI.
    destruct (idx_is_Some grid 0) as [row0 E0]; [lia|].
    unfold cellAt in Hcell.
    destruct (idx grid row) as [gridRow|] eqn:Er; [|done].
    rewrite E0 in *. simpl in *. rewrite Hcell. simpl.
    unfold ownedBy. rewrite Hp.
    rewrite !bool_decide_eq_false_2 by congruence.
    repeat case_match; done.
Qed.

(** [C3] First-move restriction.  In base mode, when the current player
    has a headquarters in the list and owns no cell with atoms on the grid,
    a coordinate is approved only if it lies on the row or on the column
    of that headquarters. *)
Theorem isValidMoveForAI_first_move grid row col currentPlayer hqs playerHQ :
  findHQ hqs currentPlayer = Some playerHQ →
  noPlayerDots grid currentPlayer →
  isValidMoveForAI grid row col currentPlayer true (Some hqs) = Ok true →
  row = hq_row playerHQ ∨ col = hq_col playerHQ.
Proof.
  intros Hhq Hno%hasPlayerDots_false Hv. unfold isValidMoveForAI in Hv.
  simpl in Hv. rewrite Hhq, Hno in Hv. simpl in Hv.
  step_result Hv. injection Hv as Hv. lia.
Qed.

End ValidatorFacts.

(** ** The personality store *)

Section StoreFacts.
Context {U : GameUtils} {E : Entropy}.

Lemma Simple_generate_ok n :
  ∃ p, Simple.generateAIPersonality n = (Ok p, (7 + n)%nat).
Proof.
  eexists. reflexivity.
Qed.

Lemma Rival_fresh_ok player n :
  ∃ p, Rival.freshPersonality player n = (Ok p, (9 + n)%nat).
Proof.
  eexists. unfold Rival.freshPersonality, Rival.generateAIPersonality,
    randomIndex, random, mbind, R_bind, mret, R_ret. simpl. reflexivity.
Qed.

Lemma Simple_getPersonality_hit player w p :
  personalities w !! player = Some p →
  Simple.getPersonality player w = (Ok p, w).
Proof. intros Hlk. unfold Simple.getPersonality. by rewrite Hlk. Qed.

Lemma Simple_getPersonality_miss player w :
  personalities w !! player = None →
  ∃ p n, Simple.generateAIPersonality (calls w) = (Ok p, n)
    ∧ Simple.getPersonality player w
      = (Ok p, mkWorld (<[player := p]> (personalities w)) n).
Proof.
  intros Hlk. destruct (Simple_generate_ok (calls w)) as [p Hp].
  exists p, (7 + calls w)%nat. split; [done|].
  unfold Simple.getPersonality. by rewrite Hlk, Hp.
Qed.

Lemma Rival_getPersonality_hit player w p :
  personalities w !! player = Some p →
  Rival.getPersonality player w = (Ok p, w).
Proof. intros Hlk. unfold Rival.getPersonality. by rewrite Hlk. Qed.

Lemma Rival_getPersonality_miss player w :
  personalities w !! player = None →
  ∃ p n, Rival.freshPersonality player (calls w) = (Ok p, n)
    ∧ Rival.getPersonality player w
      = (Ok p, mkWorld (<[player := p]> (personalities w)) n).
Proof.
  intros Hlk. destruct (Rival_fresh_ok player (calls w)) as [p Hp].
  exists p, (9 + calls w)%nat. split; [done|].
  unfold Rival.getPersonality. by rewrite Hlk, Hp.
Qed.

Lemma Simple_getPersonality_cached player w :
  ∃ p w', Simple.getPersonality player w = (Ok p, w')
          ∧ personalities w' !! player = Some p.
Proof.
  destruct (personalities w !! player) as [p|] eqn:Hlk.
  - exists p, w. by rewrite (Simple_getPersonality_hit _ _ _ Hlk).
  - destruct (Simple_getPersonality_miss _ _ Hlk) as (p & n & _ & ->).
    eexists _, _. split; [done|]. apply lookup_insert_eq.
Qed.

Lemma Rival_getPersonality_cached player w :
  ∃ p w', Rival.getPersonality player w = (Ok p, w')
          ∧ personalities w' !! player = Some p.
Proof.
  destruct (personalities w !! player) as [p|] eqn:Hlk.
  - exists p, w. by rewrite (Rival_getPersonality_hit _ _ _ Hlk).
  - destruct (Rival_getPersonality_miss _ _ Hlk) as (p & n & _ & ->).
    eexists _, _. split; [done|]. apply lookup_insert_eq.
Qed.

(** [C6] Personality stability.  A second call to [getPersonality] for the
    same player returns the same traits and the same table as the first;
    [resetPersonalities] empties the table, and the next call creates a
    new entry from the random source. *)
Theorem personality_stable (player : PLAYER) :
  (∀ w, Simple.getPersonality player (Simple.getPersonality player w).2
        = Simple.getPersonality player w
      ∧ ∃ p, (Simple.getPersonality player w).1 = Ok p)
  ∧ (∀ w, Rival.getPersonality player (Rival.getPersonality player w).2
        = Rival.getPersonality player w
      ∧ ∃ p, (Rival.getPersonality player w).1 = Ok p)
  ∧ (∀ w : world Simple.AIPersonality,
       personalities (resetPersonalities w) = ∅
       ∧ ∃ p n, Simple.generateAIPersonality (calls w) = (Ok p, n)
           ∧ Simple.getPersonality player (resetPersonalities w)
             = (Ok p, mkWorld {[player := p]} n))
  ∧ (∀ w : world Rival.AIPersonality,
       personalities (resetPersonalities w) = ∅
       ∧ ∃ p n, Rival.freshPersonality player (calls w) = (Ok p, n)
           ∧ Rival.getPersonality player (resetPersonalities w)
             = (Ok p, mkWorld {[player := p]} n)).
Proof.
  repeat split.
  - destruct (Simple_getPersonality_cached player w) as (p & w' & -> & Hlk).
    apply (Simple_getPersonality_hit _ _ _ Hlk).
  - destruct (Simple_getPersonality_cached player w) as (p & w' & -> & Hlk).
    by exists p.
  - destruct (Rival_getPersonality_cached player w) as (p & w' & -> & Hlk).
    apply (Rival_getPersonality_hit _ _ _ Hlk).
  - destruct (Rival_getPersonality_cached player w) as (p & w' & -> & Hlk).
    by exists p.
  - destruct (Simple_getPersonality_miss player (resetPersonalities w))
      as (p & n & Hg & Hp); [apply lookup_empty|].
    exists p, n. split; [done|]. rewrite Hp. simpl. by rewrite insert_empty.
  - destruct (Rival_getPersonality_miss player (resetPersonalities w))
      as (p & n & Hg & Hp); [apply lookup_empty|].
    exists p, n. split; [done|]. rewrite Hp. simpl. by rewrite insert_empty.
Qed.

End StoreFacts.

(** ** Rounding to the nearest double *)

Lemma pow2_pos e : (0 < 2 ^ e)%Q.
Proof. by apply Qpower_0_lt. Qed.

Lemma pow2_plus a b : (2 ^ (a + b) == 2 ^ a * 2 ^ b)%Q.
Proof. by apply Qpower_plus. Qed.

Lemma pow2_lt a b : a < b → (2 ^ a < 2 ^ b)%Q.
Proof. intros. by apply Qpower_lt_compat_l. Qed.

Lemma pow2_le a b : a ≤ b → (2 ^ a <= 2 ^ b)%Q.
Proof. intros. by apply Qpower_le_compat_l. Qed.

Lemma pow2_lt_inv a b : (2 ^ a < 2 ^ b)%Q → a < b.
Proof. intros. by eapply Qpower_lt_compat_l_inv. Qed.

Lemma pow2_inject n : 0 ≤ n → (2 ^ n == inject_Z (2 ^ n))%Q.
Proof. intros. symmetry. by apply (Zpower_Qpower 2). Qed.

Lemma pow2_cancel a : (2 ^ a * 2 ^ (- a) == 1)%Q.
Proof. rewrite <- pow2_plus. by rewrite Z.add_opp_diag_r. Qed.

Lemma ilog2_spec x : (0 < x)%Q → (2 ^ ilog2 x <= x)%Q ∧ (x < 2 ^ (ilog2 x + 1))%Q.
Proof.
  intros Hx. unfold ilog2.
  destruct x as [a b]. assert (0 < a) as Ha by (unfold Qlt in Hx; simpl in Hx; lia).
  cbn [Qnum Qden].
  set (la := Z.log2 a). set (lb := Z.log2 (Z.pos b)). set (d := la - lb).
  destruct (Z.log2_spec a Ha) as [Ha1 Ha2]. fold la in Ha1, Ha2.
  destruct (Z.log2_spec (Z.pos b) ltac:(lia)) as [Hb1 Hb2]. fold lb in Hb1, Hb2.
  pose proof (Z.log2_nonneg a) as Hla. fold la in Hla.
  pose proof (Z.log2_nonneg (Z.pos b)) as Hlb. fold lb in Hlb.
  assert (a # b == inject_Z a / inject_Z (Z.pos b))%Q as Hab by apply Qmake_Qdiv.
  assert (0 < inject_Z (Z.pos b))%Q as Hbpos by (unfold Qlt; simpl; lia).
  assert (a # b < 2 ^ (d + 1))%Q as Hup.
  { rewrite Hab. apply Qlt_shift_div_r; [done|].
    apply Qlt_le_trans with (inject_Z (2 ^ (la + 1))).
    { rewrite <- Zlt_Qlt. done. }
    rewrite <- pow2_inject by lia.
    replace (la + 1) with ((d + 1) + lb) by lia. rewrite (pow2_plus (d + 1) lb).
    apply Qmult_le_l; [apply pow2_pos|].
    rewrite pow2_inject by lia. rewrite <- Zle_Qle. done. }
  assert (2 ^ (d - 1) <= a # b)%Q as Hlow.
  { rewrite Hab. apply Qle_shift_div_l; [done|].
    apply Qle_trans with (inject_Z (2 ^ la)).
    2:{ rewrite <- Zle_Qle. done. }
    rewrite <- pow2_inject by lia.
    replace (2 ^ la)%Q with (2 ^ ((d - 1) + (lb + 1)))%Q by (f_equal; lia). rewrite (pow2_plus (d - 1) (lb + 1)).
    apply Qmult_le_l; [apply pow2_pos|].
    rewrite pow2_inject by lia. rewrite <- Zle_Qle. lia. }
  destruct (Qle_bool (2 ^ d) (a # b)) eqn:Hd.
  - apply Qle_bool_iff in Hd. done.
  - split; [done|]. replace (d - 1 + 1) with d by lia.
    apply Qnot_le_lt. intros Hle. apply Qle_bool_iff in Hle. congruence.
Qed.

Lemma ilog2_unique x e :
  (2 ^ e <= x)%Q → (x < 2 ^ (e + 1))%Q → ilog2 x = e.
Proof.
  intros H1 H2.
  assert (0 < x)%Q as Hx by (eapply Qlt_le_trans; [apply pow2_pos | exact H1]).
  destruct (ilog2_spec x Hx) as [H3 H4].
  assert (e < ilog2 x + 1).
  { apply pow2_lt_inv. eapply Qle_lt_trans; eassumption. }
  assert (ilog2 x < e + 1).
  { apply pow2_lt_inv. eapply Qle_lt_trans; eassumption. }
  lia.
Qed.

Lemma ilog2_mono x y : (0 < x)%Q → (x <= y)%Q → ilog2 x ≤ ilog2 y.
Proof.
  intros Hx Hxy.
  assert (0 < y)%Q as Hy by (eapply Qlt_le_trans; eassumption).
  destruct (ilog2_spec x Hx) as [H1 _]. destruct (ilog2_spec y Hy) as [_ H2].
  assert (ilog2 x < ilog2 y + 1); [|lia].
  apply pow2_lt_inv. eapply Qle_lt_trans; [|exact H2].
  eapply Qle_trans; eassumption.
Qed.

(** ** Rounding to the nearest integer *)

Lemma roundEven_cases q :
  let f := Qfloor q in
  (roundEven q = f ∧ (q - inject_Z f <= 1 # 2)%Q)
  ∨ (roundEven q = f + 1 ∧ (1 # 2 <= q - inject_Z f)%Q).
Proof.
  intros f. unfold roundEven. fold f.
  destruct (q - inject_Z f ?= 1 # 2)%Q eqn:Hc.
  - apply Qeq_alt in Hc. destruct (Z.even f).
    + left. split; [done|]. rewrite Hc. apply Qle_refl.
    + right. split; [done|]. rewrite Hc. apply Qle_refl.
  - apply Qlt_alt in Hc. left. split; [done|]. by apply Qlt_le_weak.
  - apply Qgt_alt in Hc. right. split; [done|]. by apply Qlt_le_weak.
Qed.

Lemma roundEven_near q :
  (q - (1 # 2) <= inject_Z (roundEven q))%Q
  ∧ (inject_Z (roundEven q) <= q + (1 # 2))%Q.
Proof.
  pose proof (Qfloor_le q) as Hf1. pose proof (Qlt_floor q) as Hf2.
  rewrite inject_Z_plus in Hf2. change (inject_Z 1) with 1%Q in Hf2.
  destruct (roundEven_cases q) as [[-> Hr]|[-> Hr]].
  - split; lra.
  - rewrite inject_Z_plus. change (inject_Z 1) with 1%Q. split; lra.
Qed.

Lemma roundEven_Z q z : (q == inject_Z z)%Q → roundEven q = z.
Proof.
  intros Hq.
  assert (Qfloor q = z) as Hf by (rewrite (Qfloor_comp _ _ Hq); apply Qfloor_Z).
  destruct (roundEven_cases q) as [[-> Hr]|[-> Hr]]; [done|].
  rewrite Hf in Hr. lra.
Qed.

Lemma roundEven_mono q q' : (q <= q')%Q → roundEven q ≤ roundEven q'.
Proof.
  intros Hq.
  pose proof (Qfloor_resp_le _ _ Hq) as Hf.
  destruct (decide (Qfloor q < Qfloor q')) as [Hlt|Hge].
  - destruct (roundEven_cases q) as [[-> _]|[-> _]];
      destruct (roundEven_cases q') as [[-> _]|[-> _]]; lia.
  - assert (Qfloor q' = Qfloor q) as Heq by lia.
    unfold roundEven. rewrite Heq.
    destruct (q - inject_Z (Qfloor q) ?= 1 # 2)%Q eqn:Hc;
      destruct (q' - inject_Z (Qfloor q) ?= 1 # 2)%Q eqn:Hc';
      try (destruct (Z.even (Qfloor q))); try lia;
      rewrite <- ?Qeq_alt, <- ?Qlt_alt, <- ?Qgt_alt in *; lra.
Qed.

(** ** The nearest double *)

Lemma ulp_pos x : (0 < ulp x)%Q.
Proof. apply pow2_pos. Qed.

Lemma double_pos_eq x :
  (0 < x)%Q → double x = (ulp x * inject_Z (roundEven (x / ulp x)))%Q.
Proof.
  intros Hx. unfold double.
  assert ((x ?= 0)%Q = Gt) as ->; [|done]. by apply Qgt_alt.
Qed.

Lemma double_zero_eq x : (x == 0)%Q → double x = 0%Q.
Proof.
  intros Hx. unfold double.
  assert ((x ?= 0)%Q = Eq) as ->; [|done]. by apply Qeq_alt.
Qed.

Lemma double_neg_eq x : (x < 0)%Q → double x = (- double (- x))%Q.
Proof.
  intros Hx. unfold double at 1.
  assert ((x ?= 0)%Q = Lt) as -> by (by apply Qlt_alt).
  rewrite (double_pos_eq (- x)) by lra. done.
Qed.

Lemma div_ulp_mono x y u : (0 < u)%Q → (x <= y)%Q → (x / u <= y / u)%Q.
Proof.
  intros Hu Hxy. unfold Qdiv. apply Qmult_le_compat_r; [done|].
  apply Qlt_le_weak, Qinv_lt_0_compat, Hu.
Qed.

Lemma mult_div_cancel x u : (0 < u)%Q → (u * (x / u) == x)%Q.
Proof. intros Hu. apply Qmult_div_r. lra. Qed.

Lemma roundEven_nonneg q : (0 <= q)%Q → 0 ≤ roundEven q.
Proof.
  intros Hq. rewrite <- (roundEven_Z 0 0) by reflexivity.
  by apply roundEven_mono.
Qed.

Lemma roundEven_le_Z q z : (q <= inject_Z z)%Q → roundEven q ≤ z.
Proof.
  intros Hq. rewrite <- (roundEven_Z (inject_Z z) z) by reflexivity.
  by apply roundEven_mono.
Qed.

Lemma roundEven_ge_Z q z : (inject_Z z <= q)%Q → z ≤ roundEven q.
Proof.
  intros Hq. rewrite <- (roundEven_Z (inject_Z z) z) at 1 by reflexivity.
  by apply roundEven_mono.
Qed.

Lemma double_pos_nonneg x : (0 < x)%Q → (0 <= double x)%Q.
Proof.
  intros Hx. rewrite double_pos_eq by done.
  apply Qmult_le_0_compat; [apply Qlt_le_weak, ulp_pos|].
  change 0%Q with (inject_Z 0). rewrite <- Zle_Qle. apply roundEven_nonneg.
  apply Qle_shift_div_l; [apply ulp_pos|]. lra.
Qed.

(** The binade of a positive number: its exponent, raised to that of the
    smallest normal numbers. *)
Lemma binade_upper x :
  (0 < x)%Q → (x < 2 ^ (Z.max (ilog2 x) (-1022) + 1))%Q.
Proof.
  intros Hx. destruct (ilog2_spec x Hx) as [_ H].
  eapply Qlt_le_trans; [exact H|]. apply pow2_le. lia.
Qed.

Lemma double_pos_upper x :
  (0 < x)%Q → (double x <= 2 ^ (Z.max (ilog2 x) (-1022) + 1))%Q.
Proof.
  intros Hx. rewrite double_pos_eq by done. unfold ulp.
  set (e := Z.max (ilog2 x) (-1022)).
  pose proof (binade_upper x Hx) as Hup. fold e in Hup.
  assert (roundEven (x / 2 ^ (e - 52)) ≤ 2 ^ 53) as Hr.
  { apply roundEven_le_Z. rewrite <- pow2_inject by lia.
    apply Qle_shift_div_r; [apply pow2_pos|].
    rewrite <- (pow2_plus 53 (e - 52)).
    replace (53 + (e - 52)) with (e + 1) by lia. by apply Qlt_le_weak. }
  apply Qle_trans with (2 ^ (e - 52) * inject_Z (2 ^ 53))%Q.
  - apply Qmult_le_l; [apply pow2_pos|]. by rewrite <- Zle_Qle.
  - rewrite <- pow2_inject by lia. rewrite <- (pow2_plus (e - 52) 53).
    replace (e - 52 + 53) with (e + 1) by lia. apply Qle_refl.
Qed.

Lemma double_pos_lower x :
  (0 < x)%Q → -1022 ≤ ilog2 x → (2 ^ ilog2 x <= double x)%Q.
Proof.
  intros Hx He. rewrite double_pos_eq by done. unfold ulp.
  rewrite Z.max_l by lia. set (e := ilog2 x).
  destruct (ilog2_spec x Hx) as [Hlo _]. fold e in Hlo.
  assert (2 ^ 52 ≤ roundEven (x / 2 ^ (e - 52))) as Hr.
  { apply roundEven_ge_Z. rewrite <- pow2_inject by lia.
    apply Qle_shift_div_l; [apply pow2_pos|].
    rewrite <- (pow2_plus 52 (e - 52)).
    replace (52 + (e - 52)) with e by lia. done. }
  apply Qle_trans with (2 ^ (e - 52) * inject_Z (2 ^ 52))%Q.
  - rewrite <- pow2_inject by lia. rewrite <- (pow2_plus (e - 52) 52).
    replace (e - 52 + 52) with e by lia. apply Qle_refl.
  - apply Qmult_le_l; [apply pow2_pos|]. by rewrite <- Zle_Qle.
Qed.

Lemma double_pos_mono x y : (0 < x)%Q → (x <= y)%Q → (double x <= double y)%Q.
Proof.
  intros Hx Hxy.
  assert (0 < y)%Q as Hy by (eapply Qlt_le_trans; eassumption).
  pose proof (ilog2_mono x y Hx Hxy) as He.
  destruct (decide (Z.max (ilog2 x) (-1022) = Z.max (ilog2 y) (-1022))) as [Heq|Hne].
  - rewrite !double_pos_eq by done. unfold ulp. rewrite Heq.
    apply Qmult_le_l; [apply pow2_pos|]. rewrite <- Zle_Qle.
    apply roundEven_mono, div_ulp_mono; [apply pow2_pos|done].
  - eapply Qle_trans; [by apply double_pos_upper|].
    eapply Qle_trans; [|apply double_pos_lower; [done|lia]].
    apply pow2_le. lia.
Qed.

Lemma double_nonneg x : (0 <= x)%Q → (0 <= double x)%Q.
Proof.
  intros Hx. destruct (Qlt_le_dec 0 x) as [Hpos|Hle].
  - by apply double_pos_nonneg.
  - rewrite double_zero_eq by lra. apply Qle_refl.
Qed.

Lemma double_nonpos x : (x <= 0)%Q → (double x <= 0)%Q.
Proof.
  intros Hx. destruct (Qlt_le_dec x 0) as [Hneg|Hle].
  - rewrite double_neg_eq by done.
    pose proof (double_pos_nonneg (- x) ltac:(lra)). lra.
  - rewrite double_zero_eq by lra. apply Qle_refl.
Qed.

(** Rounding never reverses the order of two numbers. *)
Lemma double_mono x y : (x <= y)%Q → (double x <= double y)%Q.
Proof.
  intros Hxy. destruct (Qlt_le_dec 0 x) as [Hx|Hx].
  - by apply double_pos_mono.
  - destruct (Qlt_le_dec y 0) as [Hy|Hy].
    + rewrite (double_neg_eq x), (double_neg_eq y) by lra.
      pose proof (double_pos_mono (- y) (- x) ltac:(lra) ltac:(lra)). lra.
    + pose proof (double_nonpos x Hx). pose proof (double_nonneg y Hy). lra.
Qed.

Lemma double_comp x y : (x == y)%Q → (double x == double y)%Q.
Proof.
  intros Hxy. apply Qle_antisym; apply double_mono; rewrite Hxy; apply Qle_refl.
Qed.


(** A number at least one unit in the last place below an integer bound
    rounds to a double below that bound. *)
Lemma double_below x j :
  (0 <= x)%Q → (1 <= j)%Q → (x <= j * (1 - 2 ^ (-53)))%Q → (double x < j)%Q.
Proof.
  intros Hx Hj Hxj. pose proof (pow2_pos (-53)) as Heps.
  assert (x < j)%Q as Hlt.
  { eapply Qle_lt_trans; [exact Hxj|].
    assert (0 < j * 2 ^ (-53))%Q by (apply Qmult_lt_0_compat; lra). lra. }
  destruct (Qlt_le_dec 0 x) as [Hpos|Hle].
  2:{ rewrite double_zero_eq by lra. lra. }
  rewrite double_pos_eq by done.
  set (e := Z.max (ilog2 x) (-1022)).
  assert (2 ^ e < j)%Q as He.
  { destruct (ilog2_spec x Hpos) as [Hlo _]. unfold e.
    destruct (Z.max_spec (ilog2 x) (-1022)) as [[_ ->]|[_ ->]].
    - eapply Qlt_le_trans; [|exact Hj]. by vm_compute.
    - eapply Qle_lt_trans; eassumption. }
  assert (ulp x == 2 ^ e * (2 * 2 ^ (-53)))%Q as Hu.
  { unfold ulp. fold e. change (2 * 2 ^ (-53))%Q with (2 ^ 1 * 2 ^ (-53))%Q.
    rewrite <- (pow2_plus 1 (-53)), <- (pow2_plus e (1 + -53)).
    replace (e + (1 + -53)) with (e - 52) by lia. reflexivity. }
  destruct (roundEven_near (x / ulp x)) as [_ Hnear].
  apply Qle_lt_trans with (ulp x * (x / ulp x + (1 # 2)))%Q.
  { apply Qmult_le_l; [apply ulp_pos|done]. }
  rewrite Qmult_plus_distr_r, mult_div_cancel by apply ulp_pos.
  rewrite Hu.
  assert (2 ^ e * 2 ^ (-53) < j * 2 ^ (-53))%Q by (apply Qmult_lt_compat_r; lra).
  lra.
Qed.

(** The doubles of the unit interval end one unit in the last place
    below [1]. *)
Lemma unit_double_below u :
  (0 <= u)%Q → (u < 1)%Q → (double u == u)%Q → (u <= 1 - 2 ^ (-53))%Q.
Proof.
  intros H0 H1 Hd.
  destruct (Qlt_le_dec u (1 # 2)) as [Hsmall|Hbig].
  { eapply Qle_trans; [apply Qlt_le_weak, Hsmall|]. by vm_compute. }
  assert (0 < u)%Q as Hpos by lra.
  assert (ilog2 u = -1) as He by (apply ilog2_unique; [exact Hbig|exact H1]).
  rewrite double_pos_eq in Hd by done. unfold ulp in Hd.
  rewrite He in Hd. change (Z.max (-1) (-1022) - 52) with (-53) in Hd.
  set (N := roundEven (u / 2 ^ (-53))) in *.
  assert (N < 2 ^ 53) as HN.
  { rewrite Zlt_Qlt. apply Qmult_lt_l with (2 ^ (-53))%Q; [apply pow2_pos|].
    rewrite Hd. eapply Qlt_le_trans; [exact H1|]. by vm_compute. }
  assert (N ≤ 2 ^ 53 - 1) as HN' by lia.
  rewrite <- Hd. apply Qle_trans with (2 ^ (-53) * inject_Z (2 ^ 53 - 1))%Q.
  - apply Qmult_le_l; [apply pow2_pos|]. by rewrite <- Zle_Qle.
  - by vm_compute.
Qed.

(** ** The final selection among the top candidates *)

Lemma inject_Z_pos (k : Z) : 0 < k → (0 < inject_Z k)%Q.
Proof. intros. unfold Qlt. simpl. lia. Qed.


Lemma inject_Z_ge_1 (k : Z) : 1 ≤ k → (1 <= inject_Z k)%Q.
Proof. intros. unfold Qle. simpl. lia. Qed.


Lemma unitRoundoff_range : (0 < unitRoundoff)%Q ∧ (unitRoundoff < 1)%Q.
Proof. by vm_compute. Qed.

Lemma unitDouble_spec (u : Q) :
  unitDouble u = true → (0 <= u)%Q ∧ (u <= 1 - unitRoundoff)%Q.
Proof.
  unfold unitDouble. rewrite !andb_true_iff, negb_true_iff.
  intros [[H0 H1] Hd]. apply Qle_bool_iff in H0. apply Qeq_bool_iff in Hd.
  assert (u < 1)%Q as H1'.
  { apply Qnot_le_lt. intros Hle. apply Qle_bool_iff in Hle. congruence. }
  split; [done|]. by apply unit_double_below.
Qed.

(** The index [Math.floor(u * k)] of a draw [u] stays below [k]. *)
Lemma index_range (u : Q) (k : Z) :
  unitDouble u = true → 1 ≤ k → 0 ≤ Qfloor (fmul u (inject_Z k)) < k.
Proof.
  intros Hu Hk. apply unitDouble_spec in Hu as [H0 H1].
  pose proof (inject_Z_ge_1 k Hk) as Hk'. unfold fmul.
  assert (0 <= u * inject_Z k)%Q as Hx by (apply Qmult_le_0_compat; lra).
  split.
  - change 0 with (Qfloor 0). apply Qfloor_resp_le. by apply double_nonneg.
  - rewrite Zlt_Qlt. eapply Qle_lt_trans; [apply Qfloor_le|].
    apply double_below; [done..|]. rewrite (Qmult_comm u).
    apply Qmult_le_l; [lra | exact H1].
Qed.



Section Selection.
Context {U : GameUtils} {E : Entropy}.







End Selection.

(** ** Ranking by score *)



Section Ranked.
Context {U : GameUtils} {E : Entropy}.




End Ranked.

Section Selection.
Context {U : GameUtils} {E : Entropy}.


End Selection.

(** ** From the legal moves to the selected move *)

Section Pipeline.
Context {U : GameUtils} {E : Entropy}.

Lemma validMoves_loop grid p mode hqs cells acc moves :
  forEach (λ moves '(row, col),
    valid ← isValidMoveForAI grid row col p mode hqs;
    Ok (if valid : bool then moves ++ [mkMove row col 0] else moves)) cells acc
  = Ok moves →
  moves = acc ++ ((λ rc, mkMove rc.1 rc.2 0) <$> filter (legalCell grid p mode hqs) cells).
Proof.
  revert acc. induction cells as [|[r c] cells IH]; intros acc Hr; simpl in Hr.
  - injection Hr as <-. by rewrite app_nil_r.
  - destruct (isValidMoveForAI grid r c p mode hqs) as [[]|] eqn:Hv;
      simpl in Hr; [| |done].
    + apply IH in Hr as ->. rewrite filter_cons_True by done.
      by rewrite <- app_assoc.
    + apply IH in Hr as ->. rewrite filter_cons_False; [done|].
      unfold legalCell. simpl. by rewrite Hv.
Qed.

Lemma validMoves_loop_total grid p mode hqs cells acc :
  (∀ r c, (r, c) ∈ cells → isValidMoveForAI grid r c p mode hqs ≠ Throw) →
  ∃ moves,
  forEach (λ moves '(row, col),
    valid ← isValidMoveForAI grid row col p mode hqs;
    Ok (if valid : bool then moves ++ [mkMove row col 0] else moves)) cells acc
  = Ok moves.
Proof.
  revert acc. induction cells as [|[r c] cells IH]; intros acc Hn; simpl.
  - by eexists.
  - destruct (isValidMoveForAI grid r c p mode hqs) as [b|] eqn:Hv.
    + simpl. apply IH. intros r' c' Hin. apply Hn. by right.
    + exfalso. eapply Hn; [left | done].
Qed.

Lemma Rival_getValidMoves_legal grid p mode hqs moves m :
  Rival.getValidMoves grid p mode hqs = Ok moves → m ∈ moves →
  legal grid p mode hqs m ∧ score m = 0%Q.
Proof.
  intros Hm%validMoves_loop Hin. subst moves. simpl in Hin.
  apply list_elem_of_fmap in Hin as ([r c] & -> & Hin).
  apply list_elem_of_filter in Hin as [Hl _]. done.
Qed.

Lemma Rival_getValidMoves_complete grid p mode hqs moves r c :
  Rival.getValidMoves grid p mode hqs = Ok moves →
  isValidMoveForAI grid r c p mode hqs = Ok true →
  mkMove r c 0 ∈ moves.
Proof.
  intros Hm%validMoves_loop Hv. subst moves. simpl.
  apply list_elem_of_fmap. exists (r, c). split; [done|].
  apply list_elem_of_filter. split; [done|].
  apply elem_of_window.
  pose proof (isValidMoveForAI_inBounds _ _ _ _ _ _ _ Hv eq_refl). lia.
Qed.

Lemma Rival_getValidMoves_none grid p mode hqs :
  (∀ r c, isValidMoveForAI grid r c p mode hqs = Ok false) →
  Rival.getValidMoves grid p mode hqs = Ok [].
Proof.
  intros Hf.
  destruct (validMoves_loop_total grid p mode hqs
              (window 0 (len grid - 1) 0 (gridCols grid - 1)) [])
    as [moves Hm].
  { intros r c _. by rewrite Hf. }
  unfold Rival.getValidMoves. rewrite Hm. f_equal.
  apply validMoves_loop in Hm as ->. simpl.
  destruct (filter _ _) as [|[r c] l] eqn:Hfl; [done|].
  assert ((r, c) ∈ filter (legalCell grid p mode hqs)
            (window 0 (len grid - 1) 0 (gridCols grid - 1))) as Hin
    by (rewrite Hfl; left).
  apply list_elem_of_filter in Hin as [Hl _].
  unfold legalCell in Hl. simpl in Hl. by rewrite Hf in Hl.
Qed.

Lemma cellsWithin_refl l : cellsWithin l l.
Proof. intros m Hm. by exists m. Qed.

Lemma cellsWithin_trans l1 l2 l3 :
  cellsWithin l1 l2 → cellsWithin l2 l3 → cellsWithin l1 l3.
Proof.
  intros H12 H23 m3 Hm3. destruct (H23 m3 Hm3) as (m2 & Hm2 & Hr & Hc).
  destruct (H12 m2 Hm2) as (m1 & Hm1 & Hr' & Hc').
  exists m1. split; [done|]. split; congruence.
Qed.

Lemma cellsWithin_sort l : cellsWithin l (sortByScore l).
Proof.
  intros m Hm. exists m. split; [|done]. by rewrite <- (sortByScore_perm l).
Qed.

Lemma cellsWithin_Forall2 l l' :
  Forall2 (λ m m', row m' = row m ∧ col m' = col m) l l' → cellsWithin l l'.
Proof.
  intros HF m' Hm'. apply list_elem_of_lookup in Hm' as [i Hi].
  destruct (Forall2_lookup_r _ _ _ _ _ HF Hi) as (m & Hm & Hrc).
  exists m. split; [by eapply list_elem_of_lookup_2 | done].
Qed.

Lemma legal_cellsWithin grid p mode hqs l l' :
  Forall (legal grid p mode hqs) l → cellsWithin l l' →
  Forall (legal grid p mode hqs) l'.
Proof.
  intros Hl Hw. apply Forall_forall. intros m' Hm'.
  destruct (Hw m' Hm') as (m & Hm & Hr & Hc).
  unfold legal. rewrite Hr, Hc. by eapply Forall_forall in Hl.
Qed.

Lemma Rival_emergencyDefense_cells grid p mode hqs l l' :
  Rival.emergencyDefense grid p mode hqs l = Ok l' → cellsWithin l l'.
Proof.
  unfold Rival.emergencyDefense. intros Hd.
  destruct mode, hqs as [hs|]; try (injection Hd as <-; apply cellsWithin_refl).
  destruct (findHQ hs p) as [ourHQ|]; [|injection Hd as <-; apply cellsWithin_refl].
  destruct (Rival.criticalThreat grid ourHQ p) as [[]|]; simpl in Hd;
    [| injection Hd as <-; apply cellsWithin_refl | done].
  injection Hd as <-.
  eapply cellsWithin_trans; [|apply cellsWithin_sort].
  intros m' Hm'. apply list_elem_of_fmap in Hm' as (m & -> & Hm).
  exists m. split; [done|]. unfold Rival.defensiveBoost.
  by destruct (_ <=? 2).
Qed.

Lemma Rival_selectFromTop_elem_of l n m n' :
  Rival.selectFromTop l n = (Ok m, n') → m ∈ l.
Proof.
  unfold Rival.selectFromTop. intros Hs.
  apply R_bind_Ok in Hs as (i & n1 & _ & Hs).
  apply liftR_Ok in Hs as [Hs _]. by eapply deref_idx_elem_of.
Qed.

Lemma Simple_selectFromTop_elem_of pers l n m n' :
  Simple.selectFromTop pers l n = (Ok m, n') → m ∈ l.
Proof.
  unfold Simple.selectFromTop. intros Hs.
  apply R_bind_Ok in Hs as (i & n1 & _ & Hs).
  apply liftR_Ok in Hs as [Hs _]. by eapply deref_idx_elem_of.
Qed.

Lemma Rival_getBestMove_legal grid p mode hqs pus w m w' :
  Rival.getBestMove grid p mode hqs pus w = (Ok (Some m), w') →
  legal grid p mode hqs m.
Proof.
  unfold Rival.getBestMove. intros Hb.
  apply M_bind_Ok in Hb as (pers & w1 & _ & Hb).
  apply M_bind_Ok in Hb as (moves & w2 & Hm & Hb).
  apply liftM_Ok in Hm as (n & Hm & ->).
  apply liftR_Ok in Hm as [Hm ->].
  assert (Forall (legal grid p mode hqs) moves) as Hlegal.
  { apply Forall_forall. intros m0 Hm0.
    by destruct (Rival_getValidMoves_legal _ _ _ _ _ _ Hm Hm0). }
  destruct (len moves =? 0); [done|].
  destruct (if mode then _ else _) as [move|] eqn:Hover.
  - injection Hb as <- <-.
    destruct mode; [|done]. destruct pus as [pus|]; [|done]. simpl in Hover.
    apply find_some in Hover as [Hin _]. apply list_elem_of_In in Hin.
    eapply Forall_forall in Hlegal; [|done]. done.
  - apply M_bind_Ok in Hb as (scored & w3 & Hsc & Hb).
    apply M_bind_Ok in Hb as (final & w4 & Hd & Hb).
    apply M_bind_Ok in Hb as (best & w5 & Hs & Hb).
    injection Hb as <- <-.
    apply liftM_Ok in Hd as (n4 & Hd & ->). apply liftR_Ok in Hd as [Hd ->].
    apply liftM_Ok in Hs as (n5 & Hs & ->).
    apply Rival_selectFromTop_elem_of in Hs.
    apply Rival_emergencyDefense_cells in Hd.
    eapply Forall_forall; [|exact Hs].
    eapply legal_cellsWithin; [exact Hlegal|].
    eapply cellsWithin_trans; [|exact Hd].
    eapply cellsWithin_trans; [|apply cellsWithin_sort].
    apply cellsWithin_Forall2.
    eapply mapM_M_Forall2; [|exact Hsc].
    intros x wa y wb _ Hy. cbv beta in Hy.
    apply M_bind_Ok in Hy as (s & wc & _ & Hy). by injection Hy as <- <-.
Qed.

Lemma Simple_scoreValidMoves_legal grid rows cols p mode hqs gs w moves w' :
  Simple.scoreValidMoves grid rows cols p mode hqs gs w = (Ok moves, w') →
  Forall (legal grid p mode hqs) moves.
Proof.
  unfold Simple.scoreValidMoves. intros Hs.
  apply M_bind_Ok in Hs as (opts & w1 & Hm & Hs). injection Hs as <- <-.
  apply (mapM_M_Forall2
    (λ (rc : Z * Z) (o : option AIMove),
       ∀ m, o = Some m → legal grid p mode hqs m)) in Hm.
  - apply Forall_forall. intros m Hin.
    apply list_elem_of_omap in Hin as (o & Ho & Heq). simpl in Heq. subst o.
    apply list_elem_of_lookup in Ho as [i Hi].
    destruct (Forall2_lookup_r _ _ _ _ _ Hm Hi) as (rc & _ & Hrc). by apply Hrc.
  - intros [r c] wa o wb _ Ho m ->.
    apply M_bind_Ok in Ho as (valid & wc & Hv & Ho).
    apply liftM_Ok in Hv as (n & Hv & ->). apply liftR_Ok in Hv as [Hv ->].
    destruct valid; [|done].
    apply M_bind_Ok in Ho as (s & wd & _ & Ho). injection Ho as <- <-. done.
Qed.

Lemma Simple_getBestMove_legal grid p mode hqs pus w m w' :
  Simple.getBestMove grid p mode hqs pus w = (Ok (Some m), w') →
  legal grid p mode hqs m.
Proof.
  unfold Simple.getBestMove. intros Hb.
  apply M_bind_Ok in Hb as (pers & w1 & _ & Hb).
  apply M_bind_Ok in Hb as (row0 & w2 & _ & Hb).
  apply M_bind_Ok in Hb as (moves & w3 & Hm & Hb).
  apply Simple_scoreValidMoves_legal in Hm.
  destruct (len moves =? 0); [done|].
  apply M_bind_Ok in Hb as (best & w4 & Hs & Hb). injection Hb as <- <-.
  apply liftM_Ok in Hs as (n & Hs & ->).
  apply Simple_selectFromTop_elem_of in Hs.
  eapply Forall_forall; [|exact Hs].
  eapply legal_cellsWithin; [exact Hm | apply cellsWithin_sort].
Qed.

(** [C10] Whenever [getAIMove] returns a move, in either tuning and
    through either override, its coordinates are inside the grid and are
    approved by [isValidMoveForAI]. *)
Theorem selected_move_is_legal grid p mode hqs strategy pus :
  (∀ w m w', Simple.getAIMove grid p mode hqs strategy pus w = (Some m, w') →
     isValidMoveForAI grid (row m) (col m) p mode hqs = Ok true
     ∧ 0 ≤ row m < len grid ∧ 0 ≤ col m < gridCols grid)
  ∧ (∀ w m w', Rival.getAIMove grid p mode hqs strategy pus w = (Some m, w') →
     isValidMoveForAI grid (row m) (col m) p mode hqs = Ok true
     ∧ 0 ≤ row m < len grid ∧ 0 ≤ col m < gridCols grid).
Proof.
  split; intros w m w' Hg.
  - unfold Simple.getAIMove in Hg.
    destruct (Simple.getBestMove grid p mode hqs pus w) as [[o|] w1] eqn:Hb;
      [|done].
    injection Hg as -> ->. apply Simple_getBestMove_legal in Hb.
    split; [done|]. by eapply isValidMoveForAI_inBounds.
  - unfold Rival.getAIMove in Hg.
    destruct (Rival.getBestMove grid p mode hqs pus w) as [[o|] w1] eqn:Hb;
      [|done].
    injection Hg as -> ->. apply Rival_getBestMove_legal in Hb.
    split; [done|]. by eapply isValidMoveForAI_inBounds.
Qed.

(** [C9] No-move terminality.  When [isValidMoveForAI] approves no
    coordinate of the grid, [getAIMove] returns [null] in both tunings (it
    is a total function: nothing is thrown to the caller). *)
Theorem no_legal_move_no_move grid p mode hqs strategy pus :
  (∀ r c, 0 ≤ r < len grid → 0 ≤ c < gridCols grid →
          isValidMoveForAI grid r c p mode hqs ≠ Ok true) →
  (∀ w, (Simple.getAIMove grid p mode hqs strategy pus w).1 = None)
  ∧ (∀ w, (Rival.getAIMove grid p mode hqs strategy pus w).1 = None).
Proof.
  intros Hf. split; intros w.
  - unfold Simple.getAIMove.
    destruct (Simple.getBestMove grid p mode hqs pus w) as [[[m|]|] w1] eqn:Hb;
      [|done..].
    apply Simple_getBestMove_legal in Hb. unfold legal in Hb.
    destruct (isValidMoveForAI_inBounds _ _ _ _ _ _ _ Hb eq_refl).
    by destruct (Hf (row m) (col m)).
  - unfold Rival.getAIMove.
    destruct (Rival.getBestMove grid p mode hqs pus w) as [[[m|]|] w1] eqn:Hb;
      [|done..].
    apply Rival_getBestMove_legal in Hb. unfold legal in Hb.
    destruct (isValidMoveForAI_inBounds _ _ _ _ _ _ _ Hb eq_refl).
    by destruct (Hf (row m) (col m)).
Qed.

Lemma rectangular_cellAt grid r c :
  rectangular grid → 0 ≤ r < len grid → 0 ≤ c < gridCols grid →
  is_Some (cellAt grid r c).
Proof.
  intros Hrect Hr Hc. unfold cellAt.
  destruct (idx_is_Some grid r Hr) as [rw Hrw]. rewrite Hrw. simpl.
  apply idx_is_Some. unfold idx in Hrw. rewrite decide_True in Hrw by lia.
  apply list_elem_of_lookup_2 in Hrw.
  eapply Forall_forall in Hrect; [|done]. simpl in Hrect. lia.
Qed.

Lemma isValidMoveForAI_total grid r c p mode hqs :
  rectangular grid → isValidMoveForAI grid r c p mode hqs ≠ Throw.
Proof.
  intros Hrect.
  destruct (decide (outOfBounds grid r c)) as [Ho|Hn].
  { by rewrite isValidMoveForAI_outOfBounds. }
  unfold outOfBounds in Hn.
  destruct (rectangular_cellAt grid r c Hrect) as [cell Hcell]; [lia..|].
  unfold cellAt in Hcell.
  destruct (idx grid r) as [rw|] eqn:Hrw; [|done]. simpl in Hcell.
  unfold isValidMoveForAI.
  destruct (idx_is_Some grid 0) as [row0 E0]; [lia|].
  rewrite E0, Hrw. simpl. rewrite Hcell. simpl.
  repeat case_match; done.
Qed.

(** [C1], amended to the selector of aiPlayer.ts.  In base mode, on a
    rectangular grid, when exactly one legal cell coincides with a
    power-up, [getAIMove] returns that cell with the score 10000; no move
    is scored, the only effect is the creation of the personality. *)
Theorem Rival_powerUp_priority grid p hqs powerUps r0 c0 w :
  rectangular grid →
  isValidMoveForAI grid r0 c0 p true hqs = Ok true →
  is_Some (findPowerUp powerUps r0 c0) →
  (∀ r c, isValidMoveForAI grid r c p true hqs = Ok true →
          is_Some (findPowerUp powerUps r c) → r = r0 ∧ c = c0) →
  Rival.getAIMove grid p true hqs SMART (Some powerUps) w
  = (Some (mkMove r0 c0 10000), (Rival.getPersonality p w).2).
Proof.
  intros Hrect Hv0 Hp0 Huniq.
  destruct (validMoves_loop_total grid p true hqs
              (window 0 (len grid - 1) 0 (gridCols grid - 1)) [])
    as [moves Hm].
  { intros r c _. by apply isValidMoveForAI_total. }
  fold (Rival.getValidMoves grid p true hqs) in Hm.
  pose proof (Rival_getValidMoves_complete _ _ _ _ _ _ _ Hm Hv0) as Hin.
  destruct (Rival.powerUpMove moves powerUps) as [move|] eqn:Hfind.
  - assert (move = mkMove r0 c0 0) as ->.
    { unfold Rival.powerUpMove in Hfind.
      apply find_some in Hfind as [Hmv Hpu].
      apply list_elem_of_In in Hmv. apply bool_decide_eq_true in Hpu.
      destruct (Rival_getValidMoves_legal _ _ _ _ _ _ Hm Hmv) as [Hl Hs].
      destruct (Huniq _ _ Hl Hpu) as [Hr Hc].
      destruct move as [r c s]. simpl in *. by subst. }
    destruct (Rival_getPersonality_cached p w) as (pers & w1 & Hpers & _).
    assert ((len moves =? 0) = false) as Hlen.
    { destruct moves; [by apply elem_of_nil in Hin | unfold len; simpl length; lia]. }
    unfold Rival.getAIMove, Rival.getBestMove.
    rewrite (M_bind_run _ _ _ _ _ Hpers).
    rewrite (M_bind_run _ _ w1 moves w1) by (rewrite liftM_liftR; by rewrite Hm).
    rewrite Hlen.
    change (Some powerUps ≫= Rival.powerUpMove moves)
      with (Rival.powerUpMove moves powerUps).
    rewrite Hfind. by rewrite Hpers.
  - exfalso. unfold Rival.powerUpMove in Hfind.
    eapply find_none in Hfind; [|by apply list_elem_of_In].
    simpl in Hfind. by apply bool_decide_eq_false in Hfind.
Qed.

End Pipeline.

(** ** The chain-reaction simulator *)

Lemma forEach_total {A B} (f : B → A → result B) l acc :
  (∀ a x, x ∈ l → ∃ b, f a x = Ok b) → ∃ r, forEach f l acc = Ok r.
Proof.
  revert acc. induction l as [|x l IH]; intros acc Hf; simpl; [by eexists|].
  destruct (Hf acc x) as [b ->]; [left|]. simpl.
  apply IH. intros a y Hy. apply Hf. by right.
Qed.

Lemma forEach_monotone {A} (f f' : Z → A → result Z) l acc acc' v v' :
  acc ≤ acc' →
  (∀ a a' x b b', x ∈ l → a ≤ a' → f a x = Ok b → f' a' x = Ok b' → b ≤ b') →
  forEach f l acc = Ok v → forEach f' l acc' = Ok v' → v ≤ v'.
Proof.
  revert acc acc'. induction l as [|x l IH]; intros acc acc' Hacc Hstep Hv Hv';
    simpl in Hv, Hv'.
  - injection Hv as <-. by injection Hv' as <-.
  - destruct (f acc x) as [b|] eqn:Hb; [|done].
    destruct (f' acc' x) as [b'|] eqn:Hb'; [|done]. simpl in Hv, Hv'.
    eapply (IH b b'); [| |done..].
    + eapply Hstep; [left|done..].
    + intros a a' y c c' Hy. apply Hstep. by right.
Qed.

Lemma idx_neg {A} (l : list A) j : ¬ 0 ≤ j → idx l j = None.
Proof. intros. unfold idx. by rewrite decide_False. Qed.

Lemma idx_nonneg {A} (l : list A) j : 0 ≤ j → idx l j = l !! Z.to_nat j.
Proof. intros. unfold idx. by rewrite decide_True. Qed.

Lemma idx_alter {A} (f : A → A) (l : list A) i j :
  0 ≤ i →
  idx (alter f (Z.to_nat i) l) j
  = if decide (j = i) then f <$> idx l i else idx l j.
Proof.
  intros Hi. destruct (decide (0 ≤ j)) as [Hj|Hj].
  - rewrite !idx_nonneg by done. case_decide as Hd.
    + subst j. apply list_lookup_alter_eq.
    + apply list_lookup_alter_ne. lia.
  - rewrite !(idx_neg _ j) by done. by rewrite decide_False by lia.
Qed.

Lemma idx_insert {A} (l : list A) i j x :
  0 ≤ i →
  idx (<[Z.to_nat i := x]> l) j
  = if decide (j = i) then idx l i ≫= λ _, Some x else idx l j.
Proof.
  intros Hi. destruct (decide (0 ≤ j)) as [Hj|Hj].
  - rewrite !idx_nonneg by done. case_decide as Hd.
    + subst j. destruct (l !! Z.to_nat i) eqn:Hl; simpl.
      * apply list_lookup_insert_eq. by eapply lookup_lt_Some.
      * rewrite list_insert_ge; [done|]. by apply lookup_ge_None.
    + apply list_lookup_insert_ne. lia.
  - rewrite !(idx_neg _ j) by done. by rewrite decide_False by lia.
Qed.

Lemma cellAt_setCell (grid : Grid) r c x r' c' :
  cellAt (setCell grid r c x) r' c'
  = if decide (r' = r ∧ c' = c) then cellAt grid r c ≫= λ _, Some x
    else cellAt grid r' c'.
Proof.
  unfold setCell, cellAt.
  destruct (decide (0 ≤ r ∧ 0 ≤ c)) as [[Hr Hc]|Hneg].
  - rewrite idx_alter by done.
    destruct (decide (r' = r)) as [->|Hne].
    + destruct (idx grid r) as [rw|]; simpl; [|by case_decide].
      rewrite idx_insert by done.
      destruct (decide (c' = c)) as [->|Hne].
      * by rewrite decide_True.
      * by rewrite decide_False by (intros [? ?]; done).
    + by rewrite decide_False by (intros [? ?]; done).
  - case_decide as Hd; [|done]. destruct Hd as [-> ->].
    destruct (decide (0 ≤ r)); [|by rewrite idx_neg].
    destruct (idx grid r); [|done]. simpl. rewrite idx_neg; [done|lia].
Qed.

Lemma len_setCell (grid : Grid) r c x : len (setCell grid r c x) = len grid.
Proof.
  unfold setCell, len. case_decide; [|done]. by rewrite length_alter.
Qed.

Lemma gridCols_setCell (grid : Grid) r c x :
  gridCols (setCell grid r c x) = gridCols grid.
Proof.
  unfold gridCols, setCell. case_decide as Hd; [|done]. destruct Hd as [Hr Hc].
  rewrite idx_alter by done. case_decide; [|done]. subst r.
  destruct (idx grid 0); [|done]. simpl. unfold len. by rewrite length_insert.
Qed.

Lemma rectangular_setCell (grid : Grid) r c x :
  rectangular grid → rectangular (setCell grid r c x).
Proof.
  unfold rectangular. rewrite gridCols_setCell. intros Hrect.
  unfold setCell. case_decide; [|done].
  apply Forall_forall. intros rw Hin.
  apply list_elem_of_lookup in Hin as [i Hi].
  destruct (decide (i = Z.to_nat r)) as [->|Hne].
  - rewrite list_lookup_alter_eq in Hi.
    destruct (grid !! Z.to_nat r) as [rw0|] eqn:Hrw; [|done].
    injection Hi as <-. unfold len. rewrite length_insert.
    apply list_elem_of_lookup_2 in Hrw.
    by eapply Forall_forall in Hrect.
  - rewrite list_lookup_alter_ne in Hi by done.
    apply list_elem_of_lookup_2 in Hi. by eapply Forall_forall in Hrect.
Qed.

Lemma atomsLe_setCell grid grid' r c x x' :
  atomsLe grid grid' → atoms x ≤ atoms x' →
  atomsLe (setCell grid r c x) (setCell grid' r c x').
Proof.
  intros Hle Hx r' c'. rewrite !cellAt_setCell. case_decide; [|apply Hle].
  specialize (Hle r c).
  destruct (cellAt grid r c), (cellAt grid' r c); done.
Qed.

Lemma atomsLe_raise grid r c cell a' :
  cellAt grid r c = Some cell → atoms cell ≤ a' →
  atomsLe grid (setCell grid r c (mkCell a' (player cell))).
Proof.
  intros Hc Ha r' c'. rewrite cellAt_setCell. case_decide as Hd.
  - destruct Hd as [-> ->]. by rewrite Hc.
  - by destruct (cellAt grid r' c').
Qed.

Lemma elem_of_getNeighborsForAI row col rows cols nr nc :
  (nr, nc) ∈ getNeighborsForAI row col rows cols →
  0 ≤ nr < rows ∧ 0 ≤ nc < cols ∧ Z.abs (nr - row) + Z.abs (nc - col) = 1.
Proof.
  unfold getNeighborsForAI. rewrite list_elem_of_omap.
  intros ([dr dc] & Hd & Hn).
  destruct ((0 <=? row + dr) && (row + dr <? rows) && (0 <=? col + dc)
            && (col + dc <? cols)) eqn:Hb; [|done].
  injection Hn as <- <-.
  unfold directions in Hd.
  repeat (apply elem_of_cons in Hd as [[= -> ->]|Hd]; [lia|]).
  by apply elem_of_nil in Hd.
Qed.

Section ChainPotential.
Context {U : GameUtils}.

Lemma chainPotentialOf_monotone sim sim' row col rows cols v v' :
  atomsLe sim sim' →
  chainPotentialOf sim row col rows cols = Ok v →
  chainPotentialOf sim' row col rows cols = Ok v' →
  v ≤ v'.
Proof.
  intros Hle Hv Hv'. unfold chainPotentialOf in Hv, Hv'.
  pose proof (Hle row col) as H0.
  destruct (cellAt sim row col) as [cell|]; [|done].
  destruct (cellAt sim' row col) as [cell'|]; [|done]. simpl in Hv, Hv'.
  set (inner := λ (g : Grid) (acc : Z) '(nnr, nnc),
      secondCell ← deref (cellAt g nnr nnc);
      if atoms secondCell + 1 >=? calculateCriticalMass nnr nnc rows cols
      then Ok (acc + 2) else Ok acc) in *.
  assert (∀ l acc r, forEach (inner sim') l acc = Ok r → acc ≤ r) as Hlow.
  { intros l acc r. apply (forEach_invariant (λ b, acc ≤ b)); [lia|].
    intros a [nnr nnc] b _ Ha Hb. unfold inner in Hb.
    destruct (cellAt sim' nnr nnc); [|done]. simpl in Hb.
    case_if Hb; injection Hb as <-; lia. }
  assert (∀ l acc acc' r r', acc ≤ acc' →
            forEach (inner sim) l acc = Ok r →
            forEach (inner sim') l acc' = Ok r' → r ≤ r') as Hin.
  { intros l acc acc' r r' Hacc. apply forEach_monotone; [done|].
    intros a a' [nnr nnc] b b' _ Ha Hb Hb'. unfold inner in Hb, Hb'.
    pose proof (Hle nnr nnc) as Hc.
    destruct (cellAt sim nnr nnc) as [x|]; [|done].
    destruct (cellAt sim' nnr nnc) as [x'|]; [|done]. simpl in Hb, Hb'.
    case_if Hb; case_if Hb'; injection Hb as <-; injection Hb' as <-; lia. }
  case_if Hv.
  - case_if Hv'; [|lia].
    revert Hv Hv'. apply forEach_monotone; [done|].
    intros a a' [nr nc] b b' _ Ha Hb Hb'.
    pose proof (Hle nr nc) as Hc.
    destruct (cellAt sim nr nc) as [x|]; [|done].
    destruct (cellAt sim' nr nc) as [x'|]; [|done]. simpl in Hb, Hb'.
    case_if Hb; case_if Hb'.
    + eapply (Hin _ (a + 5) (a' + 5)); [lia|done..].
    + lia.
    + injection Hb as <-. apply Hlow in Hb'. lia.
    + injection Hb as <-. injection Hb' as <-. lia.
  - injection Hv as <-.
    case_if Hv'; [|by injection Hv' as <-].
    revert Hv'. apply (forEach_invariant (λ b, 0 ≤ b)); [done|].
    intros a [nr nc] b _ Ha Hb.
    destruct (cellAt sim' nr nc) as [x'|]; [|done]. simpl in Hb.
    case_if Hb; [|by injection Hb as <-].
    apply Hlow in Hb. lia.
Qed.

Lemma chainPotentialOf_total sim row col rows cols :
  (∀ r c, 0 ≤ r < rows → 0 ≤ c < cols → is_Some (cellAt sim r c)) →
  0 ≤ row < rows → 0 ≤ col < cols →
  ∃ v, chainPotentialOf sim row col rows cols = Ok v.
Proof.
  intros Hdef Hr Hc. unfold chainPotentialOf.
  destruct (Hdef row col Hr Hc) as [cell ->]. simpl.
  destruct (_ >=? _); [|by eexists].
  apply forEach_total. intros a [nr nc] Hn.
  apply elem_of_getNeighborsForAI in Hn as (Hnr & Hnc & _).
  destruct (Hdef nr nc Hnr Hnc) as [x ->]. simpl.
  destruct (_ >=? _); [|by eexists].
  apply forEach_total. intros a2 [nnr nnc] Hnn.
  apply elem_of_getNeighborsForAI in Hnn as (Hnnr & Hnnc & _).
  destruct (Hdef nnr nnc Hnnr Hnnc) as [y ->]. simpl.
  destruct (_ >=? _); by eexists.
Qed.

Lemma calculateChainReactionPotential_total grid row col p :
  rectangular grid → 0 ≤ row < len grid → 0 ≤ col < gridCols grid →
  ∃ v, calculateChainReactionPotential grid row col p = Ok v.
Proof.
  intros Hrect Hr Hc. unfold calculateChainReactionPotential.
  destruct (idx_is_Some grid 0) as [row0 E0]; [lia|]. rewrite E0. simpl.
  assert (len row0 = gridCols grid) as -> by (unfold gridCols; by rewrite E0).
  destruct (rectangular_cellAt grid row col Hrect Hr Hc) as [cell Hcell].
  rewrite Hcell. simpl.
  apply chainPotentialOf_total; [|done..].
  intros r c Hr' Hc'. rewrite cellAt_setCell. case_decide.
  - by rewrite Hcell.
  - by apply rectangular_cellAt.
Qed.

Lemma calculateChainReactionPotential_monotone grid grid' row col p v v' :
  atomsLe grid grid' → len grid' = len grid → gridCols grid' = gridCols grid →
  calculateChainReactionPotential grid row col p = Ok v →
  calculateChainReactionPotential grid' row col p = Ok v' →
  v ≤ v'.
Proof.
  intros Hle Hl Hg Hv Hv'. unfold calculateChainReactionPotential in Hv, Hv'.
  unfold gridCols in Hg. rewrite Hl in Hv'.
  destruct (idx grid 0) as [row0|]; [|done].
  destruct (idx grid' 0) as [row0'|]; [|done]. simpl in Hg, Hv, Hv'.
  rewrite Hg in Hv'.
  pose proof (Hle row col) as Hc.
  destruct (cellAt grid row col) as [cell|]; [|done].
  destruct (cellAt grid' row col) as [cell'|]; [|done]. simpl in Hv, Hv'.
  eapply chainPotentialOf_monotone; [|exact Hv|exact Hv'].
  apply atomsLe_setCell; [done|]. simpl. lia.
Qed.

(** [C8] Chain potential monotonicity.  Raising the atom count of a cell
    other than the target, without exceeding that cell's critical mass and
    everything else unchanged, never decreases the result of
    [calculateChainReactionPotential] for the target. *)
Theorem chain_potential_monotone grid row col p nr nc cell a' :
  rectangular grid →
  0 ≤ row < len grid → 0 ≤ col < gridCols grid →
  (nr, nc) ≠ (row, col) →
  cellAt grid nr nc = Some cell →
  atoms cell < a' ≤ calculateCriticalMass nr nc (len grid) (gridCols grid) →
  let grid' := setCell grid nr nc (mkCell a' (player cell)) in
  ∃ v v', calculateChainReactionPotential grid row col p = Ok v
        ∧ calculateChainReactionPotential grid' row col p = Ok v'
        ∧ v ≤ v'.
Proof.
  intros Hrect Hr Hc _ Hcell [Ha _] grid'.
  assert (len grid' = len grid) as Hl by apply len_setCell.
  assert (gridCols grid' = gridCols grid) as Hg by apply gridCols_setCell.
  assert (atomsLe grid grid') as Hle by (apply atomsLe_raise; [done|lia]).
  assert (rectangular grid') as Hrect' by (by apply rectangular_setCell).
  destruct (calculateChainReactionPotential_total grid row col p) as [v Hv];
    [done..|].
  destruct (calculateChainReactionPotential_total grid' row col p) as [v' Hv'];
    [done|lia..|].
  exists v, v'. repeat split; [done..|].
  by eapply calculateChainReactionPotential_monotone.
Qed.

End ChainPotential.

(** ** The aggressive sub-score *)

Section Aggressive.
Context {U : GameUtils} {E : Entropy}.

Lemma Rival_immediateExplosion_quiet grid cell criticalMass row col rows cols p :
  atoms cell + 1 < criticalMass →
  Rival.immediateExplosion grid cell criticalMass row col rows cols p = Ok (0, 0).
Proof.
  intros Hlt. unfold Rival.immediateExplosion.
  destruct (atoms cell + 1 >=? criticalMass) eqn:Hge; [lia | done].
Qed.

(** Below critical mass the aggressive sub-score is made of the terms
    computed outside the explosion branch. *)
Lemma aggressiveScore_below_critical_mass grid row col p gameState cell n :
  cellAt grid row col = Some cell →
  atoms cell + 1 < calculateCriticalMass row col (len grid) (gridCols grid) →
  (∀ ev n', Simple.evaluateStrategicMove grid row col p gameState n = (Ok ev, n') →
     ∃ territory penalty n1 proximity,
       positionScoring grid row col (len grid) (gridCols grid) p gameState n
         = (Ok (territory, penalty), n1)
       ∧ enemyProximityScore grid row col (len grid) (gridCols grid) p gameState
         = Ok proximity
       ∧ (aggressiveScore ev == inject_Z proximity - penalty)%Q)
  ∧ (∀ ev n', Rival.evaluateStrategicMove grid row col p gameState n = (Ok ev, n') →
     ∃ territory penalty n1 proximity placement,
       positionScoring grid row col (len grid) (gridCols grid) p gameState n
         = (Ok (territory, penalty), n1)
       ∧ enemyProximityScore grid row col (len grid) (gridCols grid) p gameState
         = Ok proximity
       ∧ Rival.placementStrategyScore grid cell
           (calculateCriticalMass row col (len grid) (gridCols grid))
           row col (len grid) (gridCols grid) p = Ok placement
       ∧ (aggressiveScore ev == inject_Z (proximity + placement) - penalty)%Q).
Proof.
  intros Hcell Hlt. split; intros ev n' Hev.
  - unfold Simple.evaluateStrategicMove in Hev.
    apply R_bind_Ok in Hev as (row0 & n0 & H0 & Hev).
    apply liftR_Ok in H0 as [H0 ->].
    assert (len row0 = gridCols grid) as Hcols.
    { unfold gridCols. by destruct (idx grid 0); simplify_eq/=. }
    rewrite Hcols in Hev.
    apply R_bind_Ok in Hev as (gridRow & n0 & Hrow & Hev).
    apply liftR_Ok in Hrow as [Hrow ->].
    apply R_bind_Ok in Hev as ([territory penalty] & n1 & Hpos & Hev).
    apply R_bind_Ok in Hev as (c & n2 & Hc & Hev).
    apply liftR_Ok in Hc as [Hc ->].
    assert (c = cell) as ->.
    { unfold cellAt in Hcell. destruct (idx grid row); simplify_eq/=.
      rewrite Hcell in Hc. by simplify_eq/=. }
    apply R_bind_Ok in Hev as (capture & n2 & Hcap & Hev).
    apply liftR_Ok in Hcap as [Hcap ->].
    apply R_bind_Ok in Hev as (proximity & n2 & Hprox & Hev).
    apply liftR_Ok in Hprox as [Hprox ->].
    apply R_bind_Ok in Hev as (defensive & n2 & _ & Hev).
    apply R_bind_Ok in Hev as (chain & n3 & _ & Hev).
    injection Hev as <- <-.
    exists territory, penalty, n1, proximity. repeat split; [done..|].
    case_if Hcap; [lia|]. injection Hcap as <-. simpl. ring.
  - unfold Rival.evaluateStrategicMove in Hev.
    apply R_bind_Ok in Hev as (row0 & n0 & H0 & Hev).
    apply liftR_Ok in H0 as [H0 ->].
    assert (len row0 = gridCols grid) as Hcols.
    { unfold gridCols. by destruct (idx grid 0); simplify_eq/=. }
    rewrite Hcols in Hev.
    apply R_bind_Ok in Hev as (gridRow & n0 & Hrow & Hev).
    apply liftR_Ok in Hrow as [Hrow ->].
    apply R_bind_Ok in Hev as ([territory penalty] & n1 & Hpos & Hev).
    apply R_bind_Ok in Hev as (c & n2 & Hc & Hev).
    apply liftR_Ok in Hc as [Hc ->].
    assert (c = cell) as ->.
    { unfold cellAt in Hcell. destruct (idx grid row); simplify_eq/=.
      rewrite Hcell in Hc. by simplify_eq/=. }
    apply R_bind_Ok in Hev as ([damage bonus] & n2 & Hexp & Hev).
    apply liftR_Ok in Hexp as [Hexp ->].
    rewrite Rival_immediateExplosion_quiet in Hexp by done.
    injection Hexp as <- <-.
    apply R_bind_Ok in Hev as (placement & n2 & Hpl & Hev).
    apply liftR_Ok in Hpl as [Hpl ->].
    apply R_bind_Ok in Hev as (proximity & n2 & Hprox & Hev).
    apply liftR_Ok in Hprox as [Hprox ->].
    apply R_bind_Ok in Hev as (defensive & n2 & _ & Hev).
    apply R_bind_Ok in Hev as (chain & n3 & _ & Hev).
    injection Hev as <- <-.
    exists territory, penalty, n1, proximity, placement.
    repeat split; [done..|]. simpl. ring.
Qed.

End Aggressive.

Lemma forEachR_invariant {A B} (P : B → Prop) (f : B → A → R B) l acc n r n' :
  P acc → (∀ a x b n1 n2, x ∈ l → P a → f a x n1 = (Ok b, n2) → P b) →
  forEachR f l acc n = (Ok r, n') → P r.
Proof.
  revert acc n. induction l as [|x l IH]; intros acc n Hacc Hstep Hr; simpl in Hr.
  - by injection Hr as <- <-.
  - apply R_bind_Ok in Hr as (acc' & n1 & Hf & Hr).
    eapply IH; [| |exact Hr].
    + eapply Hstep; [left|done..].
    + intros a y b n2 n3 Hy. apply Hstep. by right.
Qed.

Section Quiet.
Context {U : GameUtils} {E : Entropy}.

Lemma enemyNeighborPenalty_quiet grid row col rows cols p n penalty n' :
  noEnemyAround grid row col p →
  enemyNeighborPenalty grid (getNeighborsForAI row col rows cols) p n
  = (Ok penalty, n') →
  penalty = 0%Q.
Proof.
  intros Hno. apply (forEachR_invariant (λ b, b = 0%Q)); [done|].
  intros a [nr nc] b n1 n2 Hin -> Hb.
  apply elem_of_getNeighborsForAI in Hin as (_ & _ & Hd).
  apply R_bind_Ok in Hb as (cell & n3 & Hc & Hb).
  apply liftR_Ok in Hc as [Hc ->].
  destruct (cellAt grid nr nc) as [x|] eqn:Hx; [|done]. injection Hc as ->.
  rewrite (Hno nr nc cell) in Hb by (done || lia). by injection Hb as <- <-.
Qed.

Lemma positionScoring_quiet grid row col rows cols p gameState n t penalty n' :
  noEnemyAround grid row col p →
  positionScoring grid row col rows cols p gameState n = (Ok (t, penalty), n') →
  penalty = 0%Q.
Proof.
  intros Hno Hp. unfold positionScoring in Hp.
  destruct (negb (gs_isBaseMode gameState)).
  - apply R_bind_Ok in Hp as (r1 & ? & _ & Hp).
    apply R_bind_Ok in Hp as (r2 & ? & _ & Hp).
    apply R_bind_Ok in Hp as (r3 & ? & _ & Hp).
    apply R_bind_Ok in Hp as (pen & ? & Hpen & Hp).
    apply R_bind_Ok in Hp as (own & ? & _ & Hp).
    apply R_bind_Ok in Hp as (iso & ? & _ & Hp).
    injection Hp as <- <- <-. by eapply enemyNeighborPenalty_quiet.
  - apply R_bind_Ok in Hp as (r1 & ? & _ & Hp).
    apply R_bind_Ok in Hp as (r2 & ? & _ & Hp).
    apply R_bind_Ok in Hp as (r3 & ? & _ & Hp).
    by injection Hp as <- <- <-.
Qed.

Lemma enemyProximityScore_quiet grid row col rows cols p gameState proximity :
  noEnemyAround grid row col p →
  enemyProximityScore grid row col rows cols p gameState = Ok proximity →
  proximity = 0.
Proof.
  intros Hno. unfold enemyProximityScore.
  destruct (gs_isBaseMode gameState); [|by intros [= <-]].
  apply (forEach_invariant (λ b, b = 0)); [done|].
  intros a [r c] b Hin -> Hb.
  apply elem_of_window in Hin as [Hr Hc].
  destruct (cellAt grid r c) as [x|] eqn:Hx; [|done]. simpl in Hb.
  rewrite (Hno r c x) in Hb by (done || lia). by injection Hb as <-.
Qed.

Lemma Rival_placementStrategyScore_quiet grid cell cm row col rows cols p s :
  noEnemyAround grid row col p → cellAt grid row col = Some cell →
  Rival.placementStrategyScore grid cell cm row col rows cols p = Ok s →
  s = 0.
Proof.
  intros Hno Hcell. unfold Rival.placementStrategyScore.
  rewrite (Hno row col cell) by (done || lia).
  apply (forEach_invariant (λ b, b = 0)); [done|].
  intros a [nr nc] b Hin -> Hb.
  apply elem_of_getNeighborsForAI in Hin as (_ & _ & Hd).
  destruct (cellAt grid nr nc) as [x|] eqn:Hx; [|done]. simpl in Hb.
  rewrite (Hno nr nc x) in Hb by (done || lia). by injection Hb as <-.
Qed.

(** Below critical mass and with no opponent nearby, the aggressive
    sub-score is zero in both tunings. *)
Lemma aggressiveScore_zero_when_quiet grid row col p gameState cell n :
  cellAt grid row col = Some cell →
  atoms cell + 1 < calculateCriticalMass row col (len grid) (gridCols grid) →
  noEnemyAround grid row col p →
  (∀ ev n', Simple.evaluateStrategicMove grid row col p gameState n = (Ok ev, n') →
     (aggressiveScore ev == 0)%Q)
  ∧ (∀ ev n', Rival.evaluateStrategicMove grid row col p gameState n = (Ok ev, n') →
     (aggressiveScore ev == 0)%Q).
Proof.
  intros Hcell Hlt Hno.
  destruct (aggressiveScore_below_critical_mass grid row col p gameState cell n
              Hcell Hlt) as [HS HR].
  split; intros ev n' Hev.
  - destruct (HS ev n' Hev) as (t & pen & n1 & prox & Hpos & Hprox & ->).
    apply positionScoring_quiet in Hpos as ->; [|done].
    apply enemyProximityScore_quiet in Hprox as ->; [|done]. reflexivity.
  - destruct (HR ev n' Hev) as (t & pen & n1 & prox & pl & Hpos & Hprox & Hpl & ->).
    apply positionScoring_quiet in Hpos as ->; [|done].
    apply enemyProximityScore_quiet in Hprox as ->; [|done].
    apply Rival_placementStrategyScore_quiet in Hpl as ->; [|done..]. reflexivity.
Qed.

Lemma returns_bind {A B} (m : R A) (k : A → R B) :
  returns m → (∀ a, returns (k a)) → returns (m ≫= k).
Proof.
  intros Hm Hk n. destruct (Hm n) as (a & n1 & Ha).
  destruct (Hk a n1) as (b & n2 & Hb). exists b, n2. apply R_bind_Ok. eauto.
Qed.

Lemma returns_bind_liftR {A B} (m : result A) (k : A → R B) a :
  m = Ok a → returns (k a) → returns (liftR m ≫= k).
Proof.
  intros -> Hk n. destruct (Hk n) as (b & n2 & Hb). exists b, n2.
  apply R_bind_Ok. exists a, n. split; [by apply liftR_Ok | done].
Qed.

Lemma returns_ret {A} (a : A) : returns (mret a).
Proof. intros n. by exists a, n. Qed.

Lemma returns_random : returns random.
Proof. intros n. by eexists _, _. Qed.

Lemma forEachR_returns {A B} (f : B → A → R B) l acc :
  (∀ a x, x ∈ l → returns (f a x)) → returns (forEachR f l acc).
Proof.
  revert acc. induction l as [|x l IH]; intros acc Hf; simpl.
  - apply returns_ret.
  - apply returns_bind; [apply Hf; left|].
    intros a. apply IH. intros b y Hy. apply Hf. by right.
Qed.

Lemma cellAt_inside grid r c cell :
  rectangular grid → cellAt grid r c = Some cell →
  0 ≤ r < len grid ∧ 0 ≤ c < gridCols grid.
Proof.
  intros Hrect Hcell. unfold cellAt in Hcell.
  destruct (idx grid r) as [rw|] eqn:Hrw; [|done]. simpl in Hcell.
  split; [by eapply idx_Some|]. apply idx_Some in Hcell.
  unfold idx in Hrw. case_decide; [|done].
  apply list_elem_of_lookup_2 in Hrw.
  eapply Forall_forall in Hrect; [|done]. simpl in Hrect. lia.
Qed.

Lemma enemyNeighborPenalty_returns grid row col p :
  rectangular grid →
  returns (enemyNeighborPenalty grid
             (getNeighborsForAI row col (len grid) (gridCols grid)) p).
Proof.
  intros Hrect. apply forEachR_returns. intros a [nr nc] Hin.
  apply elem_of_getNeighborsForAI in Hin as (Hr & Hc & _).
  destruct (rectangular_cellAt grid nr nc Hrect Hr Hc) as [x Hx].
  eapply returns_bind_liftR; [by rewrite Hx|].
  destruct (isEnemy x p); [|apply returns_ret].
  apply returns_bind; [apply returns_random | intros; apply returns_ret].
Qed.

Lemma hasOwnNeighbor_total grid row col p :
  rectangular grid →
  ∃ b, hasOwnNeighbor grid
         (getNeighborsForAI row col (len grid) (gridCols grid)) p = Ok b.
Proof.
  intros Hrect. apply forEach_total. intros a [nr nc] Hin.
  apply elem_of_getNeighborsForAI in Hin as (Hr & Hc & _).
  destruct (rectangular_cellAt grid nr nc Hrect Hr Hc) as [x ->]. by eexists.
Qed.

Lemma positionScoring_returns grid row col p gameState :
  rectangular grid →
  returns (positionScoring grid row col (len grid) (gridCols grid) p gameState).
Proof.
  intros Hrect. unfold positionScoring.
  destruct (negb (gs_isBaseMode gameState)).
  - do 3 (apply returns_bind; [apply returns_random | intros ?]).
    apply returns_bind; [by apply enemyNeighborPenalty_returns | intros ?].
    destruct (hasOwnNeighbor_total grid row col p Hrect) as [own Hown].
    eapply returns_bind_liftR; [exact Hown|].
    apply returns_bind; [|intros; apply returns_ret].
    destruct (negb own); [|apply returns_ret].
    apply returns_bind; [apply returns_random | intros; apply returns_ret].
  - do 3 (apply returns_bind; [apply returns_random | intros ?]).
    apply returns_ret.
Qed.

Lemma enemyProximityScore_total grid row col p gameState :
  rectangular grid →
  ∃ v, enemyProximityScore grid row col (len grid) (gridCols grid) p gameState
       = Ok v.
Proof.
  intros Hrect. unfold enemyProximityScore.
  destruct (gs_isBaseMode gameState); [|by eexists].
  apply forEach_total. intros a [r c] Hin.
  apply elem_of_window in Hin as [Hr Hc].
  destruct (rectangular_cellAt grid r c Hrect) as [x ->]; [lia..|]. simpl.
  destruct (isEnemy x p); by eexists.
Qed.

Lemma defensiveScoring_total grid cell row col p gameState :
  rectangular grid →
  ∃ v, defensiveScoring grid cell row col (len grid) (gridCols grid) p gameState
       = Ok v.
Proof.
  intros Hrect. unfold defensiveScoring.
  destruct (gs_isBaseMode gameState); [|by eexists].
  destruct (gs_hqs gameState) as [hqs|]; [|by eexists].
  destruct (findHQ hqs p) as [ourHQ|]; [|by eexists].
  match goal with
  | |- ∃ v, (forEach ?f ?l ?acc ≫= _) = _ =>
      destruct (forEach_total f l acc) as [[threat critical] ->]
  end; [|by eexists].
  intros [t k] [r c] Hin. apply elem_of_window in Hin as [Hr Hc].
  destruct (rectangular_cellAt grid r c Hrect) as [x ->]; [lia..|]. simpl.
  destruct (isEnemy x p); [|by eexists].
  destruct ((_ <=? 2) && (atoms x >=? 2)); by eexists.
Qed.

Lemma Rival_immediateExplosion_total grid cell cm row col p :
  rectangular grid →
  ∃ v, Rival.immediateExplosion grid cell cm row col (len grid) (gridCols grid) p
       = Ok v.
Proof.
  intros Hrect. unfold Rival.immediateExplosion.
  destruct (atoms cell + 1 >=? cm); [|by eexists].
  match goal with
  | |- ∃ v, (forEach ?f ?l ?acc ≫= _) = _ =>
      destruct (forEach_total f l acc) as [[damage bonus] ->]
  end; [|by eexists].
  intros [d b] [nr nc] Hin.
  apply elem_of_getNeighborsForAI in Hin as (Hr & Hc & _).
  destruct (rectangular_cellAt grid nr nc Hrect Hr Hc) as [x ->]. simpl.
  destruct (isEnemy x p); by eexists.
Qed.

Lemma Rival_placementStrategyScore_total grid cell cm row col p :
  rectangular grid →
  ∃ v, Rival.placementStrategyScore grid cell cm row col (len grid)
         (gridCols grid) p = Ok v.
Proof.
  intros Hrect. unfold Rival.placementStrategyScore.
  apply forEach_total. intros a [nr nc] Hin.
  apply elem_of_getNeighborsForAI in Hin as (Hr & Hc & _).
  destruct (rectangular_cellAt grid nr nc Hrect Hr Hc) as [x ->]. simpl.
  destruct (isEnemy x p); [|by eexists].
  destruct ((_ <=? _) && (_ >=? 0)); by eexists.
Qed.

(** On a rectangular grid the positional evaluator returns an evaluation
    for every cell of the grid, in both tunings. *)
Lemma evaluateStrategicMove_returns grid row col p gameState cell :
  rectangular grid → cellAt grid row col = Some cell →
  returns (Simple.evaluateStrategicMove grid row col p gameState)
  ∧ returns (Rival.evaluateStrategicMove grid row col p gameState).
Proof.
  intros Hrect Hcell.
  destruct (cellAt_inside grid row col cell Hrect Hcell) as [Hr Hc].
  destruct (idx_is_Some grid 0) as [row0 E0]; [lia|].
  assert (len row0 = gridCols grid) as Hcols by (unfold gridCols; by rewrite E0).
  unfold cellAt in Hcell.
  destruct (idx grid row) as [gridRow|] eqn:Hrw; [|done]. simpl in Hcell.
  destruct (enemyProximityScore_total grid row col p gameState Hrect)
    as [prox Hprox].
  destruct (defensiveScoring_total grid cell row col p gameState Hrect)
    as [def Hdef].
  destruct (calculateChainReactionPotential_total grid row col p Hrect Hr Hc)
    as [chain Hchain].
  split.
  - unfold Simple.evaluateStrategicMove.
    eapply returns_bind_liftR; [by rewrite E0|]. rewrite Hcols.
    eapply returns_bind_liftR; [by rewrite Hrw|].
    apply returns_bind; [by apply positionScoring_returns | intros [t pen]].
    eapply returns_bind_liftR; [by rewrite Hcell|].
    match goal with
    | |- returns (liftR ?m ≫= _) =>
        assert (∃ v, m = Ok v) as [capture Hcap]
    end.
    { destruct (atoms cell + 1 >=? _); [|by eexists].
      apply forEach_total. intros a [nr nc] Hin.
      apply elem_of_getNeighborsForAI in Hin as (Hnr & Hnc & _).
      destruct (rectangular_cellAt grid nr nc Hrect Hnr Hnc) as [x ->]. simpl.
      destruct (isEnemy x p); by eexists. }
    eapply returns_bind_liftR; [exact Hcap|].
    eapply returns_bind_liftR; [exact Hprox|].
    eapply returns_bind_liftR; [exact Hdef|].
    eapply returns_bind_liftR; [exact Hchain|].
    apply returns_ret.
  - unfold Rival.evaluateStrategicMove.
    eapply returns_bind_liftR; [by rewrite E0|]. rewrite Hcols.
    eapply returns_bind_liftR; [by rewrite Hrw|].
    apply returns_bind; [by apply positionScoring_returns | intros [t pen]].
    eapply returns_bind_liftR; [by rewrite Hcell|].
    destruct (Rival_immediateExplosion_total grid cell
                (calculateCriticalMass row col (len grid) (gridCols grid))
                row col p Hrect) as [[damage bonus] Hexp].
    eapply returns_bind_liftR; [exact Hexp|].
    destruct (Rival_placementStrategyScore_total grid cell
                (calculateCriticalMass row col (len grid) (gridCols grid))
                row col p Hrect) as [pl Hpl].
    eapply returns_bind_liftR; [exact Hpl|].
    eapply returns_bind_liftR; [exact Hprox|].
    eapply returns_bind_liftR; [exact Hdef|].
    eapply returns_bind_liftR; [exact Hchain|].
    apply returns_ret.
Qed.

(** [C5], amended.  When the placement stays below the critical mass of
    its cell, the explosion branch contributes nothing: [aggressiveScore]
    is the enemy-proximity sum of base mode minus the enemy-neighbour
    penalty of classic mode, plus, in aiPlayer.ts, the placement-strategy
    score.  It is zero when no cell within two rows and two columns of the
    target belongs to an opponent, and need not be otherwise.  On a
    rectangular grid the evaluator does return an evaluation. *)
Theorem aggressiveScore_without_explosion grid row col p gameState cell n :
  cellAt grid row col = Some cell →
  atoms cell + 1 < calculateCriticalMass row col (len grid) (gridCols grid) →
  (∀ ev n', Simple.evaluateStrategicMove grid row col p gameState n = (Ok ev, n') →
     (∃ territory penalty n1 proximity,
        positionScoring grid row col (len grid) (gridCols grid) p gameState n
          = (Ok (territory, penalty), n1)
        ∧ enemyProximityScore grid row col (len grid) (gridCols grid) p gameState
          = Ok proximity
        ∧ (aggressiveScore ev == inject_Z proximity - penalty)%Q)
     ∧ (noEnemyAround grid row col p → (aggressiveScore ev == 0)%Q))
  ∧ (∀ ev n', Rival.evaluateStrategicMove grid row col p gameState n = (Ok ev, n') →
     (∃ territory penalty n1 proximity placement,
        positionScoring grid row col (len grid) (gridCols grid) p gameState n
          = (Ok (territory, penalty), n1)
        ∧ enemyProximityScore grid row col (len grid) (gridCols grid) p gameState
          = Ok proximity
        ∧ Rival.placementStrategyScore grid cell
            (calculateCriticalMass row col (len grid) (gridCols grid))
            row col (len grid) (gridCols grid) p = Ok placement
        ∧ (aggressiveScore ev == inject_Z (proximity + placement) - penalty)%Q)
     ∧ (noEnemyAround grid row col p → (aggressiveScore ev == 0)%Q))
  ∧ (rectangular grid →
     (∃ ev n', Simple.evaluateStrategicMove grid row col p gameState n = (Ok ev, n'))
     ∧ (∃ ev n', Rival.evaluateStrategicMove grid row col p gameState n
                 = (Ok ev, n'))).
Proof.
  intros Hcell Hlt.
  destruct (aggressiveScore_below_critical_mass grid row col p gameState cell n
              Hcell Hlt) as [HS HR].
  split; [|split].
  - intros ev n' Hev. split; [by eauto|]. intros Hno.
    destruct (aggressiveScore_zero_when_quiet grid row col p gameState cell n
                Hcell Hlt Hno) as [HS0 _]. eauto.
  - intros ev n' Hev. split; [by eauto|]. intros Hno.
    destruct (aggressiveScore_zero_when_quiet grid row col p gameState cell n
                Hcell Hlt Hno) as [_ HR0]. eauto.
  - intros Hrect.
    destruct (evaluateStrategicMove_returns grid row col p gameState cell
                Hrect Hcell) as [HtS HtR].
    split; [apply HtS | apply HtR].
Qed.

End Quiet.

(** * Operations on the store that leave existing objects alone *)

Lemma grows_ret {A} (a : A) : grows (mret a).
Proof. by intros σ. Qed.

Lemma grows_liftH {A} (m : result A) : grows (liftH m).
Proof. by intros σ. Qed.

Lemma grows_bind {A B} (m : H A) (k : A → H B) :
  grows m → (∀ a, grows (k a)) → grows (m ≫= k).
Proof.
  intros Hm Hk σ. unfold mbind, H_bind. specialize (Hm σ).
  destruct (m σ) as [[a|] σ1]; simpl in *; [|done].
  etrans; [exact Hm | apply Hk].
Qed.

Lemma grows_alloc o : grows (alloc o).
Proof.
  intros σ. unfold alloc. simpl. apply insert_subseteq.
  apply not_elem_of_dom, is_fresh.
Qed.

Lemma grows_readArray l : grows (readArray l).
Proof. intros σ. unfold readArray. by repeat case_match. Qed.

Lemma grows_readCell l : grows (readCell l).
Proof. intros σ. unfold readCell. by repeat case_match. Qed.

Lemma grows_readElem l i : grows (readElem l i).
Proof.
  apply grows_bind; [apply grows_readArray | intros; apply grows_liftH].
Qed.

Lemma grows_mapM {A B} (f : A → H B) l :
  (∀ x, grows (f x)) → grows (mapM f l).
Proof.
  intros Hf. induction l as [|x l IH]; [apply grows_ret|].
  change (mapM f (x :: l)) with (y ← f x; k ← mapM f l; mret (y :: k)).
  apply grows_bind; [apply Hf|]. intros y.
  apply grows_bind; [apply IH|]. intros k. apply grows_ret.
Qed.

Lemma grows_copyCell l : grows (copyCell l).
Proof.
  apply grows_bind; [apply grows_readCell | intros; apply grows_alloc].
Qed.

Lemma grows_copyRow l : grows (copyRow l).
Proof.
  apply grows_bind; [apply grows_readArray | intros cells].
  apply grows_bind; [apply grows_mapM, grows_copyCell | intros; apply grows_alloc].
Qed.

Lemma grows_copyGrid g : grows (copyGrid g).
Proof.
  apply grows_bind; [apply grows_readArray | intros rows].
  apply grows_bind; [apply grows_mapM, grows_copyRow | intros; apply grows_alloc].
Qed.

Lemma grows_readGrid g : grows (readGrid g).
Proof.
  apply grows_bind; [apply grows_readArray | intros rows].
  apply grows_mapM. intros r.
  apply grows_bind; [apply grows_readArray | intros cells].
  apply grows_mapM, grows_readCell.
Qed.

Lemma frame_bind {A B} (σ0 : store) (m : H A) (k : A → H B) σ :
  σ0 ⊆ (m σ).2 → (∀ a σ1, m σ = (Ok a, σ1) → σ0 ⊆ (k a σ1).2) →
  σ0 ⊆ ((m ≫= k) σ).2.
Proof.
  intros Hm Hk. unfold mbind, H_bind.
  destruct (m σ) as [[a|] σ1] eqn:Hrun; simpl in *; [by apply Hk | done].
Qed.

Lemma frame_grows {A} (σ0 : store) (m : H A) σ :
  grows m → σ0 ⊆ σ → σ0 ⊆ (m σ).2.
Proof. intros Hm Hσ. etrans; [exact Hσ | apply Hm]. Qed.

Lemma grows_run {A} (m : H A) σ a σ' : grows m → m σ = (a, σ') → σ ⊆ σ'.
Proof. intros Hm Hrun. specialize (Hm σ). by rewrite Hrun in Hm. Qed.

Lemma H_bind_Ok {A B} (m : H A) (k : A → H B) σ b σ' :
  (m ≫= k) σ = (Ok b, σ') ↔ ∃ a σ1, m σ = (Ok a, σ1) ∧ k a σ1 = (Ok b, σ').
Proof.
  unfold mbind, H_bind. destruct (m σ) as [[a|] σ1]; split.
  - intros Hk. by exists a, σ1.
  - by intros (a' & σ1' & [= -> ->] & Hk).
  - done.
  - by intros (a' & σ1' & [=] & _).
Qed.

Lemma alloc_Ok o σ l σ' :
  alloc o σ = (Ok l, σ') → σ !! l = None ∧ σ' = <[l := o]> σ.
Proof.
  unfold alloc. intros [= <- <-]. split; [|done].
  apply not_elem_of_dom, is_fresh.
Qed.

Lemma readArray_Ok l σ elems σ' :
  readArray l σ = (Ok elems, σ') → σ !! l = Some (ObjArray elems) ∧ σ' = σ.
Proof. unfold readArray. intros Hr. by repeat case_match; simplify_eq. Qed.

Lemma readCell_Ok l σ c σ' :
  readCell l σ = (Ok c, σ') → σ !! l = Some (ObjCell c) ∧ σ' = σ.
Proof. unfold readCell. intros Hr. by repeat case_match; simplify_eq. Qed.

Lemma readElem_Ok l i σ x σ' :
  readElem l i σ = (Ok x, σ') →
  ∃ elems, σ !! l = Some (ObjArray elems) ∧ x ∈ elems ∧ σ' = σ.
Proof.
  unfold readElem. intros Hr.
  apply H_bind_Ok in Hr as (elems & σ1 & [Hl ->]%readArray_Ok & Hr).
  unfold liftH in Hr. injection Hr as Hr <-.
  exists elems. split; [done|]. split; [|done]. by eapply deref_idx_elem_of.
Qed.

Lemma mapM_H_Forall {A B} (P : store → B → Prop) (f : A → H B) (σ0 : store)
    l σ r σ' :
  (∀ x, grows (f x)) →
  (∀ σ σ' y, σ ⊆ σ' → P σ y → P σ' y) →
  (∀ x σ y σ', σ0 ⊆ σ → f x σ = (Ok y, σ') → P σ' y) →
  σ0 ⊆ σ → mapM f l σ = (Ok r, σ') → Forall (P σ') r.
Proof.
  intros Hg Hup Hf. revert σ r. induction l as [|x l IH]; intros σ r Hσ Hr.
  - injection Hr as <- <-. constructor.
  - change (mapM f (x :: l)) with (y ← f x; k ← mapM f l; mret (y :: k)) in Hr.
    apply H_bind_Ok in Hr as (y & σ1 & Hy & Hr).
    apply H_bind_Ok in Hr as (ys & σ2 & Hys & Hr).
    injection Hr as <- <-.
    assert (σ ⊆ σ1) by by eapply grows_run.
    assert (σ1 ⊆ σ2) by (eapply grows_run; [|done]; by apply grows_mapM).
    constructor.
    + eapply Hup; [done|]. by eapply Hf.
    + eapply IH; [|done]. by etrans.
Qed.

Lemma copyCell_fresh σ0 l σ l' σ' :
  σ0 ⊆ σ → copyCell l σ = (Ok l', σ') → σ0 !! l' = None.
Proof.
  intros Hσ Hc. unfold copyCell in Hc.
  apply H_bind_Ok in Hc as (c & σ1 & [_ ->]%readCell_Ok & Hc).
  apply alloc_Ok in Hc as [Hn _]. by eapply lookup_weaken_None.
Qed.

Lemma copyRow_fresh σ0 l σ l' σ' :
  σ0 ⊆ σ → copyRow l σ = (Ok l', σ') → freshRow σ0 σ' l'.
Proof.
  intros Hσ Hc. unfold copyRow in Hc.
  apply H_bind_Ok in Hc as (cells & σ1 & [_ ->]%readArray_Ok & Hc).
  apply H_bind_Ok in Hc as (cells' & σ2 & Hm & Hc).
  assert (σ ⊆ σ2) by (eapply grows_run; [|done]; apply grows_mapM, grows_copyCell).
  apply alloc_Ok in Hc as [Hn ->]. split.
  - eapply lookup_weaken_None; [done|]. by etrans.
  - exists cells'. split; [apply lookup_insert_eq|].
    eapply (mapM_H_Forall (λ _ c, σ0 !! c = None)); [| | |exact Hσ|exact Hm].
    + apply grows_copyCell.
    + done.
    + intros. by eapply copyCell_fresh.
Qed.

Lemma freshRow_weaken σ0 σ σ' l : σ ⊆ σ' → freshRow σ0 σ l → freshRow σ0 σ' l.
Proof.
  intros Hσ (Hn & cells & Hl & Hc). split; [done|].
  exists cells. split; [|done]. by eapply lookup_weaken.
Qed.

Lemma copyGrid_fresh σ0 g sim σ1 :
  copyGrid g σ0 = (Ok sim, σ1) →
  σ0 ⊆ σ1 ∧ σ0 !! sim = None ∧
  ∃ rows, σ1 !! sim = Some (ObjArray rows) ∧ Forall (freshRow σ0 σ1) rows
          ∧ sim ∉ rows.
Proof.
  intros Hc. split; [by eapply grows_run; [apply grows_copyGrid|]|].
  unfold copyGrid in Hc.
  apply H_bind_Ok in Hc as (rows & σ & [_ ->]%readArray_Ok & Hc).
  apply H_bind_Ok in Hc as (rows' & σ2 & Hm & Hc).
  assert (σ0 ⊆ σ2) by (eapply grows_run; [|done]; apply grows_mapM, grows_copyRow).
  apply alloc_Ok in Hc as [Hn ->].
  assert (Forall (freshRow σ0 σ2) rows') as Hfresh.
  { eapply (mapM_H_Forall (freshRow σ0)); [| | |reflexivity|exact Hm].
    - apply grows_copyRow.
    - intros. by eapply freshRow_weaken.
    - intros. by eapply copyRow_fresh. }
  split; [by eapply lookup_weaken_None|].
  exists rows'. split; [apply lookup_insert_eq|]. split.
  - eapply Forall_impl; [exact Hfresh|].
    intros l Hl. eapply freshRow_weaken; [|done]. by apply insert_subseteq.
  - intros Hin. eapply Forall_forall in Hfresh as (_ & cells & Hl & _); [|exact Hin].
    congruence.
Qed.

(** A cell of the copy, reached through [sim[row][col]]. *)
Lemma copy_cell_fresh σ0 g sim σ1 row col simRow cell σ2 σ3 :
  copyGrid g σ0 = (Ok sim, σ1) →
  readElem sim row σ1 = (Ok simRow, σ2) →
  readElem simRow col σ2 = (Ok cell, σ3) →
  σ3 = σ1 ∧ σ0 ⊆ σ1 ∧ σ0 !! simRow = None ∧ σ0 !! cell = None.
Proof.
  intros (Hσ & _ & rows & Hrows & Hfresh & _)%copyGrid_fresh Hr Hc.
  apply readElem_Ok in Hr as (rows' & Hrows' & Hin & ->).
  rewrite Hrows in Hrows'. injection Hrows' as <-.
  eapply Forall_forall in Hfresh as (Hn & cells & Hcells & Hfc); [|exact Hin].
  apply readElem_Ok in Hc as (cells' & Hcells' & Hin' & ->).
  rewrite Hcells in Hcells'. injection Hcells' as <-.
  eapply Forall_forall in Hfc; [|exact Hin']. done.
Qed.

Lemma frame_putObject (σ0 : store) l o σ :
  σ0 !! l = None → σ0 ⊆ σ → σ0 ⊆ (putObject l o σ).2.
Proof. intros Hn Hσ. simpl. by apply insert_subseteq_r. Qed.

Section Frame.
Context {U : GameUtils}.

Lemma grows_calculateChainReactionPotential_ref g row col p :
  grows (calculateChainReactionPotential_ref g row col p).
Proof.
  intros σ0. unfold calculateChainReactionPotential_ref.
  apply frame_bind; [apply grows_readArray|]. intros rowsArr ? [_ ->]%readArray_Ok.
  apply frame_bind; [apply grows_readElem|].
  intros row0 ? (? & _ & _ & ->)%readElem_Ok.
  apply frame_bind; [apply grows_readArray|]. intros row0Arr ? [_ ->]%readArray_Ok.
  apply frame_bind; [apply grows_copyGrid|]. intros sim σ1 Hcopy.
  apply frame_bind; [apply frame_grows; [apply grows_readElem|];
                     by eapply grows_run; [apply grows_copyGrid|]|].
  intros simRow σ2 Hr.
  apply frame_bind; [apply frame_grows; [apply grows_readElem|];
                     apply readElem_Ok in Hr as (? & _ & _ & ->);
                     by eapply grows_run; [apply grows_copyGrid|]|].
  intros cell σ3 Hc.
  destruct (copy_cell_fresh _ _ _ _ _ _ _ _ _ _ Hcopy Hr Hc) as (-> & Hσ & _ & Hn).
  apply frame_bind; [by apply frame_grows; [apply grows_readCell|]|].
  intros c ? [_ ->]%readCell_Ok.
  apply frame_bind; [by apply frame_putObject|]. intros [] σ4 [= <-].
  assert (σ0 ⊆ <[cell:=ObjCell (mkCell (atoms c + 1) (player c))]> σ1) as Hσ4
    by by apply insert_subseteq_r.
  apply frame_bind; [by apply frame_grows; [apply grows_readCell|]|].
  intros c' ? [_ ->]%readCell_Ok.
  apply frame_bind; [by apply frame_putObject|]. intros [] σ5 [= <-].
  assert (σ0 ⊆ <[cell:=ObjCell (mkCell (atoms c') (Some p))]>
                (<[cell:=ObjCell (mkCell (atoms c + 1) (player c))]> σ1)) as Hσ5
    by by apply insert_subseteq_r.
  apply frame_bind; [by apply frame_grows; [apply grows_readGrid|]|].
  intros simGrid σ6 Hg.
  apply frame_grows; [apply grows_liftH|].
  etrans; [exact Hσ5|]. by eapply grows_run; [apply grows_readGrid|].
Qed.

End Frame.

Lemma frame_writeElem (σ0 : store) l i v σ r σ' :
  σ0 !! l = None → σ0 ⊆ σ → writeElem l i v σ = (r, σ') → σ0 ⊆ σ'.
Proof.
  intros Hn Hσ Hw. unfold writeElem, mbind, H_bind in Hw.
  destruct (readArray l σ) as [[elems|] σ1] eqn:Hread.
  - apply readArray_Ok in Hread as [_ ->].
    case_decide; injection Hw as <- <-; [by apply insert_subseteq_r | done].
  - injection Hw as <- <-. unfold readArray in Hread.
    by repeat case_match; simplify_eq.
Qed.

Lemma grows_simulateMove_ref g row col p : grows (simulateMove_ref g row col p).
Proof.
  intros σ0. unfold simulateMove_ref.
  apply frame_bind; [apply grows_copyGrid|]. intros newGrid σ1 Hcopy.
  apply frame_bind; [apply frame_grows; [apply grows_readElem|];
                     by eapply grows_run; [apply grows_copyGrid|]|].
  intros newRow σ2 Hr.
  apply frame_bind; [apply frame_grows; [apply grows_readElem|];
                     apply readElem_Ok in Hr as (? & _ & _ & ->);
                     by eapply grows_run; [apply grows_copyGrid|]|].
  intros old σ3 Hc.
  destruct (copy_cell_fresh _ _ _ _ _ _ _ _ _ _ Hcopy Hr Hc) as (-> & Hσ & Hn & _).
  apply frame_bind; [by apply frame_grows; [apply grows_readCell|]|].
  intros c ? [_ ->]%readCell_Ok.
  apply frame_bind; [by apply frame_grows; [apply grows_alloc|]|].
  intros cell σ4 [Hfresh ->]%alloc_Ok.
  assert (σ0 ⊆ <[cell:=ObjCell (mkCell (atoms c + 1) (Some p))]> σ1) as Hσ4.
  { etrans; [exact Hσ|]. by apply insert_subseteq. }
  unfold mbind, H_bind.
  destruct (writeElem newRow col cell _) as [[[]|] σ5] eqn:Hw; simpl;
    by eapply frame_writeElem.
Qed.

Lemma H_bind_run {A B} (m : H A) (k : A → H B) σ a σ1 :
  m σ = (Ok a, σ1) → (m ≫= k) σ = k a σ1.
Proof. intros Hm. unfold mbind, H_bind. by rewrite Hm. Qed.

Lemma readCell_run l σ c : σ !! l = Some (ObjCell c) → readCell l σ = (Ok c, σ).
Proof. intros Hl. unfold readCell. by rewrite Hl. Qed.

Lemma readArray_run l σ elems :
  σ !! l = Some (ObjArray elems) → readArray l σ = (Ok elems, σ).
Proof. intros Hl. unfold readArray. by rewrite Hl. Qed.

Lemma mapM_readCell_pure σ cells r σ1 :
  mapM readCell cells σ = (Ok r, σ1) → σ1 = σ.
Proof.
  revert r. induction cells as [|c cells IH]; intros r Hr.
  - by injection Hr as <- <-.
  - change (mapM readCell (c :: cells))
      with (y ← readCell c; k ← mapM readCell cells; mret (y :: k)) in Hr.
    apply H_bind_Ok in Hr as (? & ? & [_ ->]%readCell_Ok & Hr).
    apply H_bind_Ok in Hr as (? & ? & Hys & Hr). injection Hr as <- <-.
    by eapply IH.
Qed.

(** Reading a grid only depends on the objects it reaches. *)
Lemma mapM_readCell_weaken σ σ' cells r σ1 :
  σ ⊆ σ' → mapM readCell cells σ = (Ok r, σ1) →
  mapM readCell cells σ' = (Ok r, σ').
Proof.
  intros Hσ. revert r. induction cells as [|l cells IH]; intros r Hr.
  - by injection Hr as <- <-.
  - change (mapM readCell (l :: cells))
      with (y ← readCell l; k ← mapM readCell cells; mret (y :: k)) in *.
    apply H_bind_Ok in Hr as (y & σ2 & [Hy ->]%readCell_Ok & Hr).
    apply H_bind_Ok in Hr as (ys & σ3 & Hys & Hr). injection Hr as <- <-.
    rewrite (H_bind_run _ _ σ' y σ')
      by (apply readCell_run; by eapply lookup_weaken).
    by rewrite (H_bind_run _ _ σ' ys σ') by by apply IH.
Qed.

Lemma readGrid_weaken σ σ' g grid σ1 :
  σ ⊆ σ' → readGrid g σ = (Ok grid, σ1) → readGrid g σ' = (Ok grid, σ').
Proof.
  intros Hσ Hr. unfold readGrid in *.
  apply H_bind_Ok in Hr as (rows & σ2 & [Hrows ->]%readArray_Ok & Hr).
  rewrite (H_bind_run _ _ σ' rows σ')
    by (apply readArray_run; by eapply lookup_weaken).
  clear Hrows. revert grid Hr. induction rows as [|l rows IH]; intros grid Hr.
  - by injection Hr as <- <-.
  - set (f := λ r, cells ← readArray r; mapM readCell cells) in *.
    change (mapM f (l :: rows)) with (y ← f l; k ← mapM f rows; mret (y :: k)) in *.
    apply H_bind_Ok in Hr as (y & σ3 & Hy & Hr).
    apply H_bind_Ok in Hr as (ys & σ4 & Hys & Hr). injection Hr as <- <-.
    unfold f in Hy.
    apply H_bind_Ok in Hy as (cells & σ5 & [Hcells ->]%readArray_Ok & Hy).
    assert (σ3 = σ) as -> by by eapply mapM_readCell_pure.
    assert (f l σ' = (Ok y, σ')) as Hy'.
    { unfold f. rewrite (H_bind_run _ _ σ' cells σ')
        by (apply readArray_run; by eapply lookup_weaken).
      by eapply mapM_readCell_weaken. }
    rewrite (H_bind_run _ _ σ' y σ' Hy').
    by rewrite (H_bind_run _ _ σ' ys σ') by by apply IH.
Qed.

Lemma snapshot_weaken σ σ' g grid :
  σ ⊆ σ' → snapshot σ g = Some grid → snapshot σ' g = Some grid.
Proof.
  intros Hσ. unfold snapshot.
  destruct (readGrid g σ) as [[grid0|] σ1] eqn:Hr; [|done]. intros [= ->].
  by rewrite (readGrid_weaken _ _ _ _ _ Hσ Hr).
Qed.

Lemma simulateMove_ref_fresh σ g row col p newGrid σ' :
  simulateMove_ref g row col p σ = (Ok newGrid, σ') → freshGrid σ σ' newGrid.
Proof.
  unfold simulateMove_ref. intros Hs.
  apply H_bind_Ok in Hs as (ng & σ1 & Hcopy & Hs).
  pose proof (copyGrid_fresh _ _ _ _ Hcopy)
    as (Hσ1 & Hng & rows & Hrows & Hfresh & Hnotin).
  apply H_bind_Ok in Hs as (newRow & σ2 & Hr & Hs).
  apply H_bind_Ok in Hs as (old & σ3 & Hc & Hs).
  destruct (copy_cell_fresh _ _ _ _ _ _ _ _ _ _ Hcopy Hr Hc) as (-> & _ & Hnr & _).
  apply readElem_Ok in Hr as (rows0 & Hrows0 & Hin & ->).
  rewrite Hrows in Hrows0. injection Hrows0 as <-.
  apply H_bind_Ok in Hs as (c & ? & [_ ->]%readCell_Ok & Hs).
  apply H_bind_Ok in Hs as (cell & σ4 & [Hcell ->]%alloc_Ok & Hs).
  apply H_bind_Ok in Hs as ([] & σ5 & Hw & Hs). injection Hs as <- <-.
  unfold writeElem in Hw.
  apply H_bind_Ok in Hw as (cells & ? & [Hcells ->]%readArray_Ok & Hw).
  assert (newRow ≠ cell) as Hne by (intros ->; rewrite lookup_insert_eq in Hcells; done).
  rewrite lookup_insert_ne in Hcells by done.
  assert (ng ≠ cell) as Hng' by (intros ->; congruence).
  assert (σ !! cell = None) as Hcell0 by by eapply lookup_weaken_None.
  split; [done|]. exists rows.
  assert (∀ l cs, l ≠ cell → l ≠ newRow → σ1 !! l = Some (ObjArray cs) →
            σ5 !! l = Some (ObjArray cs)) as Hkeep.
  { intros l cs Hl1 Hl2 Hl. case_decide; injection Hw as <-.
    - rewrite lookup_insert_ne by done. by rewrite lookup_insert_ne.
    - by rewrite lookup_insert_ne. }
  split.
  - apply Hkeep; [done| |done]. by intros ->.
  - eapply Forall_impl; [exact Hfresh|]. intros l (Hl0 & cs & Hl & Hcs).
    split; [done|]. destruct (decide (l = newRow)) as [->|Hnl].
    + rewrite Hcells in Hl. injection Hl as <-. case_decide; injection Hw as <-.
      * exists (<[Z.to_nat col := cell]> cells).
        split; [apply lookup_insert_eq|].
        apply Forall_forall. intros x Hx.
        apply list_elem_of_lookup in Hx as [i Hi].
        destruct (decide (i = Z.to_nat col)) as [->|Hni].
        -- apply lookup_lt_Some in Hi as Hlt. rewrite length_insert in Hlt.
           rewrite list_lookup_insert_eq in Hi by done. by injection Hi as <-.
        -- rewrite list_lookup_insert_ne in Hi by done.
           eapply Forall_forall in Hcs; [exact Hcs|].
           by eapply list_elem_of_lookup_2.
      * exists cells. split; [|done]. by rewrite lookup_insert_ne.
    + exists cs. split; [|done]. apply Hkeep; [|done..]. intros ->. congruence.
Qed.

Section Search.
Context {U : GameUtils}.

Lemma grows_minimax_ref depth grid isMaximizing alpha beta p gameState :
  grows (minimax_ref depth grid isMaximizing alpha beta p gameState).
Proof.
  revert grid isMaximizing alpha beta p.
  induction depth as [|depth IH]; intros grid isMaximizing alpha beta p; simpl.
  - apply grows_bind; [apply grows_readGrid | intros g].
    apply grows_bind; [apply grows_liftH | intros; apply grows_ret].
  - apply grows_bind; [apply grows_readGrid | intros g].
    apply grows_bind; [apply grows_liftH | intros validMoves].
    destruct isMaximizing.
    + generalize NegInf. generalize alpha.
      induction validMoves as [|move moves IHm]; intros a e; [apply grows_ret|].
      apply grows_bind; [apply grows_simulateMove_ref | intros newGrid].
      apply grows_bind; [apply IH | intros evaluation].
      destruct (ext_le _ _); [apply grows_ret | apply IHm].
    + generalize PosInf. generalize beta.
      induction validMoves as [|move moves IHm]; intros b e; [apply grows_ret|].
      apply grows_bind; [apply grows_simulateMove_ref | intros newGrid].
      apply grows_bind; [apply IH | intros evaluation].
      destruct (ext_le _ _); [apply grows_ret | apply IHm].
Qed.

(** [C4] The chain-reaction simulator, [simulateMove] and the search built
    on it leave every object of the store they start from unchanged, so
    the caller's grid reads the same afterwards, cell by cell; the grid
    returned by [simulateMove] is made of new objects only: its array of
    rows, every row and every cell. *)
Theorem caller_grid_unchanged (σ : store) (g : loc) :
  (∀ row col p,
     σ ⊆ (calculateChainReactionPotential_ref g row col p σ).2
     ∧ σ ⊆ (simulateMove_ref g row col p σ).2)
  ∧ (∀ depth isMaximizing alpha beta p gameState,
     σ ⊆ (minimax_ref depth g isMaximizing alpha beta p gameState σ).2)
  ∧ (∀ grid, snapshot σ g = Some grid →
     (∀ row col p,
        snapshot (calculateChainReactionPotential_ref g row col p σ).2 g = Some grid
        ∧ snapshot (simulateMove_ref g row col p σ).2 g = Some grid)
     ∧ (∀ depth isMaximizing alpha beta p gameState,
        snapshot (minimax_ref depth g isMaximizing alpha beta p gameState σ).2 g
        = Some grid))
  ∧ (∀ row col p newGrid σ',
     simulateMove_ref g row col p σ = (Ok newGrid, σ') → freshGrid σ σ' newGrid).
Proof.
  split; [|split; [|split]].
  - intros. split; [apply grows_calculateChainReactionPotential_ref
                   | apply grows_simulateMove_ref].
  - intros. apply grows_minimax_ref.
  - intros grid Hs. split.
    + intros. split; (eapply snapshot_weaken; [|exact Hs]);
        [apply grows_calculateChainReactionPotential_ref
        | apply grows_simulateMove_ref].
    + intros. eapply snapshot_weaken; [|exact Hs]. apply grows_minimax_ref.
  - intros row col p newGrid σ'. apply simulateMove_ref_fresh.
Qed.

End Search.

(** * The functions on references compute what the functions on values do *)

Lemma cellsRep_weaken σ σ' cells rw :
  σ ⊆ σ' → cellsRep σ cells rw → cellsRep σ' cells rw.
Proof.
  intros Hσ Hrep. eapply Forall2_impl; [exact Hrep|].
  intros l c Hl. simpl in *. exact (lookup_weaken _ _ _ _ Hl Hσ).
Qed.

Lemma rowsRep_weaken σ σ' rows cellss :
  σ ⊆ σ' → rowsRep σ rows cellss → rowsRep σ' rows cellss.
Proof.
  intros Hσ Hrep. eapply Forall2_impl; [exact Hrep|].
  intros l c Hl. simpl in *. exact (lookup_weaken _ _ _ _ Hl Hσ).
Qed.

Lemma mapM_readCell_rep σ cells rw :
  cellsRep σ cells rw → mapM readCell cells σ = (Ok rw, σ).
Proof.
  induction 1 as [|l c cells rw Hl _ IH]; [done|].
  change (mapM readCell (l :: cells))
    with (y ← readCell l; k ← mapM readCell cells; mret (y :: k)).
  rewrite (H_bind_run _ _ σ c σ) by by apply readCell_run.
  by rewrite (H_bind_run _ _ σ rw σ).
Qed.

Lemma readGrid_rep σ g rows cellss grid :
  gridRep σ g rows cellss grid → readGrid g σ = (Ok grid, σ).
Proof.
  intros (Hg & Hrows & Hcells). unfold readGrid.
  rewrite (H_bind_run _ _ σ rows σ) by by apply readArray_run.
  clear Hg. revert grid Hcells.
  induction Hrows as [|l cells rows cellss Hl _ IH]; intros grid Hcells.
  - by apply Forall2_nil_inv_l in Hcells as ->.
  - apply Forall2_cons_inv_l in Hcells as (rw & grid' & Hrw & Hcells & ->).
    set (f := λ r, cells ← readArray r; mapM readCell cells).
    change (mapM f (l :: rows)) with (y ← f l; k ← mapM f rows; mret (y :: k)).
    assert (f l σ = (Ok rw, σ)) as Hf.
    { unfold f. rewrite (H_bind_run _ _ σ cells σ) by by apply readArray_run.
      by apply mapM_readCell_rep. }
    rewrite (H_bind_run _ _ σ rw σ Hf).
    by rewrite (H_bind_run _ _ σ grid' σ) by by apply IH.
Qed.

Lemma mapM_readCell_inv σ cells rw σ' :
  mapM readCell cells σ = (Ok rw, σ') → cellsRep σ cells rw.
Proof.
  revert rw. induction cells as [|l cells IH]; intros rw Hr.
  - injection Hr as <- <-. constructor.
  - change (mapM readCell (l :: cells))
      with (y ← readCell l; k ← mapM readCell cells; mret (y :: k)) in Hr.
    apply H_bind_Ok in Hr as (y & ? & [Hy ->]%readCell_Ok & Hr).
    apply H_bind_Ok in Hr as (ys & ? & Hys & Hr). injection Hr as <- <-.
    constructor; [done | by apply IH].
Qed.

Lemma snapshot_rep σ g grid :
  snapshot σ g = Some grid → ∃ rows cellss, gridRep σ g rows cellss grid.
Proof.
  unfold snapshot. destruct (readGrid g σ) as [[grid0|] σ1] eqn:Hr; [|done].
  intros [= ->]. unfold readGrid in Hr.
  apply H_bind_Ok in Hr as (rows & ? & [Hg ->]%readArray_Ok & Hr).
  exists rows. unfold gridRep. rewrite Hg.
  cut (∃ cellss, rowsRep σ rows cellss ∧ Forall2 (cellsRep σ) cellss grid).
  { intros (cellss & ? & ?). by exists cellss. }
  clear Hg. revert grid σ1 Hr. induction rows as [|l rows IH]; intros grid σ1 Hr.
  - injection Hr as <- <-. exists []. split; constructor.
  - set (f := λ r, cells ← readArray r; mapM readCell cells) in *.
    change (mapM f (l :: rows)) with (y ← f l; k ← mapM f rows; mret (y :: k)) in Hr.
    apply H_bind_Ok in Hr as (y & σ2 & Hy & Hr).
    apply H_bind_Ok in Hr as (ys & σ3 & Hys & Hr). injection Hr as <- <-.
    unfold f in Hy.
    apply H_bind_Ok in Hy as (cells & ? & [Hl ->]%readArray_Ok & Hy).
    assert (σ2 = σ) as -> by by eapply mapM_readCell_pure.
    destruct (IH _ _ Hys) as (cellss & Hrows & Hcells).
    exists (cells :: cellss). split; constructor; try done.
    by eapply mapM_readCell_inv.
Qed.

Lemma cellsRep_elem σ cells rw x :
  cellsRep σ cells rw → x ∈ cells → ∃ c, σ !! x = Some (ObjCell c).
Proof.
  intros Hrep [i Hi]%list_elem_of_lookup.
  destruct (Forall2_lookup_l _ _ _ _ _ Hrep Hi) as (c & _ & Hc). by exists c.
Qed.

(** What the deep copy allocates: new cells, all distinct, holding the
    same values. *)
Lemma mapM_copyCell_spec σ cells rw :
  cellsRep σ cells rw →
  ∃ cells' σ',
    mapM copyCell cells σ = (Ok cells', σ') ∧ σ ⊆ σ'
    ∧ cellsRep σ' cells' rw ∧ NoDup cells'
    ∧ Forall (λ l, σ !! l = None) cells'.
Proof.
  revert σ rw. induction cells as [|l cells IH]; intros σ rw Hrep.
  - apply Forall2_nil_inv_l in Hrep as ->. exists [], σ.
    split; [done|]. split; [done|]. split; [constructor|]. split; constructor.
  - apply Forall2_cons_inv_l in Hrep as (c & rw' & Hl & Hrep & ->).
    set (l1 := fresh (dom σ)).
    assert (σ !! l1 = None) as Hl1 by apply not_elem_of_dom, is_fresh.
    assert (copyCell l σ = (Ok l1, <[l1 := ObjCell c]> σ)) as Hcopy.
    { unfold copyCell. by rewrite (H_bind_run _ _ σ c σ) by by apply readCell_run. }
    assert (σ ⊆ <[l1 := ObjCell c]> σ) as Hσ1 by by apply insert_subseteq.
    destruct (IH (<[l1 := ObjCell c]> σ) rw')
      as (cells' & σ' & Hm & Hσ' & Hrep' & Hnd & Hfr).
    { eapply cellsRep_weaken; [exact Hσ1 | exact Hrep]. }
    exists (l1 :: cells'), σ'.
    change (mapM copyCell (l :: cells))
      with (y ← copyCell l; k ← mapM copyCell cells; mret (y :: k)).
    rewrite (H_bind_run _ _ _ _ _ Hcopy), (H_bind_run _ _ _ _ _ Hm).
    split; [done|]. split; [by etrans|]. split; [|split].
    + constructor; [|done]. eapply lookup_weaken; [|done]. apply lookup_insert_eq.
    + constructor; [|done]. intros Hin.
      eapply Forall_forall in Hfr; [|done]. simpl in Hfr.
      by rewrite lookup_insert_eq in Hfr.
    + constructor; [done|]. eapply Forall_impl; [done|].
      intros x Hx. simpl in *. by eapply lookup_weaken_None.
Qed.

Lemma copyRow_spec σ l cells rw :
  σ !! l = Some (ObjArray cells) → cellsRep σ cells rw →
  ∃ l' cells' σ',
    copyRow l σ = (Ok l', σ') ∧ σ ⊆ σ'
    ∧ σ' !! l' = Some (ObjArray cells') ∧ cellsRep σ' cells' rw
    ∧ NoDup cells' ∧ Forall (λ x, σ !! x = None) cells' ∧ σ !! l' = None.
Proof.
  intros Hl Hrep.
  destruct (mapM_copyCell_spec σ cells rw Hrep)
    as (cells' & σ1 & Hm & Hσ1 & Hrep' & Hnd & Hfr).
  set (l' := fresh (dom σ1)).
  assert (σ1 !! l' = None) as Hl' by apply not_elem_of_dom, is_fresh.
  exists l', cells', (<[l' := ObjArray cells']> σ1).
  assert (σ1 ⊆ <[l' := ObjArray cells']> σ1) as Hσ2 by by apply insert_subseteq.
  split; [|split; [by etrans|split; [apply lookup_insert_eq|split;
            [by eapply cellsRep_weaken|split; [done|split; [done|]]]]]].
  - unfold copyRow.
    rewrite (H_bind_run _ _ σ cells σ) by by apply readArray_run.
    by rewrite (H_bind_run _ _ _ _ _ Hm).
  - by eapply lookup_weaken_None.
Qed.

Lemma mapM_copyRow_spec σ rows cellss grid :
  rowsRep σ rows cellss → Forall2 (cellsRep σ) cellss grid →
  ∃ rows' cellss' σ',
    mapM copyRow rows σ = (Ok rows', σ') ∧ σ ⊆ σ'
    ∧ rowsRep σ' rows' cellss' ∧ Forall2 (cellsRep σ') cellss' grid
    ∧ NoDup rows' ∧ NoDup (concat cellss')
    ∧ Forall (λ x, σ !! x = None) rows'
    ∧ Forall (λ x, σ !! x = None) (concat cellss').
Proof.
  revert σ cellss grid.
  induction rows as [|l rows IH]; intros σ cellss grid Hrows Hcells.
  - apply Forall2_nil_inv_l in Hrows as ->.
    apply Forall2_nil_inv_l in Hcells as ->.
    exists [], [], σ.
    split; [done|]. split; [done|]. do 5 (split; [constructor|]). constructor.
  - apply Forall2_cons_inv_l in Hrows as (cells & cellss0 & Hl & Hrows & ->).
    apply Forall2_cons_inv_l in Hcells as (rw & grid' & Hrw & Hcells & ->).
    destruct (copyRow_spec σ l cells rw Hl Hrw)
      as (l' & cells' & σ1 & Hcopy & Hσ1 & Hl' & Hrep' & Hnd & Hfr & Hnl').
    destruct (IH σ1 cellss0 grid') as
      (rows' & cellss' & σ' & Hm & Hσ' & Hrows' & Hcells' & Hndr & Hndc & Hfrr & Hfrc).
    { by eapply rowsRep_weaken. }
    { eapply Forall2_impl; [exact Hcells|]. intros. by eapply cellsRep_weaken. }
    exists (l' :: rows'), (cells' :: cellss'), σ'.
    change (mapM copyRow (l :: rows))
      with (y ← copyRow l; k ← mapM copyRow rows; mret (y :: k)).
    rewrite (H_bind_run _ _ _ _ _ Hcopy), (H_bind_run _ _ _ _ _ Hm).
    split; [done|]. split; [by etrans|].
    split; [constructor; [by eapply lookup_weaken | done]|].
    split; [constructor; [by eapply cellsRep_weaken | done]|].
    split; [|split; [|split]].
    + constructor; [|done]. intros Hin.
      eapply Forall_forall in Hfrr; [|done]. simpl in Hfrr. congruence.
    + simpl. apply NoDup_app. split; [done|]. split; [|done].
      intros x Hx Hx'.
      eapply Forall_forall in Hfrc; [|done]. simpl in Hfrc.
      destruct (cellsRep_elem _ _ _ _ Hrep' Hx) as [c Hc]. congruence.
    + constructor; [done|]. eapply Forall_impl; [done|].
      intros x Hx. simpl in *. by eapply lookup_weaken_None.
    + simpl. apply Forall_app. split; [done|]. eapply Forall_impl; [done|].
      intros x Hx. simpl in *. by eapply lookup_weaken_None.
Qed.

Lemma elem_of_concat_lookup {A} (ls : list (list A)) i l j x :
  ls !! i = Some l → l !! j = Some x → x ∈ concat ls.
Proof.
  intros Hl Hx. apply list_elem_of_In, in_concat. exists l.
  split; apply list_elem_of_In; by eapply list_elem_of_lookup_2.
Qed.

(** In a list of lists without repetition, an element has one position. *)
Lemma concat_NoDup_position {A} (ls : list (list A)) i j i' j' l l' x :
  NoDup (concat ls) →
  ls !! i = Some l → l !! j = Some x →
  ls !! i' = Some l' → l' !! j' = Some x →
  i = i' ∧ j = j'.
Proof.
  revert i i'. induction ls as [|l0 ls IH]; intros i i' Hnd Hl Hx Hl' Hx';
    [done|].
  simpl in Hnd. apply NoDup_app in Hnd as (Hnd0 & Hdisj & Hnd).
  destruct i as [|i], i' as [|i']; simpl in Hl, Hl'.
  - injection Hl as ->. injection Hl' as ->.
    split; [done|]. exact (NoDup_lookup _ _ _ _ Hnd0 Hx Hx').
  - injection Hl as ->. exfalso. apply (Hdisj x).
    + exact (list_elem_of_lookup_2 _ _ _ Hx).
    + exact (elem_of_concat_lookup _ _ _ _ _ Hl' Hx').
  - injection Hl' as ->. exfalso. apply (Hdisj x).
    + exact (list_elem_of_lookup_2 _ _ _ Hx').
    + exact (elem_of_concat_lookup _ _ _ _ _ Hl Hx).
  - destruct (IH i i' Hnd Hl Hx Hl' Hx') as [-> ->]. done.
Qed.

Lemma copyGrid_spec σ g rows cellss grid :
  gridRep σ g rows cellss grid →
  ∃ sim rows' cellss' σ',
    copyGrid g σ = (Ok sim, σ') ∧ σ ⊆ σ'
    ∧ gridRep σ' sim rows' cellss' grid
    ∧ NoDup rows' ∧ NoDup (concat cellss') ∧ sim ∉ rows'.
Proof.
  intros (Hg & Hrows & Hcells).
  destruct (mapM_copyRow_spec σ rows cellss grid Hrows Hcells)
    as (rows' & cellss' & σ1 & Hm & Hσ1 & Hrows' & Hcells' & Hndr & Hndc & _ & _).
  set (sim := fresh (dom σ1)).
  assert (σ1 !! sim = None) as Hsim by apply not_elem_of_dom, is_fresh.
  assert (σ1 ⊆ <[sim := ObjArray rows']> σ1) as Hσ2 by by apply insert_subseteq.
  exists sim, rows', cellss', (<[sim := ObjArray rows']> σ1).
  split; [|split; [by etrans|split; [|split; [done|split; [done|]]]]].
  - unfold copyGrid.
    rewrite (H_bind_run _ _ σ rows σ) by by apply readArray_run.
    by rewrite (H_bind_run _ _ _ _ _ Hm).
  - split; [apply lookup_insert_eq|]. split; [by eapply rowsRep_weaken|].
    eapply Forall2_impl; [exact Hcells'|]. intros. by eapply cellsRep_weaken.
  - intros [i Hi]%list_elem_of_lookup.
    destruct (Forall2_lookup_l _ _ _ _ _ Hrows' Hi) as (cells & _ & Hc).
    simpl in Hc. congruence.
Qed.

(** Assigning to the fields of one cell of a grid whose cells are all
    distinct objects changes that cell only. *)
Lemma gridRep_write_cell σ g rows cellss grid r c cells cl x :
  gridRep σ g rows cellss grid → NoDup (concat cellss) →
  cellss !! r = Some cells → cells !! c = Some cl →
  gridRep (<[cl := ObjCell x]> σ) g rows cellss
          (alter (λ rw, <[c := x]> rw) r grid).
Proof.
  intros (Hg & Hrows & Hcells) Hnd Hr Hc.
  assert (∃ y, σ !! cl = Some (ObjCell y)) as [y Hcl].
  { destruct (Forall2_lookup_l _ _ _ _ _ Hcells Hr) as (rw & _ & Hrw).
    eapply cellsRep_elem; [exact Hrw|]. by eapply list_elem_of_lookup_2. }
  split; [|split].
  - rewrite lookup_insert_ne; [done|]. intros ->. congruence.
  - eapply Forall2_impl; [exact Hrows|]. intros l cs Hl. simpl in *.
    rewrite lookup_insert_ne; [done|]. intros ->. congruence.
  - apply Forall2_same_length_lookup in Hcells as [Hlen Hcells].
    apply Forall2_same_length_lookup_2; [by rewrite length_alter|].
    intros i cs rw' Hi Hrw'.
    destruct (decide (i = r)) as [->|Hne].
    + rewrite list_lookup_alter_eq in Hrw'.
      destruct (grid !! r) as [rw|] eqn:Hrw; [|done]. injection Hrw' as <-.
      rewrite Hr in Hi. injection Hi as <-.
      specialize (Hcells r cells rw Hr Hrw).
      apply Forall2_same_length_lookup in Hcells as [Hlen' Hcells].
      apply Forall2_same_length_lookup_2; [by rewrite length_insert|].
      intros j l z Hj Hz.
      destruct (decide (j = c)) as [->|Hne].
      * rewrite Hc in Hj. injection Hj as <-.
        rewrite list_lookup_insert_eq in Hz
          by (rewrite <- Hlen'; by eapply lookup_lt_Some).
        injection Hz as <-. apply lookup_insert_eq.
      * rewrite list_lookup_insert_ne in Hz by done.
        rewrite lookup_insert_ne; [by eapply Hcells|].
        intros ->.
        destruct (concat_NoDup_position cellss r c r j cells cells l Hnd);
          done.
    + rewrite list_lookup_alter_ne in Hrw' by done.
      specialize (Hcells i cs rw' Hi Hrw').
      apply Forall2_same_length_lookup in Hcells as [Hlen' Hcells].
      apply Forall2_same_length_lookup_2; [done|].
      intros j l z Hj Hz. rewrite lookup_insert_ne; [by eapply Hcells|].
      intros ->.
      destruct (concat_NoDup_position cellss r c i j cells cs l Hnd); done.
Qed.

Lemma idx_Forall2 {A B} (P : A → B → Prop) (l : list A) (k : list B) i :
  Forall2 P l k →
  match idx l i, idx k i with
  | Some x, Some y => P x y
  | None, None => True
  | _, _ => False
  end.
Proof.
  intros HF. unfold idx. case_decide; [|done].
  destruct (l !! Z.to_nat i) as [x|] eqn:Hx.
  - destruct (Forall2_lookup_l _ _ _ _ _ HF Hx) as (y & -> & Hy). done.
  - apply lookup_ge_None in Hx. rewrite (Forall2_length _ _ _ HF) in Hx.
    apply lookup_ge_None in Hx. by rewrite Hx.
Qed.

Lemma len_Forall2 {A B} (P : A → B → Prop) (l : list A) (k : list B) :
  Forall2 P l k → len l = len k.
Proof. intros HF. unfold len. by rewrite (Forall2_length _ _ _ HF). Qed.

Lemma readElem_run l i σ elems :
  σ !! l = Some (ObjArray elems) → readElem l i σ = (deref (idx elems i), σ).
Proof.
  intros Hl. unfold readElem.
  by rewrite (H_bind_run _ _ σ elems σ) by by apply readArray_run.
Qed.

Lemma H_bind_throw {A B} (m : H A) (k : A → H B) σ σ1 :
  m σ = (Throw, σ1) → (m ≫= k) σ = (Throw, σ1).
Proof. intros Hm. unfold mbind, H_bind. by rewrite Hm. Qed.

(** Storing a new cell in one slot of one row array of a grid whose row
    arrays are distinct objects changes that slot only. *)
Lemma gridRep_write_elem σ g rows cellss grid r c rowloc cells new x :
  gridRep σ g rows cellss grid → NoDup rows → g ∉ rows →
  rows !! r = Some rowloc → cellss !! r = Some cells →
  σ !! new = None →
  gridRep (<[rowloc := ObjArray (<[c := new]> cells)]> (<[new := ObjCell x]> σ))
          g rows (alter (λ cs, <[c := new]> cs) r cellss)
          (alter (λ rw, <[c := x]> rw) r grid).
Proof.
  intros (Hg & Hrows & Hcells) Hnd Hgr Hr Hcs Hnew.
  assert (∃ cs0, σ !! rowloc = Some (ObjArray cs0)) as [cs0 Hrowloc].
  { destruct (Forall2_lookup_l _ _ _ _ _ Hrows Hr) as (cs0 & _ & Hl). by exists cs0. }
  assert (∀ l z, σ !! l = Some (ObjCell z) →
            (<[rowloc := ObjArray (<[c := new]> cells)]> (<[new := ObjCell x]> σ))
              !! l = Some (ObjCell z)) as Hkeep.
  { intros l z Hl. rewrite lookup_insert_ne by (intros ->; congruence).
    rewrite lookup_insert_ne by (intros ->; congruence). done. }
  split; [|split].
  - rewrite lookup_insert_ne.
    + rewrite lookup_insert_ne; [done|]. intros ->. congruence.
    + intros ->. apply Hgr. by eapply list_elem_of_lookup_2.
  - apply Forall2_same_length_lookup in Hrows as [Hlen Hrows].
    apply Forall2_same_length_lookup_2; [by rewrite length_alter|].
    intros i l cs' Hi Hcs'.
    destruct (decide (i = r)) as [->|Hne].
    + rewrite Hr in Hi. injection Hi as <-.
      rewrite list_lookup_alter_eq, Hcs in Hcs'. injection Hcs' as <-.
      apply lookup_insert_eq.
    + rewrite list_lookup_alter_ne in Hcs' by done.
      specialize (Hrows i l cs' Hi Hcs'). simpl in Hrows.
      rewrite lookup_insert_ne.
      * rewrite lookup_insert_ne; [done|]. intros ->. congruence.
      * intros ->. apply Hne. by eapply NoDup_lookup.
  - apply Forall2_same_length_lookup in Hcells as [Hlen Hcells].
    apply Forall2_same_length_lookup_2; [by rewrite !length_alter|].
    intros i cs' rw' Hi Hrw'.
    destruct (decide (i = r)) as [->|Hne].
    + rewrite list_lookup_alter_eq, Hcs in Hi. injection Hi as <-.
      rewrite list_lookup_alter_eq in Hrw'.
      destruct (grid !! r) as [rw|] eqn:Hrw; [|done]. injection Hrw' as <-.
      specialize (Hcells r cells rw Hcs Hrw).
      apply Forall2_same_length_lookup in Hcells as [Hlen' Hcells].
      apply Forall2_same_length_lookup_2; [by rewrite !length_insert|].
      intros j l z Hj Hz.
      destruct (decide (j = c)) as [->|Hnej].
      * apply lookup_lt_Some in Hj as Hlt. rewrite length_insert in Hlt.
        rewrite list_lookup_insert_eq in Hj by done. injection Hj as <-.
        rewrite list_lookup_insert_eq in Hz by (by rewrite <- Hlen').
        injection Hz as <-.
        rewrite lookup_insert_ne by (intros ->; congruence).
        apply lookup_insert_eq.
      * rewrite list_lookup_insert_ne in Hj by done.
        rewrite list_lookup_insert_ne in Hz by done.
        apply Hkeep. by eapply Hcells.
    + rewrite list_lookup_alter_ne in Hi by done.
      rewrite list_lookup_alter_ne in Hrw' by done.
      specialize (Hcells i cs' rw' Hi Hrw').
      eapply Forall2_impl; [exact Hcells|]. intros l z Hl. by apply Hkeep.
Qed.

Section Refinement.
Context {U : GameUtils}.

(** The simulator on references returns what the simulator on grid values
    returns for the grid read from the store. *)
Theorem calculateChainReactionPotential_ref_value σ g grid row col p :
  snapshot σ g = Some grid →
  (calculateChainReactionPotential_ref g row col p σ).1
  = calculateChainReactionPotential grid row col p.
Proof.
  intros (rows & cellss & Hrep)%snapshot_rep.
  pose proof Hrep as (Hg & Hrows & Hcells).
  unfold calculateChainReactionPotential_ref, calculateChainReactionPotential.
  rewrite (H_bind_run _ _ σ rows σ) by by apply readArray_run.
  cbv beta zeta.
  assert (len rows = len grid) as ->.
  { rewrite (len_Forall2 _ _ _ Hrows). by rewrite (len_Forall2 _ _ _ Hcells). }
  (* grid[0].length *)
  pose proof (readElem_run g 0 σ rows Hg) as He0.
  pose proof (idx_Forall2 _ _ _ 0 Hrows) as H0.
  pose proof (idx_Forall2 _ _ _ 0 Hcells) as H0'.
  destruct (idx rows 0) as [row0|]; destruct (idx cellss 0) as [cells0|];
    try done; destruct (idx grid 0) as [rw0|]; try done;
    [|by rewrite (H_bind_throw _ _ _ _ He0)].
  rewrite (H_bind_run _ _ _ _ _ He0).
  rewrite (H_bind_run _ _ σ cells0 σ) by by apply readArray_run.
  cbv beta zeta.
  assert (len cells0 = len rw0) as -> by by eapply len_Forall2.
  (* the deep copy *)
  destruct (copyGrid_spec σ g rows cellss grid Hrep)
    as (sim & rows' & cellss' & σ1 & Hcopy & Hσ1 & Hrep' & _ & Hnd & _).
  rewrite (H_bind_run _ _ _ _ _ Hcopy).
  pose proof Hrep' as (Hsim & Hrows' & Hcells').
  (* simulatedGrid[row][col] *)
  pose proof (readElem_run sim row σ1 rows' Hsim) as Her.
  pose proof (idx_Forall2 _ _ _ row Hrows') as Hr.
  pose proof (idx_Forall2 _ _ _ row Hcells') as Hr'.
  unfold cellAt.
  destruct (idx rows' row) as [simRow|] eqn:HsimRow;
    destruct (idx cellss' row) as [cells|] eqn:Hcellsr;
    try done; destruct (idx grid row) as [rw|]; try done;
    [|by rewrite (H_bind_throw _ _ _ _ Her)].
  rewrite (H_bind_run _ _ _ _ _ Her).
  pose proof (readElem_run simRow col σ1 cells Hr) as Hec.
  pose proof (idx_Forall2 _ _ _ col Hr') as Hc.
  change (Some rw ≫= λ rw1 : list GridCell, idx rw1 col) with (idx rw col).
  destruct (idx cells col) as [cl|] eqn:Hcl; destruct (idx rw col) as [c|];
    try done; [|by rewrite (H_bind_throw _ _ _ _ Hec)].
  rewrite (H_bind_run _ _ _ _ _ Hec).
  (* the two assignments *)
  rewrite (H_bind_run _ _ σ1 c σ1) by by apply readCell_run.
  rewrite (H_bind_run _ _ σ1 ()
             (<[cl := ObjCell (mkCell (atoms c + 1) (player c))]> σ1)) by done.
  rewrite (H_bind_run _ _ _ (mkCell (atoms c + 1) (player c)) _)
    by apply readCell_run, lookup_insert_eq.
  rewrite (H_bind_run _ _ _ ()
             (<[cl := ObjCell (mkCell (atoms c + 1) (Some p))]> σ1))
    by (unfold writeCell, putObject; by rewrite insert_insert_eq).
  (* reading the copy back *)
  assert (0 ≤ row ∧ 0 ≤ col) as [Hrow Hcol].
  { pose proof (idx_Some _ _ _ HsimRow). pose proof (idx_Some _ _ _ Hcl). lia. }
  rewrite idx_nonneg in Hcellsr by done. rewrite idx_nonneg in Hcl by done.
  pose proof (gridRep_write_cell _ _ _ _ _ _ _ _ _
                (mkCell (atoms c + 1) (Some p)) Hrep' Hnd Hcellsr Hcl) as Hrep''.
  rewrite (H_bind_run _ _ _ _ _ (readGrid_rep _ _ _ _ _ Hrep'')).
  unfold liftH. simpl. unfold setCell. by rewrite decide_True.
Qed.

(** [simulateMove] on references returns a grid that reads as the result
    of [simulateMove] on the grid value, and throws when it throws. *)
Theorem simulateMove_ref_value σ g grid row col p :
  snapshot σ g = Some grid →
  match simulateMove_ref g row col p σ with
  | (Ok newGrid, σ') =>
      ∃ grid', Rival.simulateMove grid row col p = Ok grid'
               ∧ snapshot σ' newGrid = Some grid'
  | (Throw, _) => Rival.simulateMove grid row col p = Throw
  end.
Proof.
  intros (rows & cellss & Hrep)%snapshot_rep.
  unfold simulateMove_ref, Rival.simulateMove.
  destruct (copyGrid_spec σ g rows cellss grid Hrep)
    as (sim & rows' & cellss' & σ1 & Hcopy & Hσ1 & Hrep' & Hndr & _ & Hsimr).
  rewrite (H_bind_run _ _ _ _ _ Hcopy).
  pose proof Hrep' as (Hsim & Hrows' & Hcells').
  pose proof (readElem_run sim row σ1 rows' Hsim) as Her.
  pose proof (idx_Forall2 _ _ _ row Hrows') as Hr.
  pose proof (idx_Forall2 _ _ _ row Hcells') as Hr'.
  unfold cellAt.
  destruct (idx rows' row) as [newRow|] eqn:HnewRow;
    destruct (idx cellss' row) as [cells|] eqn:Hcellsr;
    try done; destruct (idx grid row) as [rw|]; try done;
    [|by rewrite (H_bind_throw _ _ _ _ Her)].
  rewrite (H_bind_run _ _ _ _ _ Her).
  pose proof (readElem_run newRow col σ1 cells Hr) as Hec.
  pose proof (idx_Forall2 _ _ _ col Hr') as Hc.
  change (Some rw ≫= λ rw1 : list GridCell, idx rw1 col) with (idx rw col).
  destruct (idx cells col) as [old|] eqn:Hold; destruct (idx rw col) as [c|];
    try done; [|by rewrite (H_bind_throw _ _ _ _ Hec)].
  rewrite (H_bind_run _ _ _ _ _ Hec).
  rewrite (H_bind_run _ _ σ1 c σ1) by by apply readCell_run.
  set (new := fresh (dom σ1)).
  assert (σ1 !! new = None) as Hnew by apply not_elem_of_dom, is_fresh.
  set (x := mkCell (atoms c + 1) (Some p)).
  rewrite (H_bind_run _ _ σ1 new (<[new := ObjCell x]> σ1)) by done.
  assert (0 ≤ row ∧ 0 ≤ col) as [Hrow Hcol].
  { pose proof (idx_Some _ _ _ HnewRow). pose proof (idx_Some _ _ _ Hold). lia. }
  assert (writeElem newRow col new (<[new := ObjCell x]> σ1)
          = (Ok (), <[newRow := ObjArray (<[Z.to_nat col := new]> cells)]>
                      (<[new := ObjCell x]> σ1))) as Hw.
  { unfold writeElem.
    rewrite (H_bind_run _ _ _ cells (<[new := ObjCell x]> σ1)).
    - by rewrite decide_True.
    - apply readArray_run. rewrite lookup_insert_ne; [done|]. intros ->.
      congruence. }
  rewrite (H_bind_run _ _ _ _ _ Hw). simpl.
  exists (setCell grid row col x). split; [done|].
  rewrite idx_nonneg in HnewRow by done. rewrite idx_nonneg in Hcellsr by done.
  pose proof (gridRep_write_elem _ _ _ _ _ _ (Z.to_nat col) _ _ new x
                Hrep' Hndr Hsimr HnewRow Hcellsr Hnew) as Hrep''.
  unfold snapshot. rewrite (readGrid_rep _ _ _ _ _ Hrep'').
  unfold setCell. by rewrite decide_True.
Qed.

End Refinement.

(** ** The move validator, case by case *)

Section ValidatorCases.
Context {U : GameUtils}.

Lemma onHQ_iff hqs row col :
  from_option (λ hs, isHQCell hs row col) false hqs = true ↔ onHQ hqs row col.
Proof.
  unfold onHQ. destruct hqs as [hs|]; simpl.
  - rewrite isHQCell_true. split.
    + intros (hq & ? & ? & ?). by exists hs, hq.
    + intros (hs' & hq & [= <-] & ? & ? & ?). by exists hq.
  - split; [done|]. by intros (? & ? & ? & _).
Qed.

(** Inside the bounds tested by the first statement, the validator is
    its remaining statements. *)
Lemma isValidMoveForAI_inside grid row col p mode hqs :
  0 ≤ row < len grid → 0 ≤ col < gridCols grid →
  isValidMoveForAI grid row col p mode hqs
  = if mode && from_option (λ hs, isHQCell hs row col) false hqs then Ok false
    else
      c ← deref (cellAt grid row col);
      if negb mode
      then Ok (bool_decide (player c = None) || ownedBy c p)
      else if isEnemy c p then Ok false
      else match hqs ≫= λ hs, findHQ hs p with
           | Some playerHQ =>
               if negb (hasPlayerDots grid p)
               then Ok ((row =? hq_row playerHQ) || (col =? hq_col playerHQ))
               else Ok ((Z.abs (row - hq_row playerHQ) <=? 1)
                        && (Z.abs (col - hq_col playerHQ) <=? 1)
                        || hasAdjacentDot grid row col p)
           | None => Ok true
           end.
Proof.
  intros Hr Hc. unfold isValidMoveForAI, gridCols, cellAt in *.
  destruct (idx_is_Some grid 0) as [row0 E0]; [lia|].
  destruct (idx_is_Some grid row) as [gridRow Er]; [lia|].
  rewrite E0, Er in *. simpl in *.
  destruct (row <? 0) eqn:E1; [lia|].
  destruct (row >=? len grid) eqn:E2; [lia|].
  destruct (col <? 0) eqn:E3; [lia|]. simpl.
  destruct (col >=? len row0) eqn:E4; [lia|].
  destruct (mode && _); [done|]. by destruct mode.
Qed.

Lemma hasAdjacentDot_true grid row col p :
  hasAdjacentDot grid row col p = true ↔
  ∃ r c, ownDotAt grid p r c ∧ isAdjacentTo row col r c = true.
Proof.
  unfold hasAdjacentDot, ownDotAt. rewrite anyCell_true. split.
  - intros (r & c & d & Hd & Hf). apply andb_true_iff in Hf as [Hdot Hadj].
    unfold isPlayerDot, ownedBy in Hdot. apply andb_true_iff in Hdot as [Ho Ha].
    apply bool_decide_eq_true in Ho. exists r, c. split; [|done].
    exists d. repeat split; [done..|lia].
  - intros (r & c & (d & Hd & Ho & Ha) & Hadj). exists r, c, d. split; [done|].
    unfold isPlayerDot, ownedBy. rewrite bool_decide_eq_true_2 by done.
    rewrite Hadj. simpl. rewrite andb_true_r. lia.
Qed.

Lemma hasPlayerDots_true grid p :
  hasPlayerDots grid p = true ↔ ∃ r c, ownDotAt grid p r c.
Proof.
  unfold hasPlayerDots, ownDotAt. rewrite anyCell_true. split.
  - intros (r & c & d & Hd & Hdot).
    unfold isPlayerDot, ownedBy in Hdot. apply andb_true_iff in Hdot as [Ho Ha].
    apply bool_decide_eq_true in Ho. exists r, c, d. repeat split; [done..|lia].
  - intros (r & c & d & Hd & Ho & Ha). exists r, c, d. split; [done|].
    unfold isPlayerDot, ownedBy. rewrite bool_decide_eq_true_2 by done. simpl. lia.
Qed.

Lemma isEnemy_false cell p :
  isEnemy cell p = false ↔ player cell = None ∨ player cell = Some p.
Proof.
  unfold isEnemy. destruct (player cell) as [q|].
  - rewrite negb_false_iff, bool_decide_eq_true.
    split; [intros ->; by right | by intros [|[= ->]]].
  - split; [by left | done].
Qed.

Lemma isValidMoveForAI_true_inside grid row col p mode hqs :
  isValidMoveForAI grid row col p mode hqs = Ok true →
  0 ≤ row < len grid ∧ 0 ≤ col < gridCols grid.
Proof. intros Hv. by eapply isValidMoveForAI_inBounds. Qed.

Lemma cellAt_row_inside grid row col cell :
  cellAt grid row col = Some cell → 0 ≤ row < len grid ∧ 0 ≤ col.
Proof.
  unfold cellAt. destruct (idx grid row) as [rw|] eqn:Hrw; [|done]. simpl.
  intros Hc. apply idx_Some in Hrw. apply idx_Some in Hc. lia.
Qed.

(** [X1] The validator in classic mode, case by case: a move is approved
    exactly when its column is below [grid[0].length] and the cell exists
    and is empty or owned by the player; the headquarters list plays no
    part. *)
Theorem isValidMoveForAI_classic_iff grid row col currentPlayer hqs :
  isValidMoveForAI grid row col currentPlayer false hqs = Ok true ↔
  col < gridCols grid
  ∧ ∃ cell, cellAt grid row col = Some cell
            ∧ (player cell = None ∨ player cell = Some currentPlayer).
Proof.
  split.
  - intros Hv. destruct (isValidMoveForAI_true_inside _ _ _ _ _ _ Hv) as [Hr Hc].
    rewrite isValidMoveForAI_inside in Hv by done. simpl in Hv.
    destruct (cellAt grid row col) as [cell|]; [|done]. simpl in Hv.
    split; [lia|]. exists cell. split; [done|].
    injection Hv as Hv. apply orb_true_iff in Hv as [Hv|Hv].
    + left. by apply bool_decide_eq_true in Hv.
    + right. by apply bool_decide_eq_true in Hv.
  - intros (Hc & cell & Hcell & Hp).
    destruct (cellAt_row_inside _ _ _ _ Hcell) as [Hr Hc0].
    rewrite isValidMoveForAI_inside by lia. simpl. rewrite Hcell. simpl. f_equal.
    apply orb_true_iff. unfold ownedBy.
    destruct Hp as [Hp|Hp]; [left | right]; by apply bool_decide_eq_true.
Qed.

(** [X2] The validator in base mode once the player has a headquarters in
    the list and atoms on the board: a move is approved exactly when the
    cell is inside the grid, is no headquarters, is empty or owned by the
    player, and lies within one row and one column of the player's
    headquarters or is adjacent to a cell where the player has atoms. *)
Theorem isValidMoveForAI_base_expansion_iff grid row col currentPlayer hqs playerHQ :
  findHQ hqs currentPlayer = Some playerHQ →
  (∃ r c, ownDotAt grid currentPlayer r c) →
  isValidMoveForAI grid row col currentPlayer true (Some hqs) = Ok true ↔
  col < gridCols grid
  ∧ ¬ onHQ (Some hqs) row col
  ∧ (∃ cell, cellAt grid row col = Some cell
             ∧ (player cell = None ∨ player cell = Some currentPlayer))
  ∧ (Z.abs (row - hq_row playerHQ) ≤ 1 ∧ Z.abs (col - hq_col playerHQ) ≤ 1
     ∨ ∃ r c, ownDotAt grid currentPlayer r c ∧ isAdjacentTo row col r c = true).
Proof.
  intros HHQ Hdots. apply hasPlayerDots_true in Hdots.
  split.
  - intros Hv. destruct (isValidMoveForAI_true_inside _ _ _ _ _ _ Hv) as [Hr Hc].
    rewrite isValidMoveForAI_inside in Hv by done. simpl in Hv.
    destruct (isHQCell hqs row col) eqn:Hq; [done|].
    destruct (cellAt grid row col) as [cell|]; [|done]. simpl in Hv.
    destruct (isEnemy cell currentPlayer) eqn:He; [done|].
    rewrite HHQ, Hdots in Hv. simpl in Hv. injection Hv as Hv.
    split; [lia|]. split.
    { intros Hon. apply onHQ_iff in Hon. simpl in Hon. congruence. }
    split; [exists cell; split; [done | by apply isEnemy_false]|].
    apply orb_true_iff in Hv as [Hv|Hv]; [left; lia|right].
    by apply hasAdjacentDot_true.
  - intros (Hc & Hon & (cell & Hcell & Hp) & Hnear).
    destruct (cellAt_row_inside _ _ _ _ Hcell) as [Hr Hc0].
    rewrite isValidMoveForAI_inside by lia. simpl.
    destruct (isHQCell hqs row col) eqn:Hq.
    { exfalso. apply Hon, onHQ_iff. done. }
    rewrite Hcell. simpl. apply isEnemy_false in Hp. rewrite Hp, HHQ, Hdots. simpl.
    f_equal. apply orb_true_iff.
    destruct Hnear as [Hn|Hn]; [left; lia | right; by apply hasAdjacentDot_true].
Qed.

(** [X3] The validator in base mode for a player without headquarters
    (no list, or no entry of the player): the expansion rule is skipped; a
    move is approved exactly when the cell is inside the grid, is no
    headquarters and is empty or owned by the player. *)
Theorem isValidMoveForAI_base_without_HQ_iff grid row col currentPlayer hqs :
  hqs ≫= (λ hs, findHQ hs currentPlayer) = None →
  isValidMoveForAI grid row col currentPlayer true hqs = Ok true ↔
  col < gridCols grid
  ∧ ¬ onHQ hqs row col
  ∧ ∃ cell, cellAt grid row col = Some cell
            ∧ (player cell = None ∨ player cell = Some currentPlayer).
Proof.
  intros HHQ. split.
  - intros Hv. destruct (isValidMoveForAI_true_inside _ _ _ _ _ _ Hv) as [Hr Hc].
    rewrite isValidMoveForAI_inside in Hv by done. simpl in Hv.
    destruct (from_option _ false hqs) eqn:Hq; [done|].
    destruct (cellAt grid row col) as [cell|]; [|done]. simpl in Hv.
    destruct (isEnemy cell currentPlayer) eqn:He; [done|].
    split; [lia|]. split.
    { intros Hon. apply onHQ_iff in Hon. congruence. }
    exists cell. split; [done | by apply isEnemy_false].
  - intros (Hc & Hon & cell & Hcell & Hp).
    destruct (cellAt_row_inside _ _ _ _ Hcell) as [Hr Hc0].
    rewrite isValidMoveForAI_inside by lia. simpl.
    destruct (from_option _ false hqs) eqn:Hq.
    { exfalso. by apply Hon, onHQ_iff. }
    rewrite Hcell. simpl. apply isEnemy_false in Hp. by rewrite Hp, HHQ.
Qed.

(** [X4] The only way [isValidMoveForAI] throws: the coordinates pass the
    bounds check, the cell is missing all the same (a row shorter than the
    first one) and the headquarters test of base mode has not rejected the
    move before the cell is read. *)
Theorem isValidMoveForAI_throws_iff grid row col currentPlayer isBaseMode hqs :
  isValidMoveForAI grid row col currentPlayer isBaseMode hqs = Throw ↔
  0 ≤ row < len grid ∧ 0 ≤ col < gridCols grid
  ∧ cellAt grid row col = None
  ∧ ¬ (isBaseMode = true ∧ onHQ hqs row col).
Proof.
  split.
  - intros Hv.
    destruct (decide (outOfBounds grid row col)) as [Ho|Hn].
    { rewrite isValidMoveForAI_outOfBounds in Hv; done. }
    unfold outOfBounds in Hn.
    rewrite isValidMoveForAI_inside in Hv by lia.
    split; [lia|]. split; [lia|].
    destruct (isBaseMode && _) eqn:Hq; [done|].
    destruct (cellAt grid row col) as [cell|].
    { exfalso. simpl in Hv. repeat case_match; done. }
    split; [done|]. intros [-> Hon]. apply onHQ_iff in Hon. simpl in Hq. congruence.
  - intros (Hr & Hc & Hcell & Hon).
    rewrite isValidMoveForAI_inside by lia. rewrite Hcell.
    destruct (isBaseMode && _) eqn:Hq; [|done].
    exfalso. apply Hon. apply andb_true_iff in Hq as [-> Hq].
    split; [done | by apply onHQ_iff].
Qed.

End ValidatorCases.

(** ** Neighbours and chain potential *)

Lemma getNeighborsForAI_cases row col rows cols :
  getNeighborsForAI row col rows cols
  = (if (0 <=? row + -1) && (row + -1 <? rows) && (0 <=? col + 0) && (col + 0 <? cols)
     then [(row + -1, col + 0)] else [])
    ++ (if (0 <=? row + 1) && (row + 1 <? rows) && (0 <=? col + 0) && (col + 0 <? cols)
        then [(row + 1, col + 0)] else [])
    ++ (if (0 <=? row + 0) && (row + 0 <? rows) && (0 <=? col + -1) && (col + -1 <? cols)
        then [(row + 0, col + -1)] else [])
    ++ (if (0 <=? row + 0) && (row + 0 <? rows) && (0 <=? col + 1) && (col + 1 <? cols)
        then [(row + 0, col + 1)] else []).
Proof.
  unfold getNeighborsForAI, directions. cbn [omap list_omap].
  repeat (match goal with |- context [if ?b then _ else _] => destruct b end);
    reflexivity.
Qed.

Lemma elem_of_getNeighborsForAI_iff row col rows cols nr nc :
  (nr, nc) ∈ getNeighborsForAI row col rows cols ↔
  0 ≤ nr < rows ∧ 0 ≤ nc < cols ∧ Z.abs (nr - row) + Z.abs (nc - col) = 1.
Proof.
  split; [apply elem_of_getNeighborsForAI|].
  intros (Hr & Hc & Hd). unfold getNeighborsForAI. apply list_elem_of_omap.
  exists (nr - row, nc - col). split.
  - unfold directions. rewrite !elem_of_cons.
    assert ((nr - row = -1 ∧ nc - col = 0) ∨ (nr - row = 1 ∧ nc - col = 0)
            ∨ (nr - row = 0 ∧ nc - col = -1) ∨ (nr - row = 0 ∧ nc - col = 1))
      as [[-> ->]|[[-> ->]|[[-> ->]|[-> ->]]]] by lia; auto.
  - replace (row + (nr - row)) with nr by lia.
    replace (col + (nc - col)) with nc by lia.
    destruct ((0 <=? nr) && (nr <? rows) && (0 <=? nc) && (nc <? cols)) eqn:Hb;
      [done | lia].
Qed.

Lemma getNeighborsForAI_NoDup row col rows cols :
  NoDup (getNeighborsForAI row col rows cols).
Proof.
  rewrite getNeighborsForAI_cases.
  repeat (match goal with |- context [if ?b then _ else _] => destruct b end);
    cbn [app];
    repeat (apply NoDup_cons; split;
            [rewrite ?elem_of_cons, elem_of_nil; intros Hx; repeat destruct Hx as [Hx|Hx];
             try done; injection Hx; lia|]);
    apply NoDup_nil_2.
Qed.

Lemma getNeighborsForAI_length row col rows cols :
  len (getNeighborsForAI row col rows cols) ≤ 4.
Proof.
  rewrite getNeighborsForAI_cases. unfold len.
  repeat (match goal with |- context [if ?b then _ else _] => destruct b end);
    cbn [app length]; lia.
Qed.

(** [X5] [getNeighborsForAI] returns exactly the cells of the board at
    Manhattan distance 1, without repetition, at most four of them, and all
    four, in the order up, down, left, right, away from the border. *)
Theorem getNeighborsForAI_spec row col rows cols :
  (∀ nr nc, (nr, nc) ∈ getNeighborsForAI row col rows cols ↔
            0 ≤ nr < rows ∧ 0 ≤ nc < cols
            ∧ Z.abs (nr - row) + Z.abs (nc - col) = 1)
  ∧ NoDup (getNeighborsForAI row col rows cols)
  ∧ len (getNeighborsForAI row col rows cols) ≤ 4
  ∧ (0 < row < rows - 1 → 0 < col < cols - 1 →
     getNeighborsForAI row col rows cols
     = [(row - 1, col); (row + 1, col); (row, col - 1); (row, col + 1)]).
Proof.
  split; [intros; apply elem_of_getNeighborsForAI_iff|].
  split; [apply getNeighborsForAI_NoDup|].
  split; [apply getNeighborsForAI_length|].
  intros Hr Hc. rewrite getNeighborsForAI_cases.
  repeat (match goal with
          | |- context [if ?b then _ else _] => destruct b eqn:?; [|lia]
          end).
  cbn [app]. repeat f_equal; lia.
Qed.

Lemma forEach_within {A} (k : Z) (f : Z → A → result Z) l acc r :
  (∀ a x b, x ∈ l → f a x = Ok b → a ≤ b ≤ a + k) →
  forEach f l acc = Ok r → acc ≤ r ≤ acc + k * len l.
Proof.
  revert acc. induction l as [|x l IH]; intros acc Hstep Hr; simpl in Hr.
  - injection Hr as <-. unfold len. simpl. lia.
  - destruct (f acc x) as [b|] eqn:Hf; [|done]. simpl in Hr.
    destruct (Hstep acc x b) as [? ?]; [left|done|].
    apply IH in Hr; [|intros a y c Hy; apply Hstep; by right].
    unfold len in *. rewrite length_cons. lia.
Qed.

Lemma forEach_gains {A} (d : Z) (f : Z → A → result Z) l x0 acc r :
  x0 ∈ l →
  (∀ a x b, x ∈ l → f a x = Ok b → a ≤ b) →
  (∀ a b, f a x0 = Ok b → a + d ≤ b) →
  forEach f l acc = Ok r → acc + d ≤ r.
Proof.
  revert acc. induction l as [|x l IH]; intros acc Hin Hstep Hx0 Hr; simpl in Hr.
  - by apply elem_of_nil in Hin.
  - destruct (f acc x) as [b|] eqn:Hf; [|done]. simpl in Hr.
    apply elem_of_cons in Hin as [<-|Hin].
    + apply Hx0 in Hf.
      assert (b ≤ r); [|lia].
      revert Hr. apply (forEach_invariant (λ c, b ≤ c)); [lia|].
      intros a y c Hy Ha Hc. apply Hstep in Hc; [lia | by right].
    + apply Hstep in Hf; [|left].
      apply IH in Hr; [lia|done| |done].
      intros a y c Hy. apply Hstep. by right.
Qed.

Section ChainPotentialRange.
Context {U : GameUtils}.

Lemma chainPotentialOf_range sim row col rows cols cell v :
  0 ≤ row < rows → 0 ≤ col < cols →
  cellAt sim row col = Some cell →
  chainPotentialOf sim row col rows cols = Ok v →
  (v = 0 ∨ 7 ≤ v ≤ 52)
  ∧ (atoms cell < calculateCriticalMass row col rows cols → v = 0).
Proof.
  intros Hr Hc Hcell Hv. unfold chainPotentialOf in Hv. rewrite Hcell in Hv.
  simpl in Hv.
  destruct (atoms cell >=? calculateCriticalMass row col rows cols) eqn:Hcm;
    [|injection Hv as <-; split; [by left | done]].
  split; [|lia].
  set (inner := λ (acc : Z) '(nnr, nnc),
      secondCell ← deref (cellAt sim nnr nnc);
      if atoms secondCell + 1 >=? calculateCriticalMass nnr nnc rows cols
      then Ok (acc + 2) else Ok acc) in *.
  assert (∀ a x b, inner a x = Ok b → a ≤ b ≤ a + 2) as Hstep.
  { intros a [nnr nnc] b Hb. unfold inner in Hb.
    destruct (cellAt sim nnr nnc); [|done]. simpl in Hb.
    case_if Hb; injection Hb as <-; lia. }
  assert (∀ nr nc a b, (nr, nc) ∈ getNeighborsForAI row col rows cols →
            forEach inner (getNeighborsForAI nr nc rows cols) (a + 5) = Ok b →
            a + 7 ≤ b ≤ a + 13) as Hinner.
  { intros nr nc a b Hn Hb.
    apply elem_of_getNeighborsForAI in Hn as (Hnr & Hnc & Hd).
    split.
    - assert (a + 5 + 2 ≤ b); [|lia].
      revert Hb. apply (forEach_gains 2 _ _ (row, col)).
      + apply elem_of_getNeighborsForAI_iff. lia.
      + intros a' x b' Hx Hb'. pose proof (Hstep a' x b' Hb'). lia.
      + intros a' b' Hb'. unfold inner in Hb'. rewrite Hcell in Hb'. simpl in Hb'.
        destruct (atoms cell + 1 >=? _) eqn:Hq; [|lia]. injection Hb' as <-. lia.
    - apply (forEach_within 2) in Hb.
      + pose proof (getNeighborsForAI_length nr nc rows cols). lia.
      + intros a' x b' Hx Hb'. exact (Hstep a' x b' Hb'). }
  assert (0 ≤ v ≤ 0 + 13 * len (getNeighborsForAI row col rows cols)) as Hup.
  { revert Hv. apply forEach_within. intros a [nr nc] b Hn Hb.
    destruct (cellAt sim nr nc) as [x|]; [|done]. simpl in Hb.
    case_if Hb; [|injection Hb as <-; lia].
    apply Hinner in Hb; [lia|done]. }
  pose proof (getNeighborsForAI_length row col rows cols).
  assert (v = 0 ∨ 7 ≤ v) as [->|Hlow]; [|by left|right; lia].
  revert Hv. apply (forEach_invariant (λ b, b = 0 ∨ 7 ≤ b)); [by left|].
  intros a [nr nc] b Hn Ha Hb.
  destruct (cellAt sim nr nc) as [x|]; [|done]. simpl in Hb.
  case_if Hb; [|by injection Hb as <-].
  apply Hinner in Hb; [|done]. right. lia.
Qed.

(** [X6] On a rectangular grid [calculateChainReactionPotential] returns
    for every cell of the grid: the result is 0 or lies between 7 and 52,
    and it is 0 when the placement stays below the critical mass of the
    cell. *)
Theorem chain_potential_range grid row col currentPlayer cell :
  rectangular grid → cellAt grid row col = Some cell →
  ∃ v, calculateChainReactionPotential grid row col currentPlayer = Ok v
     ∧ (v = 0 ∨ 7 ≤ v ≤ 52)
     ∧ (atoms cell + 1 < calculateCriticalMass row col (len grid) (gridCols grid)
        → v = 0).
Proof.
  intros Hrect Hcell.
  destruct (cellAt_inside grid row col cell Hrect Hcell) as [Hr Hc].
  destruct (calculateChainReactionPotential_total grid row col currentPlayer
              Hrect Hr Hc) as [v Hv].
  exists v. split; [done|].
  unfold calculateChainReactionPotential in Hv.
  destruct (idx_is_Some grid 0) as [row0 E0]; [lia|]. rewrite E0 in Hv.
  simpl in Hv.
  assert (len row0 = gridCols grid) as Hcols by (unfold gridCols; by rewrite E0).
  rewrite Hcols, Hcell in Hv. simpl in Hv.
  apply (chainPotentialOf_range _ _ _ _ _
           (mkCell (atoms cell + 1) (Some currentPlayer))) in Hv; [exact Hv|done..|].
  rewrite cellAt_setCell, decide_True by done. by rewrite Hcell.
Qed.

Lemma sameAtoms_sym grid grid' : sameAtoms grid grid' → sameAtoms grid' grid.
Proof.
  unfold sameAtoms. intros Hs. apply Forall2_flip.
  eapply Forall2_impl; [exact Hs|]. intros rw rw' Hrw. apply Forall2_flip.
  eapply Forall2_impl; [exact Hrw|]. done.
Qed.

Lemma sameAtoms_cellAt grid grid' r c :
  sameAtoms grid grid' →
  match cellAt grid r c, cellAt grid' r c with
  | Some x, Some x' => atoms x = atoms x'
  | None, None => True
  | _, _ => False
  end.
Proof.
  intros Hs. unfold sameAtoms in Hs. unfold cellAt, idx.
  destruct (decide (0 ≤ r)); [|done].
  destruct (grid !! Z.to_nat r) as [rw|] eqn:Erw.
  - destruct (Forall2_lookup_l _ _ _ _ _ Hs Erw) as (rw' & -> & Hrw). simpl.
    destruct (decide (0 ≤ c)); [|done].
    destruct (rw !! Z.to_nat c) as [x|] eqn:Ex.
    + by destruct (Forall2_lookup_l _ _ _ _ _ Hrw Ex) as (x' & -> & Hx).
    + destruct (rw' !! Z.to_nat c) as [x'|] eqn:Ex'; [|done].
      destruct (Forall2_lookup_r _ _ _ _ _ Hrw Ex') as (x & Hx & _). congruence.
  - destruct (grid' !! Z.to_nat r) as [rw'|] eqn:Erw'; [|done].
    destruct (Forall2_lookup_r _ _ _ _ _ Hs Erw') as (rw & Hx & _). congruence.
Qed.

Lemma sameAtoms_atomsLe grid grid' : sameAtoms grid grid' → atomsLe grid grid'.
Proof.
  intros Hs r c. pose proof (sameAtoms_cellAt grid grid' r c Hs) as Hc.
  destruct (cellAt grid r c), (cellAt grid' r c); try done. lia.
Qed.

Lemma sameAtoms_len grid grid' : sameAtoms grid grid' → len grid' = len grid.
Proof. intros Hs. unfold len. by rewrite (Forall2_length _ _ _ Hs). Qed.

Lemma sameAtoms_gridCols grid grid' :
  sameAtoms grid grid' → gridCols grid' = gridCols grid.
Proof.
  intros Hs. unfold gridCols, idx. rewrite !decide_True by lia.
  change (Z.to_nat 0) with 0%nat.
  destruct Hs as [|rw rw' ? ? Hrw _]; [done|]. simpl.
  unfold len. by rewrite (Forall2_length _ _ _ Hrw).
Qed.

(** [X7] The chain potential looks at atom counts only: two grids with
    the same atoms in every cell give the same result, whoever owns the
    cells and whoever is playing. *)
Theorem chain_potential_ignores_owners grid grid' row col p p' cell :
  rectangular grid → cellAt grid row col = Some cell → sameAtoms grid grid' →
  ∃ v, calculateChainReactionPotential grid row col p = Ok v
     ∧ calculateChainReactionPotential grid' row col p' = Ok v.
Proof.
  intros Hrect Hcell Hs.
  destruct (cellAt_inside grid row col cell Hrect Hcell) as [Hr Hc].
  pose proof (sameAtoms_len _ _ Hs) as Hlen.
  pose proof (sameAtoms_gridCols _ _ Hs) as Hcols.
  assert (rectangular grid') as Hrect'.
  { unfold rectangular in *. rewrite Hcols.
    apply Forall_forall. intros rw' Hin.
    apply list_elem_of_lookup in Hin as [i Hi].
    destruct (Forall2_lookup_r _ _ _ _ _ Hs Hi) as (rw & Hrw & Hrr).
    apply list_elem_of_lookup_2 in Hrw.
    eapply Forall_forall in Hrect; [|done]. simpl in Hrect.
    unfold len in *. by rewrite <- (Forall2_length _ _ _ Hrr). }
  destruct (calculateChainReactionPotential_total grid row col p Hrect Hr Hc)
    as [v Hv].
  destruct (calculateChainReactionPotential_total grid' row col p' Hrect')
    as [v' Hv']; [lia..|].
  exists v. split; [done|]. rewrite Hv'. f_equal.
  assert (∀ q q' g g' w w', atomsLe g g' → len g' = len g →
            gridCols g' = gridCols g →
            calculateChainReactionPotential g row col q = Ok w →
            calculateChainReactionPotential g' row col q' = Ok w' → w ≤ w')
    as Hmono.
  { intros q q' g g' w w' Hle Hl Hg Hw Hw'.
    unfold calculateChainReactionPotential in Hw, Hw'.
    unfold gridCols in Hg.
    destruct (idx g 0) as [r0|]; [|done].
    destruct (idx g' 0) as [r0'|]; [|done]. simpl in Hw, Hw', Hg.
    pose proof (Hle row col) as Hrc.
    destruct (cellAt g row col) as [x|]; [|done].
    destruct (cellAt g' row col) as [x'|]; [|done]. simpl in Hw, Hw'.
    rewrite Hl, Hg in Hw'.
    eapply chainPotentialOf_monotone; [|exact Hw|exact Hw'].
    apply atomsLe_setCell; [done|]. simpl. lia. }
  assert (v ≤ v').
  { eapply (Hmono p p' grid grid'); eauto using sameAtoms_atomsLe. }
  assert (v' ≤ v); [|lia].
  eapply (Hmono p' p grid' grid); eauto using sameAtoms_atomsLe, sameAtoms_sym.
Qed.

End ChainPotentialRange.

(** ** Personality generation *)

Lemma unitRandom_range (E : Entropy) :
  unitRandom E → ∀ k, (0 <= Math_random k)%Q ∧ (Math_random k < 1)%Q.
Proof.
  intros Hu k. destruct (unitDouble_spec _ (Hu k)) as [H0 H1].
  pose proof unitRoundoff_range. split; lra.
Qed.

Section Traits.
Context {U : GameUtils} {E : Entropy}.

Lemma idx_three {A} (a b c : A) i :
  0 ≤ i < 3 → idx [a; b; c] i = Some a ∨ idx [a; b; c] i = Some b
              ∨ idx [a; b; c] i = Some c.
Proof.
  intros Hi. assert (i = 0 ∨ i = 1 ∨ i = 2) as [-> | [-> | ->]] by lia; auto.
Qed.

(** A trait [lo + Math.random() * spread] lies between its values for
    the draws 0 and 1. *)
Lemma trait_between (lo spread u : Q) :
  (0 <= u)%Q → (u < 1)%Q → (0 <= double spread)%Q →
  (fadd (double lo) (fmul 0 (double spread))
   <= fadd (double lo) (fmul u (double spread)))%Q
  ∧ (fadd (double lo) (fmul u (double spread))
     <= fadd (double lo) (fmul 1 (double spread)))%Q.
Proof.
  intros H0 H1 Hs. unfold fadd, fmul.
  split; apply double_mono, Qplus_le_r, double_mono;
    apply Qmult_le_compat_r; (done || lra).
Qed.

Ltac trait_range Hu k :=
  let Hlo := fresh in let Hhi := fresh in
  destruct (unitRandom_range _ Hu k) as [Hlo Hhi];
  match goal with
  | |- (_ <= fadd (double ?lo) (fmul _ (double ?spread)) <= _)%Q =>
      destruct (trait_between lo spread _ Hlo Hhi ltac:(by vm_compute));
      split; [eapply Qle_trans; [|eassumption] | eapply Qle_trans; [eassumption|]];
      by vm_compute
  end.

(** [X8] [generateAIPersonality] of the tuning with [riskTaking] draws
    seven numbers and, when they are doubles of [0, 1), every trait lies in
    the range its comment gives, from the literal (a double) to the upper
    end included: rounding can reach the upper end, never pass it. *)
Theorem Simple_generateAIPersonality_ranges (n : nat) :
  unitRandom E →
  ∃ p, Simple.generateAIPersonality n = (Ok p, (7 + n)%nat)
     ∧ (double 0.2 <= Simple.aggressiveness p <= 2.5)%Q
     ∧ (double 0.2 <= Simple.defensiveness p <= 2.5)%Q
     ∧ (double 0.2 <= Simple.riskTaking p <= 2.5)%Q
     ∧ (double 0.8 <= Simple.powerUpHunting p <= 3.0)%Q
     ∧ (double 0.2 <= Simple.territorialness p <= 2.5)%Q
     ∧ (double 0.1 <= Simple.cornerPreference p <= 2.0)%Q
     ∧ (double 0.2 <= Simple.spreadTendency p <= 2.5)%Q.
Proof.
  intros Hu. eexists. split; [reflexivity|].
  cbn [Simple.aggressiveness Simple.defensiveness Simple.riskTaking
       Simple.powerUpHunting Simple.territorialness Simple.cornerPreference
       Simple.spreadTendency].
  split; [trait_range Hu n|].
  split; [trait_range Hu (S n)|].
  split; [trait_range Hu (S (S n))|].
  split; [trait_range Hu (S (S (S n)))|].
  split; [trait_range Hu (S (S (S (S n))))|].
  split; [trait_range Hu (S (S (S (S (S n)))))|].
  trait_range Hu (S (S (S (S (S (S n)))))).
Qed.

Lemma possibleEnemies_three player :
  ∃ a b c, filter (λ p, p ≠ player) Rival.allPlayers = [a; b; c]
           ∧ a ≠ player ∧ b ≠ player ∧ c ≠ player.
Proof.
  destruct player; eexists _, _, _;
    (split; [vm_compute; reflexivity | repeat split; discriminate]).
Qed.

(** [X9] A fresh personality of aiPlayer.ts costs nine draws; when they
    are doubles of [0, 1), every trait lies in the range its comment gives,
    from the literal (a double) to the upper end included, and the target
    enemy set by [getPersonality] is defined and is never the player
    itself. *)
Theorem Rival_freshPersonality_ranges (player : PLAYER) (n : nat) :
  unitRandom E →
  ∃ p, Rival.freshPersonality player n = (Ok p, (9 + n)%nat)
     ∧ (double 1.2 <= Rival.aggressiveness p <= 3.0)%Q
     ∧ (double 0.8 <= Rival.defensiveness p <= 3.0)%Q
     ∧ (1.0 <= Rival.baseHuntingThirst p <= 3.0)%Q
     ∧ (2.5 <= Rival.powerUpHunting p <= 3.0)%Q
     ∧ (double 0.8 <= Rival.territorialness p <= 2.5)%Q
     ∧ (double 0.3 <= Rival.cornerPreference p <= 1.5)%Q
     ∧ (1.0 <= Rival.spreadTendency p <= 2.5)%Q
     ∧ ∃ enemy, Rival.targetEnemy p = Some enemy ∧ enemy ≠ player.
Proof.
  intros Hu. eexists. split.
  { cbv beta iota zeta delta [Rival.freshPersonality Rival.generateAIPersonality
                               randomIndex random mbind R_bind mret R_ret].
    reflexivity. }
  cbn [Rival.withTarget Rival.aggressiveness Rival.defensiveness
       Rival.baseHuntingThirst Rival.powerUpHunting Rival.territorialness
       Rival.cornerPreference Rival.spreadTendency Rival.targetEnemy].
  split; [trait_range Hu (S n)|].
  split; [trait_range Hu (S (S n))|].
  split; [trait_range Hu (S (S (S n)))|].
  split; [trait_range Hu (S (S (S (S n))))|].
  split; [trait_range Hu (S (S (S (S (S n)))))|].
  split; [trait_range Hu (S (S (S (S (S (S n))))))|].
  split; [trait_range Hu (S (S (S (S (S (S (S n)))))))|].
  pose proof (index_range _ 3 (Hu (S (S (S (S (S (S (S (S n))))))))) ltac:(lia))
    as Hi.
  destruct (possibleEnemies_three player) as (a & b & c & -> & Ha & Hb & Hc).
  change (len [a; b; c]) with 3.
  destruct (idx_three a b c _ Hi) as [-> | [-> | ->]]; eauto.
Qed.

End Traits.

(** ** The personality table across a move *)

Lemma keepsTable_ret {P A} player (a : A) : keepsTable (P:=P) player (mret a).
Proof. intros w r w' _ [= <- <-]. done. Qed.

Lemma keepsTable_liftM {P A} player (m : R A) : keepsTable (P:=P) player (liftM m).
Proof.
  intros w r w' _. unfold liftM. destruct (m (calls w)). by intros [= <- <-].
Qed.

Lemma keepsTable_bind {P A B} player (m : M P A) (k : A → M P B) :
  keepsTable player m → (∀ a, keepsTable player (k a)) →
  keepsTable player (m ≫= k).
Proof.
  intros Hm Hk w r w' Hin. unfold mbind, M_bind.
  destruct (m w) as [[a|] w1] eqn:Hmw.
  - intros Hka. pose proof (Hm _ _ _ Hin Hmw) as H1.
    rewrite <- H1. eapply Hk; [|exact Hka]. by rewrite H1.
  - intros [= <- <-]. by eapply Hm.
Qed.

Lemma keepsTable_mapM {P A B} player (f : A → M P B) l :
  (∀ x, keepsTable player (f x)) → keepsTable player (mapM f l).
Proof.
  intros Hf. induction l as [|x l IH].
  - apply keepsTable_ret.
  - change (mapM f (x :: l)) with (y ← f x; k ← mapM f l; mret (y :: k)).
    apply keepsTable_bind; [apply Hf|]. intros y.
    apply keepsTable_bind; [apply IH|]. intros ys. apply keepsTable_ret.
Qed.

Lemma keepsTable_if {P A} player (b : bool) (m1 m2 : M P A) :
  keepsTable player m1 → keepsTable player m2 →
  keepsTable player (if b then m1 else m2).
Proof. by destruct b. Qed.

Section Table.
Context {U : GameUtils} {E : Entropy}.

Lemma Simple_getPersonality_keeps player :
  keepsTable player (Simple.getPersonality player).
Proof.
  intros w r w' [p Hp]. rewrite (Simple_getPersonality_hit _ _ _ Hp).
  by intros [= <- <-].
Qed.

Lemma Rival_getPersonality_keeps player :
  keepsTable player (Rival.getPersonality player).
Proof.
  intros w r w' [p Hp]. rewrite (Rival_getPersonality_hit _ _ _ Hp).
  by intros [= <- <-].
Qed.

Lemma Simple_evaluateMove_keeps grid row col player gameState :
  keepsTable player (Simple.evaluateMove grid row col player gameState).
Proof.
  unfold Simple.evaluateMove.
  apply keepsTable_bind; [apply keepsTable_liftM | intros ev].
  apply keepsTable_bind; [apply Simple_getPersonality_keeps | intros pers].
  apply keepsTable_bind; [apply keepsTable_liftM | intros r1].
  apply keepsTable_bind; [apply keepsTable_liftM | intros r2].
  apply keepsTable_ret.
Qed.

Lemma Rival_evaluateMove_keeps grid row col player gameState :
  keepsTable player (Rival.evaluateMove grid row col player gameState).
Proof.
  unfold Rival.evaluateMove. apply keepsTable_if.
  - apply keepsTable_bind; [apply keepsTable_liftM | intros; apply keepsTable_ret].
  - apply keepsTable_bind; [apply keepsTable_liftM | intros ev].
    apply keepsTable_bind; [apply Rival_getPersonality_keeps | intros pers].
    apply keepsTable_bind; [apply keepsTable_liftM | intros r1].
    apply keepsTable_bind; [apply keepsTable_liftM | intros r2].
    apply keepsTable_ret.
Qed.

Lemma Simple_getBestMove_table grid player mode hqs pus w :
  personalities (Simple.getBestMove grid player mode hqs pus w).2
  = personalities (Simple.getPersonality player w).2.
Proof.
  unfold Simple.getBestMove.
  destruct (Simple_getPersonality_cached player w) as (pers & w1 & Hp & Hin).
  rewrite (M_bind_run _ _ _ _ _ Hp), Hp. cbn [snd].
  match goal with |- personalities (?m w1).2 = _ =>
    assert (keepsTable player m) as Hk; [|destruct (m w1) as [r w2] eqn:Hm] end.
  2:{ eapply Hk; [|exact Hm]. by eexists. }
  cbv zeta.
  apply keepsTable_bind; [apply keepsTable_liftM | intros row0].
  apply keepsTable_bind.
  { unfold Simple.scoreValidMoves.
    apply keepsTable_bind; [|intros; apply keepsTable_ret].
    apply keepsTable_mapM. intros [r c].
    apply keepsTable_bind; [apply keepsTable_liftM | intros valid].
    apply keepsTable_if; [|apply keepsTable_ret].
    apply keepsTable_bind; [apply Simple_evaluateMove_keeps|].
    intros; apply keepsTable_ret. }
  intros moves. apply keepsTable_if; [apply keepsTable_ret|].
  apply keepsTable_bind; [apply keepsTable_liftM | intros; apply keepsTable_ret].
Qed.

Lemma Rival_getBestMove_table grid player mode hqs pus w :
  personalities (Rival.getBestMove grid player mode hqs pus w).2
  = personalities (Rival.getPersonality player w).2.
Proof.
  unfold Rival.getBestMove.
  destruct (Rival_getPersonality_cached player w) as (pers & w1 & Hp & Hin).
  rewrite (M_bind_run _ _ _ _ _ Hp), Hp. cbn [snd].
  match goal with |- personalities (?m w1).2 = _ =>
    assert (keepsTable player m) as Hk; [|destruct (m w1) as [r w2] eqn:Hm] end.
  2:{ eapply Hk; [|exact Hm]. by eexists. }
  cbv zeta.
  apply keepsTable_bind; [apply keepsTable_liftM | intros moves].
  apply keepsTable_if; [apply keepsTable_ret|].
  destruct (if mode then _ else _); [apply keepsTable_ret|].
  apply keepsTable_bind.
  { apply keepsTable_mapM. intros move.
    apply keepsTable_bind; [apply Rival_evaluateMove_keeps|].
    intros; apply keepsTable_ret. }
  intros scored.
  apply keepsTable_bind; [apply keepsTable_liftM | intros ranked].
  apply keepsTable_bind; [apply keepsTable_liftM | intros; apply keepsTable_ret].
Qed.

(** [X10] What a call of [getAIMove] does to the personality table, in
    both tunings and whether it returns or throws: exactly what
    [getPersonality] of the current player does.  The player has an entry
    afterwards, no existing entry is changed, no other player gets one. *)
Theorem getAIMove_personality_effect grid player mode hqs strategy pus :
  (∀ w : world Simple.AIPersonality,
     let w' := (Simple.getAIMove grid player mode hqs strategy pus w).2 in
     personalities w' = personalities (Simple.getPersonality player w).2
     ∧ is_Some (personalities w' !! player)
     ∧ (∀ q pers, personalities w !! q = Some pers →
                  personalities w' !! q = Some pers)
     ∧ (∀ q, q ≠ player → personalities w' !! q = personalities w !! q))
  ∧ (∀ w : world Rival.AIPersonality,
     let w' := (Rival.getAIMove grid player mode hqs strategy pus w).2 in
     personalities w' = personalities (Rival.getPersonality player w).2
     ∧ is_Some (personalities w' !! player)
     ∧ (∀ q pers, personalities w !! q = Some pers →
                  personalities w' !! q = Some pers)
     ∧ (∀ q, q ≠ player → personalities w' !! q = personalities w !! q)).
Proof.
  split; intros w w'.
  - assert (personalities w' = personalities (Simple.getPersonality player w).2)
      as Hw.
    { subst w'. unfold Simple.getAIMove.
      rewrite <- Simple_getBestMove_table with (grid:=grid) (mode:=mode)
        (hqs:=hqs) (pus:=pus).
      by destruct (Simple.getBestMove grid player mode hqs pus w) as [[?|] ?]. }
    split; [done|]. rewrite Hw. clear Hw w'.
    destruct (personalities w !! player) as [p|] eqn:Hlk.
    + rewrite (Simple_getPersonality_hit _ _ _ Hlk). cbn [snd].
      split; [by rewrite Hlk|]. done.
    + destruct (Simple_getPersonality_miss _ _ Hlk) as (p & n & _ & ->).
      cbn [snd personalities]. split; [by rewrite lookup_insert_eq|]. split.
      * intros q pers Hq. rewrite lookup_insert_ne; [done|]. congruence.
      * intros q Hq. by rewrite lookup_insert_ne.
  - assert (personalities w' = personalities (Rival.getPersonality player w).2)
      as Hw.
    { subst w'. unfold Rival.getAIMove.
      rewrite <- Rival_getBestMove_table with (grid:=grid) (mode:=mode)
        (hqs:=hqs) (pus:=pus).
      by destruct (Rival.getBestMove grid player mode hqs pus w) as [[?|] ?]. }
    split; [done|]. rewrite Hw. clear Hw w'.
    destruct (personalities w !! player) as [p|] eqn:Hlk.
    + rewrite (Rival_getPersonality_hit _ _ _ Hlk). cbn [snd].
      split; [by rewrite Hlk|]. done.
    + destruct (Rival_getPersonality_miss _ _ Hlk) as (p & n & _ & ->).
      cbn [snd personalities]. split; [by rewrite lookup_insert_eq|]. split.
      * intros q pers Hq. rewrite lookup_insert_ne; [done|]. congruence.
      * intros q Hq. by rewrite lookup_insert_ne.
Qed.

End Table.

(** ** The sub-scores of the evaluator *)

Section SubScores.
Context {U : GameUtils} {E : Entropy}.

Lemma proximity_fold_bounds (perStep row col : Z) (pus : list PowerUpCell) s0 :
  0 ≤ perStep →
  let s := fold_left (λ score powerUp,
             let d := Z.abs (pu_row powerUp - row) + Z.abs (pu_col powerUp - col) in
             if d <=? 3 then score + (4 - d) * perStep else score) pus s0 in
  s0 ≤ s ≤ s0 + 4 * perStep * len pus
  ∧ ((∀ pu, pu ∈ pus → 3 < powerUpDistance pu row col) → s = s0)
  ∧ (∀ pu, pu ∈ pus → powerUpDistance pu row col ≤ 3 →
           s0 + (4 - powerUpDistance pu row col) * perStep ≤ s).
Proof.
  intros Hp. revert s0. induction pus as [|pu pus IH]; intros s0; cbn zeta.
  - unfold len. simpl. split; [lia|]. split; [done|].
    intros pu Hin. by apply elem_of_nil in Hin.
  - cbn [fold_left].
    remember (Z.abs (pu_row pu - row) + Z.abs (pu_col pu - col)) as d eqn:Hdd.
    assert (0 ≤ d) as Hd by lia.
    remember (if d <=? 3 then s0 + (4 - d) * perStep else s0) as s1 eqn:Hs1d.
    assert (s0 ≤ s1 ≤ s0 + 4 * perStep
            ∧ (3 < d → s1 = s0) ∧ (d ≤ 3 → s0 + (4 - d) * perStep ≤ s1)) as Hs1.
    { rewrite Hs1d. destruct (d <=? 3) eqn:Hle; nia. }
    clear Hs1d.
    destruct (IH s1) as (Hb & Hfar & Hnear). cbn zeta in Hb, Hfar, Hnear.
    remember (fold_left _ pus s1) as s eqn:Hsd. clear Hsd.
    unfold len in *. rewrite length_cons, Nat2Z.inj_succ. split; [nia|]. split.
    + intros Hall. rewrite Hfar.
      * specialize (Hall pu ltac:(left)). unfold powerUpDistance in Hall.
        rewrite <- Hdd in Hall. lia.
      * intros pu' Hin. apply Hall. by right.
    + intros pu' Hin Hle. apply elem_of_cons in Hin as [->|Hin].
      * unfold powerUpDistance in *. rewrite <- Hdd in *. lia.
      * specialize (Hnear pu' Hin Hle).
        assert (0 ≤ (4 - powerUpDistance pu' row col) * perStep) by nia. lia.
Qed.

Lemma findPowerUp_Some pus row col pu :
  findPowerUp pus row col = Some pu →
  pu ∈ pus ∧ powerUpDistance pu row col = 0.
Proof.
  unfold findPowerUp. intros Hf. apply find_some in Hf as [Hin Hb].
  split; [by apply list_elem_of_In|]. unfold powerUpDistance. lia.
Qed.

Lemma powerUpScoring_bounds atPosition perStep gameState row col :
  0 ≤ perStep → (∀ pu, 0 ≤ atPosition pu) →
  let s := powerUpScoring atPosition perStep gameState row col in
  0 ≤ s
  ∧ (gs_isBaseMode gameState = false ∨ gs_powerUps gameState = None → s = 0)
  ∧ (∀ pus, gs_powerUps gameState = Some pus →
       (∀ pu, pu ∈ pus → 3 < powerUpDistance pu row col) → s = 0)
  ∧ (∀ pus pu, gs_isBaseMode gameState = true → gs_powerUps gameState = Some pus →
       findPowerUp pus row col = Some pu → atPosition pu + 4 * perStep ≤ s).
Proof.
  intros Hp Hat. unfold powerUpScoring.
  destruct (gs_isBaseMode gameState) eqn:Hm; cbn zeta.
  2:{ repeat split; try done; by destruct (gs_powerUps gameState). }
  destruct (gs_powerUps gameState) as [pus|] eqn:Hpus.
  2:{ repeat split; done. }
  match goal with |- context [fold_left _ pus ?s0] =>
    destruct (proximity_fold_bounds perStep row col pus s0 Hp)
      as (Hb & Hfar & Hnear); set (s0' := s0) in * end.
  cbn zeta in Hb, Hfar, Hnear.
  assert (0 ≤ s0') as H0.
  { unfold s0'. destruct (findPowerUp pus row col); simpl; [apply Hat | done]. }
  split; [lia|]. split; [by intros [|]|]. split.
  - intros ? [= <-] Hall. rewrite Hfar by done. unfold s0'.
    destruct (findPowerUp pus row col) as [pu|] eqn:Hf; [|done].
    apply findPowerUp_Some in Hf as [Hin Hd]. specialize (Hall pu Hin).
    exfalso. clear -Hall Hd. lia.
  - intros ? pu _ [= <-] Hf. pose proof Hf as [Hin Hd]%findPowerUp_Some.
    specialize (Hnear pu Hin ltac:(lia)). rewrite Hd in Hnear.
    assert (s0' = atPosition pu) as Hs0 by (unfold s0'; by rewrite Hf).
    clearbody s0'. lia.
Qed.

(** What a returned evaluation is made of, block by block. *)
Lemma Simple_evaluateStrategicMove_anatomy grid row col p gameState n ev n' cell :
  cellAt grid row col = Some cell →
  Simple.evaluateStrategicMove grid row col p gameState n = (Ok ev, n') →
  ∃ territory penalty defensive chain,
    positionScoring grid row col (len grid) (gridCols grid) p gameState n
      = (Ok (territory, penalty), n')
    ∧ defensiveScoring grid cell row col (len grid) (gridCols grid) p gameState
      = Ok defensive
    ∧ calculateChainReactionPotential grid row col p = Ok chain
    ∧ territoryScore ev = territory
    ∧ defensiveScore ev = inject_Z defensive
    ∧ powerUpScore ev
      = inject_Z (powerUpScoring
                    (λ pu, match pu_type pu with diamond => 150 | heart => 150 end)
                    25 gameState row col)
    ∧ baseThreatScore ev
      = inject_Z (baseThreatScoring cell
                    (calculateCriticalMass row col (len grid) (gridCols grid))
                    row col p gameState)
    ∧ chainReactionScore ev = inject_Z (chain * 10).
Proof.
  intros Hcell Hev. unfold Simple.evaluateStrategicMove in Hev.
  apply R_bind_Ok in Hev as (row0 & n0 & H0 & Hev).
  apply liftR_Ok in H0 as [H0 ->].
  assert (len row0 = gridCols grid) as Hcols.
  { unfold gridCols. by destruct (idx grid 0); simplify_eq/=. }
  rewrite Hcols in Hev.
  apply R_bind_Ok in Hev as (gridRow & n0 & Hrow & Hev).
  apply liftR_Ok in Hrow as [Hrow ->].
  apply R_bind_Ok in Hev as ([territory penalty] & n1 & Hpos & Hev).
  apply R_bind_Ok in Hev as (c & n2 & Hc & Hev).
  apply liftR_Ok in Hc as [Hc ->].
  assert (c = cell) as ->.
  { unfold cellAt in Hcell. destruct (idx grid row); simplify_eq/=.
    rewrite Hcell in Hc. by simplify_eq/=. }
  apply R_bind_Ok in Hev as (capture & n2 & Hcap & Hev).
  apply liftR_Ok in Hcap as [Hcap ->].
  apply R_bind_Ok in Hev as (proximity & n2 & Hprox & Hev).
  apply liftR_Ok in Hprox as [Hprox ->].
  apply R_bind_Ok in Hev as (defensive & n2 & Hdef & Hev).
  apply liftR_Ok in Hdef as [Hdef ->].
  apply R_bind_Ok in Hev as (chain & n3 & Hchain & Hev).
  apply liftR_Ok in Hchain as [Hchain ->].
  injection Hev as <- <-.
  exists territory, penalty, defensive, chain. by repeat split.
Qed.

Lemma Rival_evaluateStrategicMove_anatomy grid row col p gameState n ev n' cell :
  cellAt grid row col = Some cell →
  Rival.evaluateStrategicMove grid row col p gameState n = (Ok ev, n') →
  ∃ territory penalty defensive chain,
    positionScoring grid row col (len grid) (gridCols grid) p gameState n
      = (Ok (territory, penalty), n')
    ∧ defensiveScoring grid cell row col (len grid) (gridCols grid) p gameState
      = Ok defensive
    ∧ calculateChainReactionPotential grid row col p = Ok chain
    ∧ territoryScore ev = territory
    ∧ defensiveScore ev = inject_Z defensive
    ∧ powerUpScore ev
      = inject_Z (powerUpScoring (λ _, 5000) 500 gameState row col)
    ∧ baseThreatScore ev
      = inject_Z (baseThreatScoring cell
                    (calculateCriticalMass row col (len grid) (gridCols grid))
                    row col p gameState)
    ∧ chainReactionScore ev = inject_Z (chain * 10).
Proof.
  intros Hcell Hev. unfold Rival.evaluateStrategicMove in Hev.
  apply R_bind_Ok in Hev as (row0 & n0 & H0 & Hev).
  apply liftR_Ok in H0 as [H0 ->].
  assert (len row0 = gridCols grid) as Hcols.
  { unfold gridCols. by destruct (idx grid 0); simplify_eq/=. }
  rewrite Hcols in Hev.
  apply R_bind_Ok in Hev as (gridRow & n0 & Hrow & Hev).
  apply liftR_Ok in Hrow as [Hrow ->].
  apply R_bind_Ok in Hev as ([territory penalty] & n1 & Hpos & Hev).
  apply R_bind_Ok in Hev as (c & n2 & Hc & Hev).
  apply liftR_Ok in Hc as [Hc ->].
  assert (c = cell) as ->.
  { unfold cellAt in Hcell. destruct (idx grid row); simplify_eq/=.
    rewrite Hcell in Hc. by simplify_eq/=. }
  apply R_bind_Ok in Hev as ([damage bonus] & n2 & Hexp & Hev).
  apply liftR_Ok in Hexp as [Hexp ->].
  apply R_bind_Ok in Hev as (placement & n2 & Hpl & Hev).
  apply liftR_Ok in Hpl as [Hpl ->].
  apply R_bind_Ok in Hev as (proximity & n2 & Hprox & Hev).
  apply liftR_Ok in Hprox as [Hprox ->].
  apply R_bind_Ok in Hev as (defensive & n2 & Hdef & Hev).
  apply liftR_Ok in Hdef as [Hdef ->].
  apply R_bind_Ok in Hev as (chain & n3 & Hchain & Hev).
  apply liftR_Ok in Hchain as [Hchain ->].
  injection Hev as <- <-.
  exists territory, penalty, defensive, chain. by repeat split.
Qed.

(** [X11] [powerUpScore] on a rectangular grid: a non-negative integer,
    0 outside base mode, without power-ups, or when every power-up is more
    than 3 steps away; on a power-up cell in base mode it is at least 250
    in the tuning with [riskTaking] and at least 7000 in aiPlayer.ts. *)
Theorem powerUpScore_bounds grid row col p gameState cell n :
  rectangular grid → cellAt grid row col = Some cell →
  (∃ ev n' s, Simple.evaluateStrategicMove grid row col p gameState n = (Ok ev, n')
     ∧ powerUpScore ev = inject_Z s ∧ 0 ≤ s
     ∧ (gs_isBaseMode gameState = false ∨ gs_powerUps gameState = None → s = 0)
     ∧ (∀ pus, gs_powerUps gameState = Some pus →
          (∀ pu, pu ∈ pus → 3 < powerUpDistance pu row col) → s = 0)
     ∧ (∀ pus, gs_isBaseMode gameState = true → gs_powerUps gameState = Some pus →
          is_Some (findPowerUp pus row col) → 250 ≤ s))
  ∧ (∃ ev n' s, Rival.evaluateStrategicMove grid row col p gameState n = (Ok ev, n')
     ∧ powerUpScore ev = inject_Z s ∧ 0 ≤ s
     ∧ (gs_isBaseMode gameState = false ∨ gs_powerUps gameState = None → s = 0)
     ∧ (∀ pus, gs_powerUps gameState = Some pus →
          (∀ pu, pu ∈ pus → 3 < powerUpDistance pu row col) → s = 0)
     ∧ (∀ pus, gs_isBaseMode gameState = true → gs_powerUps gameState = Some pus →
          is_Some (findPowerUp pus row col) → 7000 ≤ s)).
Proof.
  intros Hrect Hcell.
  destruct (evaluateStrategicMove_returns grid row col p gameState cell Hrect Hcell)
    as [HS HR].
  split.
  - destruct (HS n) as (ev & n' & Hev). exists ev, n'.
    destruct (Simple_evaluateStrategicMove_anatomy _ _ _ _ _ _ _ _ _ Hcell Hev)
      as (t & pen & d & ch & _ & _ & _ & _ & _ & Hpu & _).
    eexists. split; [done|]. split; [exact Hpu|].
    destruct (powerUpScoring_bounds
                (λ pu, match pu_type pu with diamond => 150 | heart => 150 end)
                25 gameState row col) as (H0 & Hz & Hfar & Hon);
      [lia | by intros [? ? []] |].
    cbn zeta in H0, Hz, Hfar, Hon. repeat split; [done..|].
    intros pus Hm Hp [pu Hf]. specialize (Hon pus pu Hm Hp Hf).
    destruct (pu_type pu); lia.
  - destruct (HR n) as (ev & n' & Hev). exists ev, n'.
    destruct (Rival_evaluateStrategicMove_anatomy _ _ _ _ _ _ _ _ _ Hcell Hev)
      as (t & pen & d & ch & _ & _ & _ & _ & _ & Hpu & _).
    eexists. split; [done|]. split; [exact Hpu|].
    destruct (powerUpScoring_bounds (λ _, 5000) 500 gameState row col)
      as (H0 & Hz & Hfar & Hon); [lia | intros; lia |].
    cbn zeta in H0, Hz, Hfar, Hon. repeat split; [done..|].
    intros pus Hm Hp [pu Hf]. specialize (Hon pus pu Hm Hp Hf). lia.
Qed.

End SubScores.

Lemma forEach_gains_measure {A B} (μ : B → Z) (d : Z) (f : B → A → result B)
    l x0 acc r :
  x0 ∈ l →
  (∀ a x b, x ∈ l → f a x = Ok b → μ a ≤ μ b) →
  (∀ a b, f a x0 = Ok b → μ a + d ≤ μ b) →
  forEach f l acc = Ok r → μ acc + d ≤ μ r.
Proof.
  revert acc. induction l as [|x l IH]; intros acc Hin Hstep Hx0 Hr; simpl in Hr.
  - by apply elem_of_nil in Hin.
  - destruct (f acc x) as [b|] eqn:Hf; [|done]. simpl in Hr.
    apply elem_of_cons in Hin as [<-|Hin].
    + apply Hx0 in Hf.
      assert (μ b ≤ μ r); [|lia].
      revert Hr. apply (forEach_invariant (λ c, μ b ≤ μ c)); [lia|].
      intros a y c Hy Ha Hc. apply Hstep in Hc; [lia | by right].
    + apply Hstep in Hf; [|left].
      apply IH in Hr; [lia|done| |done].
      intros a y c Hy. apply Hstep. by right.
Qed.

Lemma forEachR_draws {A B} (f : B → A → R B) l acc n r n' :
  (∀ a x b n1 n2, x ∈ l → f a x n1 = (Ok b, n2) → (n1 ≤ n2 ≤ n1 + 1)%nat) →
  forEachR f l acc n = (Ok r, n') → (n ≤ n' ≤ n + length l)%nat.
Proof.
  revert acc n. induction l as [|x l IH]; intros acc n Hstep Hr; simpl in Hr.
  - injection Hr as <- <-. simpl. lia.
  - apply R_bind_Ok in Hr as (b & n1 & Hf & Hr).
    apply Hstep in Hf; [|left].
    apply IH in Hr; [|intros a y c n2 n3 Hy; apply Hstep; by right].
    simpl. lia.
Qed.

Section MoreSubScores.
Context {U : GameUtils} {E : Entropy}.

Lemma baseThreat_fold_bounds (cell : GridCell) (cm row col : Z) (p : PLAYER)
    (hqs : list HQCell) s0 :
  let s := fold_left (λ score hq,
        if negb (bool_decide (hq_player hq = p)) then
          let distanceToHQ := Z.abs (hq_row hq - row) + Z.abs (hq_col hq - col) in
          if distanceToHQ <=? 3 then
            let score := score + (4 - distanceToHQ) * 20 in
            if (atoms cell + 1 >=? cm) && (distanceToHQ <=? 2)
            then score + (if bool_decide (hq_player hq = p) then 120 else 40)
            else score
          else score
        else score) hqs s0 in
  s0 ≤ s ≤ s0 + 120 * len (enemyHQs hqs p)
  ∧ (atoms cell + 1 < cm → s ≤ s0 + 80 * len (enemyHQs hqs p))
  ∧ ((∀ hq, hq ∈ enemyHQs hqs p → 3 < hqDistance hq row col) → s = s0)
  ∧ (∀ hq, hq ∈ enemyHQs hqs p → hqDistance hq row col ≤ 3 →
           s0 + (4 - hqDistance hq row col) * 20 ≤ s).
Proof.
  revert s0. induction hqs as [|hq hqs IH]; intros s0; cbn zeta.
  - unfold enemyHQs, len. simpl. split; [lia|]. split; [lia|]. split; [done|].
    intros hq Hin. by apply elem_of_nil in Hin.
  - cbn [fold_left]. unfold enemyHQs. rewrite filter_cons.
    fold (enemyHQs hqs p).
    remember (Z.abs (hq_row hq - row) + Z.abs (hq_col hq - col)) as d eqn:Hdd.
    assert (0 ≤ d) as Hd by lia.
    match goal with |- context [fold_left _ hqs ?x] =>
      remember x as s1 eqn:Hs1d end.
    destruct (IH s1) as (Hb & Hq & Hfar & Hnear). cbn zeta in Hb, Hq, Hfar, Hnear.
    remember (fold_left _ hqs s1) as s eqn:Hsd. clear Hsd IH.
    destruct (decide (hq_player hq ≠ p)) as [Hne|He].
    + rewrite bool_decide_eq_false_2 in Hs1d by done. simpl in Hs1d.
      assert (s0 ≤ s1 ≤ s0 + 120 ∧ (atoms cell + 1 < cm → s1 ≤ s0 + 80)
              ∧ (3 < d → s1 = s0) ∧ (d ≤ 3 → s0 + (4 - d) * 20 ≤ s1)) as Hs1.
      { rewrite Hs1d. destruct (d <=? 3) eqn:Hle; [|lia].
        destruct ((atoms cell + 1 >=? cm) && (d <=? 2)) eqn:Hx; lia. }
      clear Hs1d. unfold len in *. rewrite length_cons, Nat2Z.inj_succ.
      split; [lia|]. split; [lia|]. split.
      * intros Hall. rewrite Hfar.
        -- specialize (Hall hq ltac:(left)). unfold hqDistance in Hall.
           rewrite <- Hdd in Hall. lia.
        -- intros hq' Hin. apply Hall. by right.
      * intros hq' Hin Hle. apply elem_of_cons in Hin as [->|Hin].
        -- unfold hqDistance in *. rewrite <- Hdd in *. lia.
        -- specialize (Hnear hq' Hin Hle). unfold hqDistance in *. lia.
    + apply dec_stable in He.
      rewrite bool_decide_eq_true_2 in Hs1d by done. simpl in Hs1d. subst s1.
      done.
Qed.

Lemma baseThreatScoring_bounds cell cm row col p gameState :
  let b := baseThreatScoring cell cm row col p gameState in
  0 ≤ b
  ∧ (gs_isBaseMode gameState = false ∨ gs_hqs gameState = None → b = 0)
  ∧ (∀ hqs, gs_hqs gameState = Some hqs →
       b ≤ 120 * len (enemyHQs hqs p)
       ∧ (atoms cell + 1 < cm → b ≤ 80 * len (enemyHQs hqs p))
       ∧ ((∀ hq, hq ∈ enemyHQs hqs p → 3 < hqDistance hq row col) → b = 0)
       ∧ (gs_isBaseMode gameState = true →
          ∀ hq, hq ∈ enemyHQs hqs p → hqDistance hq row col ≤ 3 →
                (4 - hqDistance hq row col) * 20 ≤ b)).
Proof.
  unfold baseThreatScoring.
  destruct (gs_isBaseMode gameState) eqn:Hm; cbn zeta.
  2:{ split; [done|]. split; [done|]. intros hqs Hh.
      destruct (gs_hqs gameState); repeat split; try done; unfold len; lia. }
  destruct (gs_hqs gameState) as [hqs|] eqn:Hh.
  2:{ repeat split; done. }
  destruct (baseThreat_fold_bounds cell cm row col p hqs 0)
    as (Hb & Hq & Hfar & Hnear). cbn zeta in Hb, Hq, Hfar, Hnear.
  split; [lia|]. split; [by intros [|]|].
  intros ? [= <-]. split; [lia|]. split; [intros; by apply Hq|].
  split; [done|]. intros _ hq Hin Hle. specialize (Hnear hq Hin Hle). lia.
Qed.

(** [X12] [baseThreatScore] on a rectangular grid, in either tuning: a
    non-negative integer, 0 outside base mode or without headquarters, at
    most 120 per enemy headquarters (80 when the placement does not
    explode), 0 when every enemy headquarters is more than 3 steps away,
    and at least [(4 - d) * 20] for an enemy headquarters at distance
    [d <= 3] in base mode. *)
Theorem baseThreatScore_bounds grid row col p gameState cell n :
  rectangular grid → cellAt grid row col = Some cell →
  let explodes :=
    calculateCriticalMass row col (len grid) (gridCols grid) ≤ atoms cell + 1 in
  ∀ tuning : bool,
  ∃ ev n' b,
    (if tuning then Simple.evaluateStrategicMove grid row col p gameState n
     else Rival.evaluateStrategicMove grid row col p gameState n) = (Ok ev, n')
    ∧ baseThreatScore ev = inject_Z b ∧ 0 ≤ b
    ∧ (gs_isBaseMode gameState = false ∨ gs_hqs gameState = None → b = 0)
    ∧ (∀ hqs, gs_hqs gameState = Some hqs →
         b ≤ 120 * len (enemyHQs hqs p)
         ∧ (¬ explodes → b ≤ 80 * len (enemyHQs hqs p))
         ∧ ((∀ hq, hq ∈ enemyHQs hqs p → 3 < hqDistance hq row col) → b = 0)
         ∧ (gs_isBaseMode gameState = true →
            ∀ hq, hq ∈ enemyHQs hqs p → hqDistance hq row col ≤ 3 →
                  (4 - hqDistance hq row col) * 20 ≤ b)).
Proof.
  intros Hrect Hcell explodes tuning.
  destruct (evaluateStrategicMove_returns grid row col p gameState cell Hrect Hcell)
    as [HS HR].
  pose proof (baseThreatScoring_bounds cell
                (calculateCriticalMass row col (len grid) (gridCols grid))
                row col p gameState) as Hb. cbn zeta in Hb.
  destruct Hb as (H0 & Hz & Hh).
  assert (∀ ev, baseThreatScore ev
                = inject_Z (baseThreatScoring cell
                    (calculateCriticalMass row col (len grid) (gridCols grid))
                    row col p gameState) →
          ∃ b, baseThreatScore ev = inject_Z b ∧ 0 ≤ b
    ∧ (gs_isBaseMode gameState = false ∨ gs_hqs gameState = None → b = 0)
    ∧ (∀ hqs, gs_hqs gameState = Some hqs →
         b ≤ 120 * len (enemyHQs hqs p)
         ∧ (¬ explodes → b ≤ 80 * len (enemyHQs hqs p))
         ∧ ((∀ hq, hq ∈ enemyHQs hqs p → 3 < hqDistance hq row col) → b = 0)
         ∧ (gs_isBaseMode gameState = true →
            ∀ hq, hq ∈ enemyHQs hqs p → hqDistance hq row col ≤ 3 →
                  (4 - hqDistance hq row col) * 20 ≤ b))) as Hfin.
  { intros ev Hev. eexists. split; [exact Hev|]. split; [done|]. split; [done|].
    intros hqs Hq. destruct (Hh hqs Hq) as (H1 & H2 & H3 & H4).
    split; [done|]. split; [|by split].
    intros Hne. apply H2. unfold explodes in Hne. lia. }
  destruct tuning.
  - destruct (HS n) as (ev & n' & Hev). exists ev, n'.
    destruct (Simple_evaluateStrategicMove_anatomy _ _ _ _ _ _ _ _ _ Hcell Hev)
      as (t & pen & d & ch & _ & _ & _ & _ & _ & _ & Hbt & _).
    destruct (Hfin ev Hbt) as (b & ?). exists b. by split.
  - destruct (HR n) as (ev & n' & Hev). exists ev, n'.
    destruct (Rival_evaluateStrategicMove_anatomy _ _ _ _ _ _ _ _ _ Hcell Hev)
      as (t & pen & d & ch & _ & _ & _ & _ & _ & _ & Hbt & _).
    destruct (Hfin ev Hbt) as (b & ?). exists b. by split.
Qed.

Lemma enemyNeighborPenalty_range grid neighbors p n pen n' :
  unitRandom E →
  enemyNeighborPenalty grid neighbors p n = (Ok pen, n') →
  (0 <= pen)%Q ∧ (n ≤ n' ≤ n + length neighbors)%nat.
Proof.
  intros Hu Hp. split.
  - revert Hp. apply (forEachR_invariant (λ b, (0 <= b)%Q)); [lra|].
    intros a [nr nc] b n1 n2 _ Ha Hb.
    apply R_bind_Ok in Hb as (x & n3 & _ & Hb).
    destruct (isEnemy x p); [|by injection Hb as <- <-].
    apply R_bind_Ok in Hb as (r & n4 & Hr & Hb).
    injection Hr as <- <-. injection Hb as <- <-.
    destruct (unitRandom_range E Hu n3). lra.
  - revert Hp. apply forEachR_draws.
    intros a [nr nc] b n1 n2 _ Hb.
    apply R_bind_Ok in Hb as (x & n3 & Hx & Hb).
    apply liftR_Ok in Hx as [_ ->].
    destruct (isEnemy x p); [|injection Hb as <- <-; lia].
    apply R_bind_Ok in Hb as (r & n4 & Hr & Hb).
    injection Hr as <- <-. injection Hb as <- <-. lia.
Qed.

Lemma positionScoring_range grid row col rows cols p gameState n t pen n' :
  unitRandom E →
  positionScoring grid row col rows cols p gameState n = (Ok (t, pen), n') →
  if gs_isBaseMode gameState
  then (1 <= t)%Q ∧ (t < 9)%Q ∧ pen = 0%Q ∧ n' = (3 + n)%nat
  else (2 <= t)%Q ∧ (t < 60)%Q ∧ (0 <= pen)%Q ∧ (3 + n ≤ n' ≤ 8 + n)%nat.
Proof.
  intros Hu Hp. unfold positionScoring in Hp.
  destruct (gs_isBaseMode gameState); cbn [negb] in Hp.
  - apply R_bind_Ok in Hp as (r1 & k1 & [= <- <-] & Hp).
    apply R_bind_Ok in Hp as (r2 & k2 & [= <- <-] & Hp).
    apply R_bind_Ok in Hp as (r3 & k3 & [= <- <-] & Hp).
    injection Hp as <- <- <-.
    destruct (unitRandom_range E Hu n), (unitRandom_range E Hu (S n)),
      (unitRandom_range E Hu (S (S n))).
    repeat split; try done;
      destruct (isCorner row col rows cols), (isEdge row col rows cols); lra.
  - apply R_bind_Ok in Hp as (r1 & k1 & [= <- <-] & Hp).
    apply R_bind_Ok in Hp as (r2 & k2 & [= <- <-] & Hp).
    apply R_bind_Ok in Hp as (r3 & k3 & [= <- <-] & Hp).
    apply R_bind_Ok in Hp as (penalty & k4 & Hpen & Hp).
    apply R_bind_Ok in Hp as (own & k5 & Hown & Hp).
    apply liftR_Ok in Hown as [_ ->].
    apply R_bind_Ok in Hp as (iso & k6 & Hiso & Hp).
    injection Hp as <- <- <-.
    apply enemyNeighborPenalty_range in Hpen as [Hpen Hk4]; [|done].
    pose proof (getNeighborsForAI_length row col rows cols) as Hlen.
    unfold len in Hlen.
    assert ((0 <= iso)%Q ∧ (iso < 20)%Q ∧ (k4 ≤ k6 ≤ k4 + 1)%nat) as (Hi0 & Hi1 & Hk).
    { destruct (negb own).
      - apply R_bind_Ok in Hiso as (r & k & [= <- <-] & Hiso).
        injection Hiso as <- <-. destruct (unitRandom_range E Hu k4). repeat split; try lra; lia.
      - injection Hiso as <- <-. repeat split; try lra; lia. }
    destruct (unitRandom_range E Hu n), (unitRandom_range E Hu (S n)),
      (unitRandom_range E Hu (S (S n))).
    repeat split; try done; try lia;
      destruct (isCorner row col rows cols), (isEdge row col rows cols); lra.
Qed.

(** [X13] [territoryScore] on a rectangular grid, in either tuning, when
    the numbers drawn are doubles of [0, 1): between 1 and 9 in base mode,
    at the cost of exactly three draws; between 2 and 60 in classic mode,
    at the cost of three to eight draws. *)
Theorem territoryScore_range grid row col p gameState cell n :
  unitRandom E → rectangular grid → cellAt grid row col = Some cell →
  ∀ tuning : bool,
  ∃ ev n',
    (if tuning then Simple.evaluateStrategicMove grid row col p gameState n
     else Rival.evaluateStrategicMove grid row col p gameState n) = (Ok ev, n')
    ∧ if gs_isBaseMode gameState
      then (1 <= territoryScore ev <= 9)%Q ∧ n' = (3 + n)%nat
      else (2 <= territoryScore ev <= 60)%Q ∧ (3 + n ≤ n' ≤ 8 + n)%nat.
Proof.
  intros Hu Hrect Hcell tuning.
  destruct (evaluateStrategicMove_returns grid row col p gameState cell Hrect Hcell)
    as [HS HR].
  destruct tuning.
  - destruct (HS n) as (ev & n' & Hev). exists ev, n'. split; [done|].
    destruct (Simple_evaluateStrategicMove_anatomy _ _ _ _ _ _ _ _ _ Hcell Hev)
      as (t & pen & d & ch & Hpos & _ & _ & -> & _).
    apply positionScoring_range in Hpos; [|done].
    destruct (gs_isBaseMode gameState); destruct Hpos as (? & ? & ? & ?);
      (split; [split; [done | by apply Qlt_le_weak] | done]).
  - destruct (HR n) as (ev & n' & Hev). exists ev, n'. split; [done|].
    destruct (Rival_evaluateStrategicMove_anatomy _ _ _ _ _ _ _ _ _ Hcell Hev)
      as (t & pen & d & ch & Hpos & _ & _ & -> & _).
    apply positionScoring_range in Hpos; [|done].
    destruct (gs_isBaseMode gameState); destruct Hpos as (? & ? & ? & ?);
      (split; [split; [done | by apply Qlt_le_weak] | done]).
Qed.

Lemma defensiveScoring_sign grid cell row col p gameState d :
  rectangular grid → atomsNonneg grid →
  defensiveScoring grid cell row col (len grid) (gridCols grid) p gameState = Ok d →
  0 ≤ d
  ∧ (gs_isBaseMode gameState = false ∨ gs_hqs gameState = None → d = 0)
  ∧ (∀ hqs, gs_hqs gameState = Some hqs →
       match findHQ hqs p with
       | None => d = 0
       | Some ourHQ =>
           (¬ enemyNearHQ grid ourHQ p → d = 0)
           ∧ (gs_isBaseMode gameState = true → enemyNearHQ grid ourHQ p → 16 ≤ d)
       end).
Proof.
  intros Hrect Hnn Hd. unfold defensiveScoring in Hd.
  destruct (gs_isBaseMode gameState) eqn:Hm.
  2:{ injection Hd as <-. split; [done|]. split; [done|].
      intros hqs _. destruct (findHQ hqs p); [split|]; done. }
  destruct (gs_hqs gameState) as [hqs|] eqn:Hh.
  2:{ injection Hd as <-. repeat split; done. }
  cut (0 ≤ d ∧ match findHQ hqs p with
               | None => d = 0
               | Some ourHQ =>
                   (¬ enemyNearHQ grid ourHQ p → d = 0)
                   ∧ (enemyNearHQ grid ourHQ p → 16 ≤ d)
               end).
  { intros [H0 H1]. split; [done|]. split; [by intros [|]|].
    intros ? [= <-]. destruct (findHQ hqs p); tauto. }
  destruct (findHQ hqs p) as [ourHQ|] eqn:Hq.
  2:{ by injection Hd as <-. }
  match type of Hd with (forEach ?f ?l ?acc ≫= _) = _ =>
    destruct (forEach f l acc) as [[threat critical]|] eqn:Hscan; [|done];
    set (scan := f) in *; set (cells := l) in * end.
  cbn [mbind result_bind] in Hd. injection Hd as Hd.
  assert (∀ a x b, x ∈ cells → scan a x = Ok b →
            (0 ≤ a.1 → 0 ≤ b.1) ∧ (0 ≤ a.2 → 0 ≤ b.2) ∧ a.1 ≤ b.1) as Hstep.
  { intros [t k] [r c] b Hin Hb. unfold scan in Hb.
    destruct (cellAt grid r c) as [x|] eqn:Hx; [|done]. simpl in Hb.
    pose proof (Hnn r c x Hx) as Hx0.
    destruct (isEnemy x p); [|injection Hb as <-; simpl; lia].
    assert (0 ≤ atoms x * Z.max 1 (4 - (Z.abs (r - hq_row ourHQ)
                                        + Z.abs (c - hq_col ourHQ))) * 8) by nia.
    destruct ((_ <=? 2) && (atoms x >=? 2)); injection Hb as <-; simpl; lia. }
  assert (0 ≤ threat ∧ 0 ≤ critical) as [Ht Hc].
  { change (0 ≤ (threat, critical).1 ∧ 0 ≤ (threat, critical).2).
    revert Hscan. apply (forEach_invariant (λ b, 0 ≤ b.1 ∧ 0 ≤ b.2)); [done|].
    intros a x b Hin [Ha1 Ha2] Hb. destruct (Hstep a x b Hin Hb) as (? & ? & _).
    auto. }
  assert (0 ≤ d
          ∧ (threat = 0 → d = 0) ∧ (0 < threat → 2 * threat ≤ d)) as (Hd0 & Hdz & Hdp).
  { rewrite <- Hd. clear Hd.
    remember (Z.abs (hq_row ourHQ - row) + Z.abs (hq_col ourHQ - col)) as dist.
    assert (0 ≤ dist) by lia.
    destruct (0 <? threat) eqn:Hpos.
    2:{ assert (threat = 0) by lia. destruct (health ourHQ <=? 2); lia. }
    remember (0 + threat * (5 - Z.min dist 4) * 2) as s1.
    assert (2 * threat ≤ s1) by nia.
    remember (if (0 <? critical) && (dist <=? 3) then s1 + critical * 3 else s1)
      as s2.
    assert (s1 ≤ s2) by (subst s2; destruct ((0 <? critical) && (dist <=? 3)); lia).
    remember (if isEnemy cell p then s2 + 40 else s2) as s3.
    assert (s2 ≤ s3) by (subst s3; destruct (isEnemy cell p); lia).
    remember (if dist <=? 2 then s3 + 30 else s3) as s4.
    assert (s3 ≤ s4) by (subst s4; destruct (dist <=? 2); lia).
    destruct (health ourHQ <=? 2); lia. }
  split; [done|]. split.
  - intros Hno. apply Hdz.
    assert (threat = (threat, critical).1) as -> by done.
    revert Hscan. apply (forEach_invariant (λ b, b.1 = 0)); [done|].
    intros [t k] [r c] b Hin Ha Hb. simpl in Ha. subst t. unfold scan in Hb.
    destruct (cellAt grid r c) as [x|] eqn:Hx; [|done]. simpl in Hb.
    apply elem_of_window in Hin as [Hr Hcc].
    destruct (isEnemy x p) eqn:He; [|by injection Hb as <-].
    pose proof (Hnn r c x Hx) as Hx0.
    destruct (decide (atoms x = 0)) as [Hz|Hnz].
    { rewrite Hz in Hb. simpl in Hb.
      destruct ((_ <=? 2) && _); by injection Hb as <-. }
    exfalso. apply Hno. exists r, c, x. repeat split; [lia..|done|done|lia].
  - intros (r & c & x & Hr & Hcc & Hx & He & Hpos).
    assert (8 ≤ threat); [|lia].
    assert (0 + 8 ≤ (threat, critical).1) as Hg; [|simpl in Hg; lia].
    destruct (cellAt_inside grid r c x Hrect Hx) as [Hr' Hc'].
    revert Hscan. apply (forEach_gains_measure fst 8 _ _ (r, c)).
    + apply elem_of_window. lia.
    + intros a y b Hin Hb. by destruct (Hstep a y b Hin Hb) as (_ & _ & ?).
    + intros [t k] b Hb. unfold scan in Hb. rewrite Hx in Hb. simpl in Hb.
      rewrite He in Hb.
      assert (8 ≤ atoms x * Z.max 1 (4 - (Z.abs (r - hq_row ourHQ)
                                          + Z.abs (c - hq_col ourHQ))) * 8) by nia.
      destruct ((_ <=? 2) && (atoms x >=? 2)); injection Hb as <-; simpl; lia.
Qed.

(** [X14] [defensiveScore] on a rectangular grid without negative atom
    counts, in either tuning: a non-negative integer, 0 outside base mode,
    without a headquarters of the player, or when no enemy atom lies within
    three rows and three columns of that headquarters; at least 16 in base
    mode when one does. *)
Theorem defensiveScore_sign grid row col p gameState cell n :
  rectangular grid → atomsNonneg grid → cellAt grid row col = Some cell →
  ∀ tuning : bool,
  ∃ ev n' d,
    (if tuning then Simple.evaluateStrategicMove grid row col p gameState n
     else Rival.evaluateStrategicMove grid row col p gameState n) = (Ok ev, n')
    ∧ defensiveScore ev = inject_Z d ∧ 0 ≤ d
    ∧ (gs_isBaseMode gameState = false ∨ gs_hqs gameState = None → d = 0)
    ∧ (∀ hqs, gs_hqs gameState = Some hqs →
         match findHQ hqs p with
         | None => d = 0
         | Some ourHQ =>
             (¬ enemyNearHQ grid ourHQ p → d = 0)
             ∧ (gs_isBaseMode gameState = true → enemyNearHQ grid ourHQ p
                → 16 ≤ d)
         end).
Proof.
  intros Hrect Hnn Hcell tuning.
  destruct (evaluateStrategicMove_returns grid row col p gameState cell Hrect Hcell)
    as [HS HR].
  destruct tuning.
  - destruct (HS n) as (ev & n' & Hev). exists ev, n'.
    destruct (Simple_evaluateStrategicMove_anatomy _ _ _ _ _ _ _ _ _ Hcell Hev)
      as (t & pen & d & ch & _ & Hd & _ & _ & Hdef & _).
    exists d. split; [done|]. split; [done|].
    by apply (defensiveScoring_sign grid cell row col p gameState).
  - destruct (HR n) as (ev & n' & Hev). exists ev, n'.
    destruct (Rival_evaluateStrategicMove_anatomy _ _ _ _ _ _ _ _ _ Hcell Hev)
      as (t & pen & d & ch & _ & Hd & _ & _ & Hdef & _).
    exists d. split; [done|]. split; [done|].
    by apply (defensiveScoring_sign grid cell row col p gameState).
Qed.

End MoreSubScores.

(** ** Move generation, simulation and the full-board score *)

Lemma StronglySorted_seq a n : StronglySorted lt (seq a n).
Proof.
  revert a. induction n as [|n IH]; intros a; simpl; constructor; [apply IH|].
  apply Forall_forall. intros x Hx%elem_of_seq. lia.
Qed.

Lemma StronglySorted_fromTo lo hi : StronglySorted Z.lt (fromTo lo hi).
Proof.
  unfold fromTo. eapply StronglySorted_fmap; [|apply StronglySorted_seq].
  intros x y Hxy. simpl. lia.
Qed.

Lemma StronglySorted_bind {A B} (R : relation A) (S : relation B)
    (f : A → list B) l :
  StronglySorted R l →
  (∀ x, x ∈ l → StronglySorted S (f x)) →
  (∀ x y a b, R x y → a ∈ f x → b ∈ f y → S a b) →
  StronglySorted S (l ≫= f).
Proof.
  intros Hl Hf HRS. induction Hl as [|x l Hl IH Hx]; csimpl; [constructor|].
  apply StronglySorted_app_2.
  - intros a b Ha Hb. apply list_elem_of_bind in Hb as (y & Hb & Hy).
    eapply HRS; [|done..]. eapply Forall_forall in Hx; done.
  - apply Hf. left.
  - apply IH. intros y Hy. apply Hf. by right.
Qed.

Lemma StronglySorted_filter {A} (R : relation A) (P : A → Prop)
    `{∀ x, Decision (P x)} l :
  StronglySorted R l → StronglySorted R (filter P l).
Proof.
  induction 1 as [|x l Hl IH Hx]; [constructor|].
  rewrite filter_cons. destruct (decide (P x)); [|done].
  constructor; [done|]. apply Forall_forall. intros y Hy.
  apply list_elem_of_filter in Hy as [_ Hy]. eapply Forall_forall in Hx; done.
Qed.

Lemma StronglySorted_NoDup {A} (R : relation A) l :
  (∀ x, ¬ R x x) → StronglySorted R l → NoDup l.
Proof.
  intros Hirr. induction 1 as [|x l Hl IH Hx]; constructor; [|done].
  intros Hin. eapply Forall_forall in Hx; [|done]. by apply Hirr in Hx.
Qed.

Lemma StronglySorted_window rlo rhi clo chi :
  StronglySorted (λ a b : Z * Z, a.1 < b.1 ∨ (a.1 = b.1 ∧ a.2 < b.2))
                 (window rlo rhi clo chi).
Proof.
  unfold window.
  apply (StronglySorted_bind Z.lt); [apply StronglySorted_fromTo| |].
  - intros r _.
    apply (StronglySorted_bind Z.lt); [apply StronglySorted_fromTo| |].
    + intros c _. repeat constructor.
    + intros c c' a b Hc Ha%list_elem_of_singleton Hb%list_elem_of_singleton.
      subst. right. simpl. lia.
  - intros r r' a b Hr Ha Hb.
    apply list_elem_of_bind in Ha as (c & Ha%list_elem_of_singleton & _).
    apply list_elem_of_bind in Hb as (c' & Hb%list_elem_of_singleton & _).
    subst. left. simpl. lia.
Qed.

Section Moves.
Context {U : GameUtils}.

(** [X15] [getValidMoves] of aiPlayer.ts on a rectangular grid returns
    exactly the cells that [isValidMoveForAI] approves, each once, with
    score 0, in row-major order. *)
Theorem Rival_getValidMoves_spec grid p mode hqs :
  rectangular grid →
  ∃ moves, Rival.getValidMoves grid p mode hqs = Ok moves
    ∧ (∀ m, m ∈ moves ↔
            isValidMoveForAI grid (row m) (col m) p mode hqs = Ok true
            ∧ score m = 0%Q)
    ∧ StronglySorted rowMajor moves
    ∧ NoDup moves.
Proof.
  intros Hrect.
  destruct (validMoves_loop_total grid p mode hqs
              (window 0 (len grid - 1) 0 (gridCols grid - 1)) [])
    as [moves Hm].
  { intros r c _. by apply isValidMoveForAI_total. }
  exists moves. split; [exact Hm|].
  assert (StronglySorted rowMajor moves) as Hs.
  { apply validMoves_loop in Hm as ->. simpl.
    eapply StronglySorted_fmap;
      [|apply StronglySorted_filter, StronglySorted_window].
    intros [r c] [r' c'] Hlt. exact Hlt. }
  split; [|split; [done|]].
  - intros m. split.
    + intros Hin. by eapply Rival_getValidMoves_legal.
    + intros [Hv Hs0]. destruct m as [r c s]. simpl in *. subst s.
      by eapply Rival_getValidMoves_complete.
  - eapply StronglySorted_NoDup; [|exact Hs]. unfold rowMajor. intros x. lia.
Qed.

(** [X16] [simulateMove] of aiPlayer.ts: when it returns, the new grid
    has the shape of the old one and the same cells, except that the target
    cell has one atom more and belongs to the player; it throws exactly
    when the target cell does not exist. *)
Theorem Rival_simulateMove_spec grid row col player :
  match Rival.simulateMove grid row col player with
  | Ok newGrid =>
      ∃ cell, cellAt grid row col = Some cell
        ∧ cellAt newGrid row col = Some (mkCell (atoms cell + 1) (Some player))
        ∧ (∀ r c, (r, c) ≠ (row, col) → cellAt newGrid r c = cellAt grid r c)
        ∧ len newGrid = len grid ∧ gridCols newGrid = gridCols grid
        ∧ (rectangular grid → rectangular newGrid)
  | Throw => cellAt grid row col = None
  end.
Proof.
  unfold Rival.simulateMove.
  destruct (cellAt grid row col) as [cell|] eqn:Hcell; [|done]. simpl.
  exists cell. split; [done|]. split.
  { rewrite cellAt_setCell, decide_True by done. by rewrite Hcell. }
  split.
  { intros r c Hne. rewrite cellAt_setCell, decide_False; [done|].
    intros [-> ->]. done. }
  split; [apply len_setCell|]. split; [apply gridCols_setCell|].
  apply rectangular_setCell.
Qed.

End Moves.

Lemma forEach_bind_list {A B C} (f : B → C → result B) (g : A → list C) l acc :
  forEach f (l ≫= g) acc
  = forEach (λ acc x, forEach f (g x) acc) l acc.
Proof.
  revert acc. induction l as [|x l IH]; intros acc; csimpl; [done|].
  assert (∀ l1 l2 a, forEach f (l1 ++ l2) a
                     = (b ← forEach f l1 a; forEach f l2 b)) as Happ.
  { induction l1 as [|y l1 IH1]; intros l2 a; simpl; [done|].
    destruct (f a y); simpl; [apply IH1 | done]. }
  rewrite Happ. destruct (forEach f (g x) acc); simpl; [apply IH | done].
Qed.

(** A loop over the indices of a list that reads the element at each
    index is a fold over the list. *)
Lemma forEach_indices {X B} (h : B → Z → result B) (g : B → X → B)
    (pre l : list X) acc :
  (∀ a i x, idx (pre ++ l) i = Some x → h a i = Ok (g a x)) →
  forEach h ((λ i, 0 + Z.of_nat i) <$> seq (length pre) (length l)) acc
  = Ok (fold_left g l acc).
Proof.
  revert pre acc. induction l as [|x l IH]; intros pre acc Hh; [done|].
  cbn [length seq fmap list_fmap forEach fold_left].
  rewrite (Hh acc (0 + Z.of_nat (length pre)) x).
  2:{ unfold idx. rewrite decide_True by lia.
      replace (Z.to_nat (0 + Z.of_nat (length pre))) with (length pre) by lia.
      by rewrite lookup_app_r, Nat.sub_diag by lia. }
  cbn [mbind result_bind].
  specialize (IH (pre ++ [x])). rewrite length_app in IH. simpl in IH.
  replace (length pre + 1)%nat with (S (length pre)) in IH by lia.
  apply IH. intros a i y Hy. apply Hh. by rewrite <- app_assoc in Hy.
Qed.

Lemma fromTo_indices {X} (l : list X) :
  fromTo 0 (len l - 1) = (λ i, 0 + Z.of_nat i) <$> seq 0 (length l).
Proof.
  unfold fromTo, len.
  replace (Z.to_nat (Z.of_nat (length l) - 1 - 0 + 1)) with (length l) by lia.
  done.
Qed.

Lemma foldr_add_shift (l : list Z) a : foldr Z.add a l = a + foldr Z.add 0 l.
Proof. induction l as [|z l IH]; simpl; [lia|]. rewrite IH. lia. Qed.

Lemma fold_left_material p (rw : list GridCell) acc :
  fold_left (λ a c, if ownedBy c p then a + atoms c * 10 else a) rw acc
  = acc + 10 * foldr Z.add 0 ((λ c, if ownedBy c p then atoms c else 0) <$> rw).
Proof.
  revert acc. induction rw as [|c rw IH]; intros acc; [simpl; lia|].
  cbn [fold_left]. rewrite IH, fmap_cons. cbn [foldr].
  destruct (ownedBy c p); lia.
Qed.

Lemma fold_left_rows_material p (grid : Grid) acc :
  fold_left (λ a rw,
     fold_left (λ a c, if ownedBy c p then a + atoms c * 10 else a) rw a) grid acc
  = acc + 10 * material grid p.
Proof.
  unfold material. revert acc.
  induction grid as [|rw grid IH]; intros acc; [simpl; lia|].
  cbn [fold_left concat]. rewrite IH, fold_left_material, fmap_app, foldr_app.
  rewrite (foldr_add_shift _ (foldr _ _ _)). lia.
Qed.

Lemma fullBoardScore_material grid p :
  rectangular grid → Rival.fullBoardScore grid p = Ok (10 * material grid p).
Proof.
  intros Hrect. unfold Rival.fullBoardScore, window.
  rewrite forEach_bind_list, fromTo_indices.
  rewrite (forEach_indices _
             (λ a rw, fold_left (λ a c, if ownedBy c p then a + atoms c * 10 else a)
                                rw a) [] grid).
  { by rewrite fold_left_rows_material. }
  intros a r rw Hrw. simpl in Hrw.
  assert (len rw = gridCols grid) as Hlen.
  { unfold idx in Hrw. case_decide; [|done].
    apply list_elem_of_lookup_2 in Hrw.
    eapply Forall_forall in Hrect; [|done]. done. }
  rewrite forEach_bind_list, <- Hlen, fromTo_indices.
  apply (forEach_indices _ _ [] rw).
  intros a' c x Hx. simpl in Hx. simpl. unfold cellAt. rewrite Hrw. simpl.
  rewrite Hx. simpl. by destruct (ownedBy x p).
Qed.

Section FullBoard.
Context {U : GameUtils} {E : Entropy}.

(** [X17] The full-board case of [evaluateMove] in aiPlayer.ts ([row] and
    [col] both -1): on a rectangular grid the result is ten times the
    number of atoms on the player's cells; no personality is created and
    no number is drawn. *)
Theorem Rival_evaluateMove_full_board grid p gameState
    (w : world Rival.AIPersonality) :
  rectangular grid →
  Rival.evaluateMove grid (-1) (-1) p gameState w
  = (Ok (inject_Z (10 * material grid p)), w).
Proof.
  intros Hrect. unfold Rival.evaluateMove. simpl.
  rewrite (M_bind_run _ _ w (10 * material grid p) w); [done|].
  rewrite liftM_liftR. by rewrite fullBoardScore_material.
Qed.

End FullBoard.

(** ** Adversarial search: pruning and the two models *)

Lemma ext_le_NegInf a : ext_le NegInf a = true.
Proof. done. Qed.

Lemma ext_le_PosInf a : ext_le a PosInf = true.
Proof. by destruct a. Qed.

Lemma ext_le_refl a : ext_le a a = true.
Proof. ext_order. Qed.

Section AlphaBeta.
Context {U : GameUtils}.

Lemma minimax_S depth grid isMaximizing alpha beta currentPlayer gameState :
  minimax (S depth) grid isMaximizing alpha beta currentPlayer gameState
  = (validMoves ← Rival.getValidMoves grid currentPlayer
                    (gs_isBaseMode gameState) (gs_hqs gameState);
     if isMaximizing then
       maxLoop grid currentPlayer
         (λ newGrid alpha, minimax depth newGrid false alpha beta
                             (Rival.getNextPlayer currentPlayer) gameState)
         beta validMoves NegInf alpha
     else
       minLoop grid currentPlayer
         (λ newGrid beta, minimax depth newGrid true alpha beta
                            (Rival.getNextPlayer currentPlayer) gameState)
         alpha validMoves PosInf beta).
Proof. reflexivity. Qed.

Lemma searchValue_S depth grid isMaximizing currentPlayer gameState :
  searchValue (S depth) grid isMaximizing currentPlayer gameState
  = (validMoves ← Rival.getValidMoves grid currentPlayer
                    (gs_isBaseMode gameState) (gs_hqs gameState);
     bestOf grid currentPlayer isMaximizing
       (λ newGrid, searchValue depth newGrid (negb isMaximizing)
                     (Rival.getNextPlayer currentPlayer) gameState)
       validMoves).
Proof. reflexivity. Qed.

Lemma Rival_getValidMoves_cells grid p mode hqs :
  rectangular grid →
  ∃ moves, Rival.getValidMoves grid p mode hqs = Ok moves
         ∧ Forall (λ m, is_Some (cellAt grid (row m) (col m))) moves.
Proof.
  intros Hrect.
  destruct (validMoves_loop_total grid p mode hqs
              (window 0 (len grid - 1) 0 (gridCols grid - 1)) [])
    as [moves Hm].
  { intros r c _. by apply isValidMoveForAI_total. }
  exists moves. split; [exact Hm|].
  apply Forall_forall. intros m Hin.
  destruct (Rival_getValidMoves_legal grid p mode hqs moves m Hm Hin) as [Hl _].
  apply isValidMoveForAI_true_inside in Hl as [Hr Hc].
  by apply rectangular_cellAt.
Qed.

Lemma Rival_simulateMove_returns grid row col p :
  rectangular grid → is_Some (cellAt grid row col) →
  ∃ newGrid, Rival.simulateMove grid row col p = Ok newGrid
           ∧ rectangular newGrid.
Proof.
  intros Hrect [cell Hcell]. unfold Rival.simulateMove. rewrite Hcell. simpl.
  eexists. split; [done|]. by apply rectangular_setCell.
Qed.

Lemma maxLoop_cons grid p child beta move moves maxEval alpha :
  maxLoop grid p child beta (move :: moves) maxEval alpha
  = (newGrid ← Rival.simulateMove grid (row move) (col move) p;
     evaluation ← child newGrid alpha;
     if ext_le beta (ext_max alpha evaluation)
     then Ok (ext_max maxEval evaluation)
     else maxLoop grid p child beta moves (ext_max maxEval evaluation)
            (ext_max alpha evaluation)).
Proof. reflexivity. Qed.

Lemma minLoop_cons grid p child alpha move moves minEval beta :
  minLoop grid p child alpha (move :: moves) minEval beta
  = (newGrid ← Rival.simulateMove grid (row move) (col move) p;
     evaluation ← child newGrid beta;
     if ext_le (ext_min beta evaluation) alpha
     then Ok (ext_min minEval evaluation)
     else minLoop grid p child alpha moves (ext_min minEval evaluation)
            (ext_min beta evaluation)).
Proof. reflexivity. Qed.

Lemma bestOf_cons grid p isMaximizing value move moves :
  bestOf grid p isMaximizing value (move :: moves)
  = (newGrid ← Rival.simulateMove grid (row move) (col move) p;
     v ← value newGrid;
     rest ← bestOf grid p isMaximizing value moves;
     Ok (if isMaximizing then ext_max v rest else ext_min v rest)).
Proof. reflexivity. Qed.

Lemma bestOf_returns grid p isMaximizing value moves :
  rectangular grid →
  (∀ g, rectangular g → ∃ v, value g = Ok v) →
  Forall (λ m, is_Some (cellAt grid (row m) (col m))) moves →
  ∃ R, bestOf grid p isMaximizing value moves = Ok R.
Proof.
  intros Hrect Hvalue Hcells. induction Hcells as [|move moves Hcell _ IH].
  - by eexists.
  - destruct (Rival_simulateMove_returns grid (row move) (col move) p Hrect Hcell)
      as (g & Hg & Hrg).
    destruct (Hvalue g Hrg) as [v Hv]. destruct IH as [R HR].
    rewrite bestOf_cons, Hg. simpl. rewrite Hv. simpl. rewrite HR. simpl.
    by eexists.
Qed.

(** The maximizing loop: [m] and [a] are [maxEval] and [alpha] so far,
    [Vd] the best value of the children already searched. *)
Lemma maxLoop_window grid p child value beta alpha0 :
  rectangular grid → ext_le beta alpha0 = false →
  (∀ g a, rectangular g → ext_le beta a = false →
     ∃ r v, child g a = Ok r ∧ value g = Ok v
       ∧ (ext_le beta r = false → ext_le v r = true)
       ∧ (ext_le r a = false → ext_le r v = true)) →
  ∀ moves, Forall (λ m, is_Some (cellAt grid (row m) (col m))) moves →
  ∀ m a Vd,
    ext_le alpha0 a = true → ext_le m a = true →
    (ext_le a alpha0 = true ∨ ext_le a m = true) →
    ext_le beta a = false →
    (ext_le beta m = false → ext_le Vd m = true) →
    (ext_le m alpha0 = false → ext_le m Vd = true) →
    ∃ r R, maxLoop grid p child beta moves m a = Ok r
         ∧ bestOf grid p true value moves = Ok R
         ∧ (ext_le beta r = false → ext_le Vd r = true ∧ ext_le R r = true)
         ∧ (ext_le r alpha0 = false → ext_le r Vd = true ∨ ext_le r R = true).
Proof.
  intros Hrect Hwin Hchild moves Hcells.
  induction Hcells as [|move moves Hcell Hcells IH];
    intros m a Vd Ha1 Ha2 Ha3 Hab Hv1 Hv2.
  - exists m, NegInf. split; [done|]. split; [done|]. split.
    + intros Hm. split; [by apply Hv1 | done].
    + intros Hm. left. by apply Hv2.
  - destruct (Rival_simulateMove_returns grid (row move) (col move) p Hrect Hcell)
      as (g & Hg & Hrg).
    destruct (Hchild g a Hrg Hab) as (rc & vc & Hrc & Hvc & Hc1 & Hc2).
    destruct (bestOf_returns grid p true value moves Hrect) as [R HR]; [|done|].
    { intros g' Hg'. destruct (Hchild g' alpha0 Hg' Hwin) as (? & v & _ & Hv & _).
      by exists v. }
    rewrite maxLoop_cons, bestOf_cons, Hg. simpl. rewrite Hrc, Hvc. simpl.
    rewrite HR. simpl.
    destruct (ext_le beta (ext_max a rc)) eqn:Hprune.
    + exists (ext_max m rc), (ext_max vc R). split; [done|]. split; [done|].
      clear IH Hchild HR Hrc Hvc Hg. split.
      * intros Hm. exfalso. ext_solve.
      * ext_solve.
    + destruct (IH (ext_max m rc) (ext_max a rc) (ext_max Vd vc))
        as (r & R' & Hr & HR' & Hq1 & Hq2).
      * clear IH Hchild HR Hrc Hvc Hg. ext_solve.
      * clear IH Hchild HR Hrc Hvc Hg. ext_solve.
      * clear IH Hchild HR Hrc Hvc Hg. ext_solve.
      * done.
      * clear IH Hchild HR Hrc Hvc Hg. ext_solve.
      * clear IH Hchild HR Hrc Hvc Hg. ext_solve.
      * rewrite HR in HR'. injection HR' as <-.
        exists r, (ext_max vc R). split; [done|]. split; [done|].
        clear IH Hchild HR Hrc Hvc Hg Hr. split.
        -- intros Hm. specialize (Hq1 Hm). ext_solve.
        -- intros Hm. specialize (Hq2 Hm). ext_solve.
Qed.

(** The minimizing loop: [m] and [b] are [minEval] and [beta] so far,
    [Vd] the best value of the children already searched. *)
Lemma minLoop_window grid p child value alpha beta0 :
  rectangular grid → ext_le beta0 alpha = false →
  (∀ g b, rectangular g → ext_le b alpha = false →
     ∃ r v, child g b = Ok r ∧ value g = Ok v
       ∧ (ext_le b r = false → ext_le v r = true)
       ∧ (ext_le r alpha = false → ext_le r v = true)) →
  ∀ moves, Forall (λ m, is_Some (cellAt grid (row m) (col m))) moves →
  ∀ m b Vd,
    ext_le b beta0 = true → ext_le b m = true →
    (ext_le beta0 b = true ∨ ext_le m b = true) →
    ext_le b alpha = false →
    (ext_le m alpha = false → ext_le m Vd = true) →
    (ext_le beta0 m = false → ext_le Vd m = true) →
    ∃ r R, minLoop grid p child alpha moves m b = Ok r
         ∧ bestOf grid p false value moves = Ok R
         ∧ (ext_le r alpha = false → ext_le r Vd = true ∧ ext_le r R = true)
         ∧ (ext_le beta0 r = false → ext_le Vd r = true ∨ ext_le R r = true).
Proof.
  intros Hrect Hwin Hchild moves Hcells.
  induction Hcells as [|move moves Hcell Hcells IH];
    intros m b Vd Hb1 Hb2 Hb3 Hab Hv1 Hv2.
  - exists m, PosInf. split; [done|]. split; [done|]. split.
    + intros Hm. split; [by apply Hv1 | apply ext_le_PosInf].
    + intros Hm. left. by apply Hv2.
  - destruct (Rival_simulateMove_returns grid (row move) (col move) p Hrect Hcell)
      as (g & Hg & Hrg).
    destruct (Hchild g b Hrg Hab) as (rc & vc & Hrc & Hvc & Hc1 & Hc2).
    destruct (bestOf_returns grid p false value moves Hrect) as [R HR]; [|done|].
    { intros g' Hg'. destruct (Hchild g' beta0 Hg' Hwin) as (? & v & _ & Hv & _).
      by exists v. }
    rewrite minLoop_cons, bestOf_cons, Hg. simpl. rewrite Hrc, Hvc. simpl.
    rewrite HR. simpl.
    destruct (ext_le (ext_min b rc) alpha) eqn:Hprune.
    + exists (ext_min m rc), (ext_min vc R). split; [done|]. split; [done|].
      clear IH Hchild HR Hrc Hvc Hg. split.
      * intros Hm. exfalso. ext_solve.
      * ext_solve.
    + destruct (IH (ext_min m rc) (ext_min b rc) (ext_min Vd vc))
        as (r & R' & Hr & HR' & Hq1 & Hq2).
      * clear IH Hchild HR Hrc Hvc Hg. ext_solve.
      * clear IH Hchild HR Hrc Hvc Hg. ext_solve.
      * clear IH Hchild HR Hrc Hvc Hg. ext_solve.
      * done.
      * clear IH Hchild HR Hrc Hvc Hg. ext_solve.
      * clear IH Hchild HR Hrc Hvc Hg. ext_solve.
      * rewrite HR in HR'. injection HR' as <-.
        exists r, (ext_min vc R). split; [done|]. split; [done|].
        clear IH Hchild HR Hrc Hvc Hg Hr. split.
        -- intros Hm. specialize (Hq1 Hm). ext_solve.
        -- intros Hm. specialize (Hq2 Hm). ext_solve.
Qed.

(** What the pruned search returns, against the value of the whole tree. *)
Lemma minimax_window depth :
  ∀ grid isMaximizing alpha beta p gameState,
    rectangular grid → ext_le beta alpha = false →
    ∃ r v, minimax depth grid isMaximizing alpha beta p gameState = Ok r
         ∧ searchValue depth grid isMaximizing p gameState = Ok v
         ∧ (ext_le beta r = false → ext_le v r = true)
         ∧ (ext_le r alpha = false → ext_le r v = true).
Proof.
  induction depth as [|depth IH]; intros grid isMaximizing alpha beta p gs Hrect Hwin.
  - simpl. rewrite fullBoardScore_material by done. simpl.
    eexists _, _. split; [done|]. split; [done|].
    split; intros _; apply ext_le_refl.
  - rewrite minimax_S, searchValue_S.
    destruct (Rival_getValidMoves_cells grid p (gs_isBaseMode gs) (gs_hqs gs) Hrect)
      as (moves & -> & Hcells).
    simpl. destruct isMaximizing.
    + destruct (maxLoop_window grid p
                  (λ newGrid a, minimax depth newGrid false a beta
                                  (Rival.getNextPlayer p) gs)
                  (λ newGrid, searchValue depth newGrid false
                                (Rival.getNextPlayer p) gs)
                  beta alpha Hrect Hwin) with (moves := moves)
        (m := NegInf) (a := alpha) (Vd := NegInf)
        as (r & R & Hr & HR & Hq1 & Hq2); try done.
      * intros g a Hg Ha. by apply IH.
      * apply ext_le_refl.
      * left. apply ext_le_refl.
      * exists r, R. split; [done|]. split; [done|]. split.
        -- intros Hm. by destruct (Hq1 Hm).
        -- intros Hm. destruct (Hq2 Hm) as [Hn|]; [|done].
           pose proof (ext_le_NegInf R). ext_order.
    + destruct (minLoop_window grid p
                  (λ newGrid b, minimax depth newGrid true alpha b
                                  (Rival.getNextPlayer p) gs)
                  (λ newGrid, searchValue depth newGrid true
                                (Rival.getNextPlayer p) gs)
                  alpha beta Hrect Hwin) with (moves := moves)
        (m := PosInf) (b := beta) (Vd := PosInf)
        as (r & R & Hr & HR & Hq1 & Hq2); try done.
      * intros g b Hg Hb. by apply IH.
      * apply ext_le_refl.
      * apply ext_le_PosInf.
      * left. apply ext_le_refl.
      * exists r, R. split; [done|]. split; [done|]. split.
        -- intros Hm. destruct (Hq2 Hm) as [Hn|]; [|done].
           pose proof (ext_le_PosInf R). ext_order.
        -- intros Hm. by destruct (Hq1 Hm).
Qed.

(** [X19] Alpha-beta pruning in [minimax] is sound.  On a rectangular
    grid the search returns at every depth; started from the window of the
    two infinities it returns the value of the whole tree, no branch cut;
    with any window [alpha < beta] it returns that value when the result
    falls strictly inside the window, and otherwise a bound: a result at
    or below [alpha] is at least the value, a result at or above [beta]
    at most the value. *)
Theorem minimax_alpha_beta depth grid isMaximizing p gameState :
  rectangular grid →
  ∃ v, searchValue depth grid isMaximizing p gameState = Ok v
     ∧ minimax depth grid isMaximizing NegInf PosInf p gameState = Ok v
     ∧ ∀ alpha beta, ext_le beta alpha = false →
         ∃ r, minimax depth grid isMaximizing alpha beta p gameState = Ok r
            ∧ prunedWithin alpha beta r v.
Proof.
  intros Hrect.
  destruct (minimax_window depth grid isMaximizing NegInf PosInf p gameState
              Hrect eq_refl) as (r & v & Hr & Hv & H1 & H2).
  exists v. split; [done|]. split.
  - rewrite Hr. f_equal.
    destruct r as [|x|], v as [|y|]; simpl in *; try done;
      try (by specialize (H1 eq_refl)); try (by specialize (H2 eq_refl)).
    specialize (H1 eq_refl). specialize (H2 eq_refl). f_equal. lia.
  - intros alpha beta Hwin.
    destruct (minimax_window depth grid isMaximizing alpha beta p gameState
                Hrect Hwin) as (r' & v' & Hr' & Hv' & H1' & H2').
    rewrite Hv in Hv'. injection Hv' as <-.
    exists r'. split; [done|]. unfold prunedWithin.
    clear Hr Hv Hr' H1 H2. ext_solve.
Qed.

End AlphaBeta.

Section SearchRefinement.
Context {U : GameUtils}.

Lemma snapshot_readGrid σ g grid :
  snapshot σ g = Some grid → readGrid g σ = (Ok grid, σ).
Proof.
  intros (rows & cellss & Hrep)%snapshot_rep. by eapply readGrid_rep.
Qed.

Lemma liftH_bind_run {A B} (m : result A) (k : A → H B) σ :
  (liftH m ≫= k) σ = match m with Ok a => k a σ | Throw => (Throw, σ) end.
Proof. by destruct m. Qed.

(** [X18] [minimax] on grid references returns what [minimax] on grid
    values returns for the grid read from the store, a thrown exception
    included: copying the grid at every ply changes nothing to the
    result. *)
Theorem minimax_ref_value depth σ g grid isMaximizing alpha beta p gameState :
  snapshot σ g = Some grid →
  (minimax_ref depth g isMaximizing alpha beta p gameState σ).1
  = minimax depth grid isMaximizing alpha beta p gameState.
Proof.
  revert σ g grid isMaximizing alpha beta p.
  induction depth as [|depth IH]; intros σ g grid isMaximizing alpha beta p Hsnap;
    simpl.
  - rewrite (H_bind_run _ _ σ grid σ) by by apply snapshot_readGrid.
    rewrite liftH_bind_run. by destruct (Rival.fullBoardScore grid p).
  - rewrite (H_bind_run _ _ σ grid σ) by by apply snapshot_readGrid.
    rewrite liftH_bind_run.
    destruct (Rival.getValidMoves grid p _ _) as [moves|]; [|done]. simpl.
    destruct isMaximizing.
    + revert σ Hsnap. generalize NegInf. generalize alpha.
      induction moves as [|move moves IHm]; intros a e σ Hsnap; [done|].
      pose proof (simulateMove_ref_value σ g grid (row move) (col move) p Hsnap)
        as Hsim.
      destruct (simulateMove_ref g (row move) (col move) p σ)
        as [[newGrid|] σ1] eqn:Hs.
      2:{ rewrite (H_bind_throw _ _ _ _ Hs), Hsim. done. }
      destruct Hsim as (grid' & Hv & Hsnap').
      rewrite (H_bind_run _ _ _ _ _ Hs), Hv. simpl.
      specialize (IH σ1 newGrid grid' false a beta (Rival.getNextPlayer p) Hsnap').
      destruct (minimax_ref depth newGrid false a beta (Rival.getNextPlayer p)
                  gameState σ1) as [[evaluation|] σ2] eqn:Hm; simpl in IH.
      2:{ rewrite (H_bind_throw _ _ _ _ Hm), <- IH. done. }
      rewrite (H_bind_run _ _ _ _ _ Hm), <- IH. simpl.
      destruct (ext_le beta (ext_max a evaluation)); [done|].
      apply IHm. eapply snapshot_weaken; [|exact Hsnap].
      etrans; [eapply grows_run; [apply grows_simulateMove_ref | exact Hs]|].
      eapply grows_run; [apply grows_minimax_ref | exact Hm].
    + revert σ Hsnap. generalize PosInf. generalize beta.
      induction moves as [|move moves IHm]; intros b e σ Hsnap; [done|].
      pose proof (simulateMove_ref_value σ g grid (row move) (col move) p Hsnap)
        as Hsim.
      destruct (simulateMove_ref g (row move) (col move) p σ)
        as [[newGrid|] σ1] eqn:Hs.
      2:{ rewrite (H_bind_throw _ _ _ _ Hs), Hsim. done. }
      destruct Hsim as (grid' & Hv & Hsnap').
      rewrite (H_bind_run _ _ _ _ _ Hs), Hv. simpl.
      specialize (IH σ1 newGrid grid' true alpha b (Rival.getNextPlayer p) Hsnap').
      destruct (minimax_ref depth newGrid true alpha b (Rival.getNextPlayer p)
                  gameState σ1) as [[evaluation|] σ2] eqn:Hm; simpl in IH.
      2:{ rewrite (H_bind_throw _ _ _ _ Hm), <- IH. done. }
      rewrite (H_bind_run _ _ _ _ _ Hm), <- IH. simpl.
      destruct (ext_le (ext_min b evaluation) alpha); [done|].
      apply IHm. eapply snapshot_weaken; [|exact Hsnap].
      etrans; [eapply grows_run; [apply grows_simulateMove_ref | exact Hs]|].
      eapply grows_run; [apply grows_minimax_ref | exact Hm].
Qed.

End SearchRefinement.

(** ** The theorems on concrete positions *)

Lemma isValidMoveForAI_sound_witness :
  isValidMoveForAI (U:=boardGeometry) (emptyGrid 2 2) 5 0 RED false None = Ok false
  ∧ isValidMoveForAI (U:=boardGeometry) (emptyGrid 3 3) 0 0 BLUE true
      (Some [mkHQ 0 0 RED 5]) = Ok false
  ∧ isValidMoveForAI (U:=boardGeometry) blueAboveCentre 0 1 RED false None
    = Ok false.
Proof.
  split; [|split].
  - apply (proj1 (isValidMoveForAI_sound (U:=boardGeometry)
                    (emptyGrid 2 2) 5 0 RED false None)).
    unfold outOfBounds. right. left. vm_compute. discriminate.
  - apply (proj1 (proj2 (isValidMoveForAI_sound (U:=boardGeometry)
                    (emptyGrid 3 3) 0 0 BLUE true (Some [mkHQ 0 0 RED 5]))));
      [reflexivity|].
    exists [mkHQ 0 0 RED 5], (mkHQ 0 0 RED 5).
    repeat split. apply list_elem_of_singleton. reflexivity.
  - apply (proj2 (proj2 (isValidMoveForAI_sound (U:=boardGeometry)
                    blueAboveCentre 0 1 RED false None))); [reflexivity|].
    exists blueDot, BLUE. repeat split. discriminate.
Defined.

Lemma isValidMoveForAI_first_move_witness :
  isValidMoveForAI (U:=boardGeometry) (emptyGrid 3 3) 0 2 RED true
    (Some [mkHQ 0 0 RED 5; mkHQ 2 2 BLUE 5]) = Ok true
  ∧ (0 = 0 ∨ 2 = 0).
Proof.
  split; [reflexivity|].
  apply (isValidMoveForAI_first_move (U:=boardGeometry) (emptyGrid 3 3) 0 2 RED
           [mkHQ 0 0 RED 5; mkHQ 2 2 BLUE 5] (mkHQ 0 0 RED 5)).
  - reflexivity.
  - apply noPlayerDots_iff. reflexivity.
  - reflexivity.
Defined.

Lemma no_legal_move_no_move_witness :
  (Simple.getAIMove (U:=boardGeometry) (E:=constantEntropy 0.5)
     allBlue RED false None SMART None newGame).1 = None
  ∧ (Rival.getAIMove (U:=boardGeometry) (E:=constantEntropy 0.5)
     allBlue RED false None SMART None newGame).1 = None.
Proof.
  assert (∀ r c, 0 ≤ r < len allBlue → 0 ≤ c < gridCols allBlue →
                 isValidMoveForAI (U:=boardGeometry) allBlue r c RED false None
                 ≠ Ok true) as Hnone.
  { intros r c Hr Hc. unfold gridCols, len in *. simpl in *.
    assert (r = 0 ∨ r = 1) as [-> | ->] by lia;
      (assert (c = 0 ∨ c = 1) as [-> | ->] by lia); vm_compute; discriminate. }
  destruct (no_legal_move_no_move (U:=boardGeometry) (E:=constantEntropy 0.5)
              allBlue RED false None SMART None Hnone) as [HS HR].
  split; [apply HS | apply HR].
Defined.

Lemma selected_move_is_legal_witness :
  isValidMoveForAI (U:=boardGeometry) (emptyGrid 3 3) 2 2 RED false None = Ok true
  ∧ isValidMoveForAI (U:=boardGeometry) (emptyGrid 3 3) 0 2 RED false None = Ok true.
Proof.
  destruct (selected_move_is_legal (U:=boardGeometry) (E:=constantEntropy 0.5)
              (emptyGrid 3 3) RED false None SMART None) as [HS HR].
  split.
  - eapply (HS newGame (mkMove 2 2 _)). vm_compute. reflexivity.
  - eapply (HR newGame (mkMove 0 2 _)). vm_compute. reflexivity.
Defined.

Lemma findPowerUp_edge r c :
  is_Some (findPowerUp [edgePowerUp] r c) → r = 0 ∧ c = 1.
Proof.
  unfold findPowerUp. cbn [List.find pu_row pu_col edgePowerUp].
  destruct ((0 =? r) && (1 =? c)) eqn:Hb; [lia|]. intros [x Hx]. discriminate Hx.
Qed.

Lemma Rival_powerUp_priority_witness :
  (Rival.getAIMove (U:=boardGeometry) (E:=constantEntropy 0.5)
     (emptyGrid 3 3) RED true (Some duelHQs) SMART (Some [edgePowerUp]) newGame).1
  = Some (mkMove 0 1 10000).
Proof.
  rewrite (Rival_powerUp_priority (U:=boardGeometry) (E:=constantEntropy 0.5)
             (emptyGrid 3 3) RED (Some duelHQs) [edgePowerUp] 0 1 newGame).
  - reflexivity.
  - repeat constructor.
  - reflexivity.
  - by eexists.
  - intros r c _. apply findPowerUp_edge.
Defined.

(** The selector of the other tuning on the same position: red's first
    move may go to (0,1), (0,2), (1,0) or (2,0); only (0,1) holds a
    power-up, and (0,2) is returned. *)
Lemma Simple_no_powerUp_override :
  rectangular (emptyGrid 3 3)
  ∧ isValidMoveForAI (U:=boardGeometry) (emptyGrid 3 3) 0 1 RED true
      (Some duelHQs) = Ok true
  ∧ is_Some (findPowerUp [edgePowerUp] 0 1)
  ∧ (∀ r c, isValidMoveForAI (U:=boardGeometry) (emptyGrid 3 3) r c RED true
              (Some duelHQs) = Ok true →
            is_Some (findPowerUp [edgePowerUp] r c) → r = 0 ∧ c = 1)
  ∧ ∃ m, (Simple.getAIMove (U:=boardGeometry) (E:=constantEntropy 0.5)
            (emptyGrid 3 3) RED true (Some duelHQs) SMART (Some [edgePowerUp])
            newGame).1
         = Some m
       ∧ row m = 0 ∧ col m = 2.
Proof.
  split; [repeat constructor|]. split; [reflexivity|]. split; [by eexists|].
  split; [intros r c _; apply findPowerUp_edge|].
  eexists. split; [vm_compute; reflexivity|]. done.
Qed.

Lemma aggressiveScore_without_explosion_witness :
  ∃ ev n, Simple.evaluateStrategicMove (U:=boardGeometry) (E:=constantEntropy 0.5)
            blueAboveCentre 1 1 RED
            (mkGameState blueAboveCentre RED true (Some duelHQs) None) 0%nat = (Ok ev, n)
        ∧ (aggressiveScore ev == 4)%Q.
Proof.
  destruct (aggressiveScore_without_explosion (U:=boardGeometry)
              (E:=constantEntropy 0.5) blueAboveCentre 1 1 RED
              (mkGameState blueAboveCentre RED true (Some duelHQs) None) emptyCell 0%nat)
    as [HS _]; [reflexivity | vm_compute; reflexivity |].
  eexists _, _. split; [vm_compute; reflexivity|].
  edestruct HS as [(t & pen & n1 & prox & Hpos & Hprox & Heq) _];
    [vm_compute; reflexivity|].
  vm_compute in Hpos. vm_compute in Hprox.
  injection Hpos as <- <- <-. injection Hprox as <-.
  vm_compute. vm_compute in Heq. exact Heq.
Defined.

(** A placement below critical mass (1 atom, critical mass 4) whose
    aggressive score is 4 in both tunings. *)
Lemma aggressiveScore_nonzero_below_critical_mass :
  cellAt blueAboveCentre 1 1 = Some emptyCell
  ∧ atoms emptyCell + 1 < calculateCriticalMass (GameUtils:=boardGeometry) 1 1 3 3
  ∧ (∃ ev n, Simple.evaluateStrategicMove (U:=boardGeometry)
               (E:=constantEntropy 0.5) blueAboveCentre 1 1 RED
               (mkGameState blueAboveCentre RED true (Some duelHQs) None) 0%nat = (Ok ev, n)
           ∧ ¬ (aggressiveScore ev == 0)%Q)
  ∧ (∃ ev n, Rival.evaluateStrategicMove (U:=boardGeometry)
               (E:=constantEntropy 0.5) blueAboveCentre 1 1 RED
               (mkGameState blueAboveCentre RED true (Some duelHQs) None) 0%nat = (Ok ev, n)
           ∧ ¬ (aggressiveScore ev == 0)%Q).
Proof.
  split; [reflexivity|]. split; [vm_compute; reflexivity|].
  split; (eexists _, _; split; [vm_compute; reflexivity|]); vm_compute; discriminate.
Qed.



(** The trait, the window and the index are those of the doubles, not of
    the exact sums and products: the draw 1174852076705347 / 2^53 gives
    [riskTaking] 0.5 exactly; ten candidates at [riskTaking] 0.5 give a
    window of 4 (0.1 + 0.2 rounds up above 0.3); and the largest draw
    below 2/3 gives index 2 of 3 (its product with 3 rounds up to 2). *)
Lemma selection_rounds_like_doubles :
  (fadd (double 0.2) (fmul (1174852076705347 # 9007199254740992) (double 2.3))
   == Simple.riskTaking moderate)%Q
  ∧ Simple.topMoves moderate 10 = 4
  ∧ Qceiling (inject_Z 10 * (0.1 + Simple.riskTaking moderate * 0.4)) = 3
  ∧ unitDouble (6004799503160661 # 9007199254740992) = true
  ∧ Qfloor (fmul (6004799503160661 # 9007199254740992) (inject_Z 3)) = 2
  ∧ Qfloor ((6004799503160661 # 9007199254740992) * inject_Z 3) = 1.
Proof. repeat split; vm_compute; reflexivity. Qed.

Lemma chain_potential_monotone_witness :
  ∃ v v', calculateChainReactionPotential (U:=boardGeometry) cornerDuel 0 0 RED
          = Ok v
        ∧ calculateChainReactionPotential (U:=boardGeometry)
            (setCell cornerDuel 0 1 (mkCell 2 (Some BLUE))) 0 0 RED = Ok v'
        ∧ v ≤ v'.
Proof.
  apply (chain_potential_monotone (U:=boardGeometry) cornerDuel 0 0 RED 0 1
           blueDot 2).
  - repeat constructor.
  - vm_compute. split; [discriminate | reflexivity].
  - vm_compute. split; [discriminate | reflexivity].
  - discriminate.
  - reflexivity.
  - vm_compute. split; [reflexivity | discriminate].
Defined.

(** On that position the raise makes a difference: the blue neighbour
    comes within one atom of its critical mass. *)
Example chain_potential_cornerDuel :
  calculateChainReactionPotential (U:=boardGeometry) cornerDuel 0 0 RED = Ok 0
  ∧ calculateChainReactionPotential (U:=boardGeometry)
      (setCell cornerDuel 0 1 (mkCell 2 (Some BLUE))) 0 0 RED = Ok 7.
Proof. split; reflexivity. Qed.

Lemma caller_grid_unchanged_witness :
  snapshot (calculateChainReactionPotential_ref (U:=boardGeometry)
              hostGrid 0 0 RED hostStore).2 hostGrid = Some (emptyGrid 2 2)
  ∧ snapshot (simulateMove_ref hostGrid 0 0 RED hostStore).2 hostGrid
    = Some (emptyGrid 2 2)
  ∧ snapshot (minimax_ref (U:=boardGeometry) 2 hostGrid true NegInf PosInf RED
                (mkGameState (emptyGrid 2 2) RED false None None) hostStore).2
      hostGrid = Some (emptyGrid 2 2).
Proof.
  destruct (caller_grid_unchanged (U:=boardGeometry) hostStore hostGrid)
    as (_ & _ & Hsnap & _).
  destruct (Hsnap (emptyGrid 2 2)) as [H1 H2]; [vm_compute; reflexivity|].
  split; [exact (proj1 (H1 0 0 RED))|].
  split; [exact (proj2 (H1 0 0 RED))|].
  exact (H2 2%nat true NegInf PosInf RED
           (mkGameState (emptyGrid 2 2) RED false None None)).
Defined.

Lemma idx_elem_of {A} (a : list A) i x : idx a i = Some x → x ∈ a.
Proof.
  unfold idx. destruct (decide (0 ≤ i)); [|done].
  apply list_elem_of_lookup_2.
Qed.

Lemma atomsNonneg_Forall (grid : Grid) :
  Forall (Forall (λ cell, 0 ≤ atoms cell)) grid → atomsNonneg grid.
Proof.
  intros Hall r c cell Hcell. unfold cellAt in Hcell.
  destruct (idx grid r) as [rw|] eqn:Hrow; [|done]. simpl in Hcell.
  apply idx_elem_of in Hrow. apply idx_elem_of in Hcell.
  rewrite Forall_forall in Hall. specialize (Hall rw Hrow).
  rewrite Forall_forall in Hall. by apply Hall.
Qed.

Lemma unitRandom_constant : unitRandom (constantEntropy 0.5).
Proof. intros k. vm_compute. reflexivity. Qed.

Lemma isValidMoveForAI_base_expansion_iff_witness :
  1 < gridCols cornerDuel
  ∧ ¬ onHQ (Some duelHQs) 1 1
  ∧ (∃ cell, cellAt cornerDuel 1 1 = Some cell
             ∧ (player cell = None ∨ player cell = Some RED))
  ∧ (Z.abs (1 - hq_row (mkHQ 0 0 RED 5)) ≤ 1
     ∧ Z.abs (1 - hq_col (mkHQ 0 0 RED 5)) ≤ 1
     ∨ ∃ r c, ownDotAt cornerDuel RED r c
              ∧ isAdjacentTo (GameUtils:=boardGeometry) 1 1 r c = true).
Proof.
  apply (isValidMoveForAI_base_expansion_iff (U:=boardGeometry)
           cornerDuel 1 1 RED duelHQs (mkHQ 0 0 RED 5)).
  - reflexivity.
  - exists 0, 0, redDot. repeat split.
  - reflexivity.
Defined.

Lemma isValidMoveForAI_base_without_HQ_iff_witness :
  1 < gridCols blueAboveCentre
  ∧ ¬ onHQ None 1 1
  ∧ ∃ cell, cellAt blueAboveCentre 1 1 = Some cell
            ∧ (player cell = None ∨ player cell = Some RED).
Proof.
  apply (isValidMoveForAI_base_without_HQ_iff (U:=boardGeometry)
           blueAboveCentre 1 1 RED None).
  - reflexivity.
  - reflexivity.
Defined.

Lemma chain_potential_range_witness :
  ∃ v, calculateChainReactionPotential (U:=boardGeometry) cornerDuel 0 0 RED = Ok v
     ∧ (v = 0 ∨ 7 ≤ v ≤ 52)
     ∧ (atoms redDot + 1
        < calculateCriticalMass (GameUtils:=boardGeometry) 0 0
            (len cornerDuel) (gridCols cornerDuel)
        → v = 0).
Proof.
  apply (chain_potential_range (U:=boardGeometry) cornerDuel 0 0 RED redDot).
  - repeat constructor.
  - reflexivity.
Defined.

Lemma chain_potential_ignores_owners_witness :
  ∃ v, calculateChainReactionPotential (U:=boardGeometry) cornerDuel 0 0 RED = Ok v
     ∧ calculateChainReactionPotential (U:=boardGeometry) cornerDuelSwapped 0 0 BLUE
       = Ok v.
Proof.
  apply (chain_potential_ignores_owners (U:=boardGeometry) cornerDuel
           cornerDuelSwapped 0 0 RED BLUE redDot).
  - repeat constructor.
  - reflexivity.
  - repeat constructor.
Defined.

Lemma Simple_generateAIPersonality_ranges_witness :
  ∃ p, Simple.generateAIPersonality (E:=constantEntropy 0.5) 0%nat = (Ok p, 7%nat)
     ∧ (double 0.2 <= Simple.aggressiveness p <= 2.5)%Q
     ∧ (double 0.2 <= Simple.defensiveness p <= 2.5)%Q
     ∧ (double 0.2 <= Simple.riskTaking p <= 2.5)%Q
     ∧ (double 0.8 <= Simple.powerUpHunting p <= 3.0)%Q
     ∧ (double 0.2 <= Simple.territorialness p <= 2.5)%Q
     ∧ (double 0.1 <= Simple.cornerPreference p <= 2.0)%Q
     ∧ (double 0.2 <= Simple.spreadTendency p <= 2.5)%Q.
Proof.
  apply (Simple_generateAIPersonality_ranges (E:=constantEntropy 0.5) 0%nat).
  intros k. vm_compute. reflexivity.
Defined.

Lemma Rival_freshPersonality_ranges_witness :
  ∃ p, Rival.freshPersonality (E:=constantEntropy 0.5) RED 0%nat = (Ok p, 9%nat)
     ∧ (double 1.2 <= Rival.aggressiveness p <= 3.0)%Q
     ∧ (double 0.8 <= Rival.defensiveness p <= 3.0)%Q
     ∧ (1.0 <= Rival.baseHuntingThirst p <= 3.0)%Q
     ∧ (2.5 <= Rival.powerUpHunting p <= 3.0)%Q
     ∧ (double 0.8 <= Rival.territorialness p <= 2.5)%Q
     ∧ (double 0.3 <= Rival.cornerPreference p <= 1.5)%Q
     ∧ (1.0 <= Rival.spreadTendency p <= 2.5)%Q
     ∧ ∃ enemy, Rival.targetEnemy p = Some enemy ∧ enemy ≠ RED.
Proof.
  apply (Rival_freshPersonality_ranges (E:=constantEntropy 0.5) RED 0%nat).
  intros k. vm_compute. reflexivity.
Defined.

Lemma powerUpScore_bounds_witness :
  ∃ ev n' s,
    Rival.evaluateStrategicMove (U:=boardGeometry) (E:=constantEntropy 0.5)
      (emptyGrid 3 3) 0 1 RED duelOpening 0%nat = (Ok ev, n')
    ∧ powerUpScore ev = inject_Z s ∧ 7000 ≤ s.
Proof.
  destruct (powerUpScore_bounds (U:=boardGeometry) (E:=constantEntropy 0.5)
              (emptyGrid 3 3) 0 1 RED duelOpening emptyCell 0%nat)
    as [_ (ev & n' & s & Hev & Hs & _ & _ & _ & Hon)].
  - repeat constructor.
  - reflexivity.
  - exists ev, n', s. split; [done|]. split; [done|].
    apply (Hon [edgePowerUp]); [reflexivity | reflexivity | by eexists].
Defined.

Lemma baseThreatScore_bounds_witness :
  ∃ ev n' b,
    Rival.evaluateStrategicMove (U:=boardGeometry) (E:=constantEntropy 0.5)
      (emptyGrid 3 3) 1 2 RED duelOpening 0%nat = (Ok ev, n')
    ∧ baseThreatScore ev = inject_Z b ∧ 60 ≤ b ≤ 80.
Proof.
  destruct (baseThreatScore_bounds (U:=boardGeometry) (E:=constantEntropy 0.5)
              (emptyGrid 3 3) 1 2 RED duelOpening emptyCell 0%nat
              ltac:(repeat constructor) eq_refl false)
    as (ev & n' & b & Hev & Hb & _ & _ & Hhq).
  exists ev, n', b. split; [done|]. split; [done|].
  destruct (Hhq duelHQs eq_refl) as (_ & Hup & _ & Hlow).
  split.
  - apply (Hlow eq_refl (mkHQ 2 2 BLUE 5)).
    + vm_compute. apply list_elem_of_here.
    + by vm_compute.
  - apply Hup. by vm_compute.
Defined.

Lemma territoryScore_range_witness :
  ∃ ev n',
    Simple.evaluateStrategicMove (U:=boardGeometry) (E:=constantEntropy 0.5)
      (emptyGrid 3 3) 1 1 RED duelOpening 0%nat = (Ok ev, n')
    ∧ (1 <= territoryScore ev <= 9)%Q ∧ n' = 3%nat.
Proof.
  apply (territoryScore_range (U:=boardGeometry) (E:=constantEntropy 0.5)
           (emptyGrid 3 3) 1 1 RED duelOpening emptyCell 0%nat
           unitRandom_constant ltac:(repeat constructor) eq_refl true).
Defined.

Lemma defensiveScore_sign_witness :
  ∃ ev n' d,
    Simple.evaluateStrategicMove (U:=boardGeometry) (E:=constantEntropy 0.5)
      (emptyGrid 3 3) 1 1 RED duelOpening 0%nat = (Ok ev, n')
    ∧ defensiveScore ev = inject_Z d ∧ 0 ≤ d.
Proof.
  assert (atomsNonneg (emptyGrid 3 3)) as Hnonneg
    by (apply atomsNonneg_Forall; repeat constructor; discriminate).
  destruct (defensiveScore_sign (U:=boardGeometry) (E:=constantEntropy 0.5)
              (emptyGrid 3 3) 1 1 RED duelOpening emptyCell 0%nat
              ltac:(repeat constructor) Hnonneg eq_refl true)
    as (ev & n' & d & Hev & Hd & Hd0 & _).
  by exists ev, n', d.
Defined.

Lemma Rival_getValidMoves_spec_witness :
  ∃ moves, Rival.getValidMoves (U:=boardGeometry) (emptyGrid 3 3) RED true
             (Some duelHQs) = Ok moves
    ∧ (∀ m, m ∈ moves ↔
            isValidMoveForAI (U:=boardGeometry) (emptyGrid 3 3) (row m) (col m)
              RED true (Some duelHQs) = Ok true
            ∧ score m = 0%Q)
    ∧ StronglySorted rowMajor moves
    ∧ NoDup moves.
Proof.
  apply (Rival_getValidMoves_spec (U:=boardGeometry) (emptyGrid 3 3) RED true
           (Some duelHQs)).
  repeat constructor.
Defined.

Lemma Rival_evaluateMove_full_board_witness :
  Rival.evaluateMove (U:=boardGeometry) (E:=constantEntropy 0.5) cornerDuel
    (-1) (-1) RED duelOpening newGame
  = (Ok (inject_Z (10 * material cornerDuel RED)), newGame).
Proof.
  apply (Rival_evaluateMove_full_board (U:=boardGeometry)
           (E:=constantEntropy 0.5) cornerDuel RED duelOpening newGame).
  repeat constructor.
Defined.

Lemma minimax_ref_value_witness :
  (minimax_ref (U:=boardGeometry) 2 hostGrid true NegInf PosInf RED
     (mkGameState (emptyGrid 2 2) RED false None None) hostStore).1
  = minimax (U:=boardGeometry) 2 (emptyGrid 2 2) true NegInf PosInf RED
      (mkGameState (emptyGrid 2 2) RED false None None).
Proof.
  apply (minimax_ref_value (U:=boardGeometry) 2 hostStore hostGrid
           (emptyGrid 2 2)).
  vm_compute. reflexivity.
Defined.

Lemma minimax_alpha_beta_witness :
  ∃ v, searchValue (U:=boardGeometry) 2 (emptyGrid 2 2) true RED
         (mkGameState (emptyGrid 2 2) RED false None None) = Ok v
     ∧ minimax (U:=boardGeometry) 2 (emptyGrid 2 2) true NegInf PosInf RED
         (mkGameState (emptyGrid 2 2) RED false None None) = Ok v
     ∧ ∀ alpha beta, ext_le beta alpha = false →
         ∃ r, minimax (U:=boardGeometry) 2 (emptyGrid 2 2) true alpha beta RED
                (mkGameState (emptyGrid 2 2) RED false None None) = Ok r
            ∧ prunedWithin alpha beta r v.
Proof.
  apply (minimax_alpha_beta (U:=boardGeometry) 2 (emptyGrid 2 2) true RED
           (mkGameState (emptyGrid 2 2) RED false None None)).
  repeat constructor.
Defined.

